(** * atasol: game state, move generation and alpha-beta search

    A shallow embedding of [solver.hpp] (and of the seeding done in
    [main.cpp]) together with the properties of its specification.

    Conventions of the embedding.
    - [uint32_t] coordinates and positions are integers of [Z]; every index
      expression of the source is evaluated under a guard that keeps it inside
      [0, boardSize * boardSize) (lemmas [inspected_inRange] and
      [sources_inRange]), so no unsigned wrap-around is ever taken.
    - [Storage] is [std::size_t] on a 64-bit target; a storage word is a [Z]
      and the bit operations are those of [Z].
    - [Score] is [int32_t]; signed overflow is undefined in C++, scores are
      integers of [Z] (on states satisfying the count invariant they stay
      within [-49, 49]).
    - [std::sort] belongs to the C++ library: the search is parametrised by a
      sorting function, of which only the permutation property is used. *)

From Stdlib Require Import ZArith List Bool Lia Permutation.
From Stdlib Require String Ascii DecimalString.
Import ListNotations.

Local Open Scope Z_scope.

(** ** Constants *)

Definition boardSize : Z := 7.

Definition bitsNeeded : Z := boardSize * boardSize * 2 + 1.
Definition bitsPerStorage : Z := 8 * 8.
Definition storagesNeeded : Z :=
  bitsNeeded / bitsPerStorage + (if bitsNeeded mod bitsPerStorage =? 0 then 0 else 1).

Definition upperLimitMoves : Z :=
  boardSize * boardSize + boardSize * boardSize * 16.

(** ** Entries *)

(** The three states of a field; two bits per field leave a fourth, unused
    bit pattern, which [static_cast<Entry>] can still produce. *)
Inductive Entry : Type :=
| Empty
| White
| Black
| Unused3.

Definition Z_of_Entry (e : Entry) : Z :=
  match e with
  | Empty => 0
  | White => 1
  | Black => 2
  | Unused3 => 3
  end.

Definition Entry_of_Z (z : Z) : Entry :=
  match z with
  | 0 => Empty
  | 1 => White
  | 2 => Black
  | _ => Unused3
  end.

Definition Entry_eqb (a b : Entry) : bool :=
  match a, b with
  | Empty, Empty | White, White | Black, Black | Unused3, Unused3 => true
  | _, _ => false
  end.

(** ** The status of a game *)

(** [std::array<Storage, storagesNeeded>] with [storagesNeeded = 2]. *)
Record Storages : Type := mkStorages { word0 : Z; word1 : Z }.

Definition rd (a : Storages) (index : Z) : Z :=
  match index with
  | 0 => word0 a
  | 1 => word1 a
  | _ => 0
  end.

Definition wr (a : Storages) (index : Z) (x : Z) : Storages :=
  match index with
  | 0 => mkStorages x (word1 a)
  | 1 => mkStorages (word0 a) x
  | _ => a
  end.

Record Status : Type := mkStatus {
  storages_ : Storages;
  whiteScore_ : Z;
  blackScore_ : Z
}.

(** [constexpr Status() : storages_{} {}] *)
Definition Status0 : Status := mkStatus (mkStorages 0 0) 0 0.

Definition turnBit : Z := Z.shiftl 1 (bitsPerStorage - 1).

(** [~x] on a 64-bit word *)
Definition not64 (x : Z) : Z := Z.lxor x (Z.ones bitsPerStorage).

Definition whiteMoves (s : Status) : bool :=
  Z.land (rd (storages_ s) (storagesNeeded - 1)) turnBit =? 0.

Definition blackMoves (s : Status) : bool :=
  negb (Z.land (rd (storages_ s) (storagesNeeded - 1)) turnBit =? 0).

Definition movingPlayer (s : Status) : Entry :=
  if whiteMoves s then White else Black.

Definition switchPlayerTurn (s : Status) : Status :=
  let last := storagesNeeded - 1 in
  mkStatus (wr (storages_ s) last (Z.lxor (rd (storages_ s) last) turnBit))
           (whiteScore_ s) (blackScore_ s).

(** [operator[]] *)
Definition get (s : Status) (pos : Z) : Entry :=
  let pos := pos * 2 in
  let index := pos / bitsPerStorage in
  let relPos := pos - index * bitsPerStorage in
  let bitmask := Z.shiftl 3 relPos in
  Entry_of_Z (Z.shiftr (Z.land (rd (storages_ s) index) bitmask) relPos).

Definition setNoScoreAdjust (pos : Z) (value : Entry) (s : Status) : Status :=
  let pos := pos * 2 in
  let index := pos / bitsPerStorage in
  let relPos := pos - index * bitsPerStorage in
  let bitmask := Z.shiftl 3 relPos in
  let w := Z.land (rd (storages_ s) index) (not64 bitmask) in
  let w := Z.lor w (Z.shiftl (Z_of_Entry value) relPos) in
  mkStatus (wr (storages_ s) index w) (whiteScore_ s) (blackScore_ s).

Definition set (pos : Z) (value : Entry) (s : Status) : Status :=
  let v := get s pos in
  if Entry_eqb v value then s
  else
    let s := match v with
             | White => mkStatus (storages_ s) (whiteScore_ s - 1) (blackScore_ s)
             | Black => mkStatus (storages_ s) (whiteScore_ s) (blackScore_ s - 1)
             | _ => s
             end in
    let s := match value with
             | White => mkStatus (storages_ s) (whiteScore_ s + 1) (blackScore_ s)
             | Black => mkStatus (storages_ s) (whiteScore_ s) (blackScore_ s + 1)
             | _ => s
             end in
    setNoScoreAdjust pos value s.

(** One guarded capture of [spawn]: when the guard holds and the entry at
    [pos] is [np], [set(pos, cp)]. *)
Definition capture (guard : bool) (pos : Z) (np cp : Entry) (s : Status) : Status :=
  if guard && Entry_eqb (get s pos) np then set pos cp s else s.

Definition spawn (i j : Z) (s : Status) : Status :=
  let cp := movingPlayer s in
  let wm := whiteMoves s in
  let s := setNoScoreAdjust (i * boardSize + j) cp s in
  let s := if wm
           then mkStatus (storages_ s) (whiteScore_ s + 1) (blackScore_ s)
           else mkStatus (storages_ s) (whiteScore_ s) (blackScore_ s + 1) in
  let s := switchPlayerTurn s in
  let np := movingPlayer s in
  let s := if i >? 0 then
             let s := capture (j >? 0) ((i - 1) * boardSize + j - 1) np cp s in
             let s := capture true ((i - 1) * boardSize + j) np cp s in
             capture (j <? boardSize - 1) ((i - 1) * boardSize + j + 1) np cp s
           else s in
  let s := capture (j >? 0) (i * boardSize + j - 1) np cp s in
  let s := capture (j <? boardSize - 1) (i * boardSize + j + 1) np cp s in
  if i <? boardSize - 1 then
    let s := capture (j >? 0) ((i + 1) * boardSize + j - 1) np cp s in
    let s := capture true ((i + 1) * boardSize + j) np cp s in
    capture (j <? boardSize - 1) ((i + 1) * boardSize + j + 1) np cp s
  else s.

(** [score()], the value returned; the recount of the debug build is
    [countEntries] below. *)
Definition score (s : Status) : Z :=
  if blackScore_ s =? 0 then boardSize * boardSize
  else if whiteScore_ s =? 0 then - (boardSize * boardSize)
  else if whiteScore_ s + blackScore_ s =? boardSize * boardSize then
    if whiteScore_ s >? blackScore_ s then boardSize * boardSize
    else if blackScore_ s >? whiteScore_ s then - (boardSize * boardSize)
    else (* falls through to the last return *) whiteScore_ s - blackScore_ s
  else whiteScore_ s - blackScore_ s.

(** The recount of the debug build of [score()]: the number of positions
    holding a given entry. *)
Definition positions : list Z :=
  map Z.of_nat (seq 0 (Z.to_nat (boardSize * boardSize))).

Definition countEntries (s : Status) (e : Entry) : Z :=
  Z.of_nat (length (filter (fun pos => Entry_eqb (get s pos) e) positions)).

(** [score()] of the debug build: [None] when one of its two assertions
    fails. *)
Definition score_checked (s : Status) : option Z :=
  if (countEntries s White =? whiteScore_ s) && (countEntries s Black =? blackScore_ s)
  then Some (score s) else None.

(** ** Move generation *)

(** The output iterator together with the counter [num]. *)
Record Out : Type := mkOut { written : list Status; num : Z }.

(** [*output = copy; ++output; ++num;] *)
Definition write (copy : Status) (o : Out) : Out :=
  mkOut (written o ++ [copy]) (num o + 1).

(** One jump block: when the guard holds and [start[src] == movingPlayer],
    vacate [src] on a copy, spawn at (i, j) and write the copy. *)
Definition jumpFrom (start : Status) (guard : bool) (src : Z) (i j : Z) (o : Out) : Out :=
  if guard && Entry_eqb (get start src) (movingPlayer start)
  then write (spawn i j (set src Empty start)) o
  else o.

(** The test "at least one neighboring entry is of type movingPlayer". *)
Definition canSpawn (start : Status) (i j : Z) : bool :=
  let own pos := Entry_eqb (get start pos) (movingPlayer start) in
  ((i >? 0) && (own ((i - 1) * boardSize + j)
                || ((j >? 0) && own ((i - 1) * boardSize + j - 1))
                || ((j <? boardSize - 1) && own ((i - 1) * boardSize + j + 1))))
  || (((j >? 0) && own (i * boardSize + j - 1))
      || ((j <? boardSize - 1) && own (i * boardSize + j + 1)))
  || ((i <? boardSize - 1) && (own ((i + 1) * boardSize + j)
                || ((j >? 0) && own ((i + 1) * boardSize + j - 1))
                || ((j <? boardSize - 1) && own ((i + 1) * boardSize + j + 1)))).

(** The body of the two nested loops of [generateStatuses]. *)
Definition cellStatuses (start : Status) (i j : Z) (o : Out) : Out :=
  if negb (Entry_eqb (get start (i * boardSize + j)) Empty) then o
  else
    let o := if canSpawn start i j then write (spawn i j start) o else o in
    let o :=
      if i >? 1 then
        let o :=
          if j >? 0 then
            let o := jumpFrom start (j >? 1) ((i - 2) * boardSize + j - 2) i j o in
            jumpFrom start true ((i - 2) * boardSize + j - 1) i j o
          else o in
        let o := jumpFrom start true ((i - 2) * boardSize + j) i j o in
        if j <? boardSize - 1 then
          let o := jumpFrom start true ((i - 2) * boardSize + j + 1) i j o in
          jumpFrom start (j <? boardSize - 2) ((i - 2) * boardSize + j + 2) i j o
        else o
      else o in
    let o :=
      if i >? 0 then
        let o := jumpFrom start (j >? 1) ((i - 1) * boardSize + j - 2) i j o in
        jumpFrom start (j <? boardSize - 2) ((i - 1) * boardSize + j + 2) i j o
      else o in
    let o := jumpFrom start (j >? 1) (i * boardSize + j - 2) i j o in
    let o := jumpFrom start (j <? boardSize - 2) (i * boardSize + j + 2) i j o in
    let o :=
      if i <? boardSize - 1 then
        let o := jumpFrom start (j >? 1) ((i + 1) * boardSize + j - 2) i j o in
        jumpFrom start (j <? boardSize - 2) ((i + 1) * boardSize + j + 2) i j o
      else o in
    if i <? boardSize - 2 then
      let o :=
        if j >? 0 then
          let o := jumpFrom start (j >? 1) ((i + 2) * boardSize + j - 2) i j o in
          jumpFrom start true ((i + 2) * boardSize + j - 1) i j o
        else o in
      let o := jumpFrom start true ((i + 2) * boardSize + j) i j o in
      if j <? boardSize - 1 then
        let o := jumpFrom start true ((i + 2) * boardSize + j + 1) i j o in
        jumpFrom start (j <? boardSize - 2) ((i + 2) * boardSize + j + 2) i j o
      else o
    else o.

(** [for(uint32_t k = 0; k != n; ++k)] *)
Definition upto (n : Z) : list Z := map Z.of_nat (seq 0 (Z.to_nat n)).

Definition generateStatuses (start : Status) : Out :=
  fold_left
    (fun o i => fold_left (fun o j => cellStatuses start i j o) (upto boardSize) o)
    (upto boardSize) (mkOut [] 0).

(** ** Search *)

(** The comparison handed to [std::sort]. *)
Definition pred (maximizing : bool) (lhs rhs : Status) : bool :=
  if maximizing then score lhs >? score rhs else score lhs <? score rhs.

(** The loop over the moves of one node, from index [i] on; [rec] is the
    recursive call one level down. Returns [newScore] and [newIndex]. *)
Fixpoint descend (rec : Status -> Z -> Z -> Z) (maximizing : bool)
    (moves : list Status) (i : nat) (alpha beta newScore : Z) (newIndex : nat)
    : Z * nat :=
  match moves with
  | [] => (newScore, newIndex)
  | m :: rest =>
      let r := rec m alpha beta in
      if maximizing then
        let '(newScore, newIndex) :=
          if r >? newScore then (r, i) else (newScore, newIndex) in
        let alpha := if r >? alpha then r else alpha in
        if beta <=? alpha then (newScore, newIndex)
        else descend rec maximizing rest (S i) alpha beta newScore newIndex
      else
        let '(newScore, newIndex) :=
          if r <? newScore then (r, i) else (newScore, newIndex) in
        let beta := if r <? beta then r else beta in
        if beta <=? alpha then (newScore, newIndex)
        else descend rec maximizing rest (S i) alpha beta newScore newIndex
  end.

(** [minimax<depth>(status, nextStatus, level, alpha, beta)]. The second
    component of the result is the status stored through [nextStatus] when
    that pointer is not null ([None]: nothing is stored). *)
Fixpoint minimax (sort : (Status -> Status -> bool) -> list Status -> list Status)
    (depth level : nat) (status : Status) (alpha beta : Z) : Z * option Status :=
  match level with
  | O => (score status, None)
  | S level' =>
      let moves := written (generateStatuses status) in
      let len := num (generateStatuses status) in
      if len =? 0 then (score status, Some (switchPlayerTurn status))
      else
        let maximizing := whiteMoves status in
        let moves := if negb (Nat.eqb level depth)
                     then sort (pred maximizing) moves else moves in
        let newScore := if maximizing then - (boardSize * boardSize)
                        else boardSize * boardSize in
        let '(newScore, newIndex) :=
          descend (fun m a b => fst (minimax sort depth level' m a b))
                  maximizing moves 0 alpha beta newScore 0 in
        (newScore, Some (nth newIndex moves status))
  end.

(** The call of [main]: [minimax<depth>(status, &newStatus)] with the default
    level, alpha and beta. *)
Definition search (sort : (Status -> Status -> bool) -> list Status -> list Status)
    (depth : nat) (status : Status) : Z * option Status :=
  minimax sort depth depth status (- (boardSize * boardSize)) (boardSize * boardSize).

(** The position seeded by [main]. *)
Definition initial : Status :=
  let status := Status0 in
  let status := set (0 * boardSize + 0) White status in
  let status := set (0 * boardSize + boardSize - 1) Black status in
  let status := set ((boardSize - 1) * boardSize + 0) Black status in
  set ((boardSize - 1) * boardSize + boardSize - 1) White status.

(** ** Notions of the specification *)

Definition idx (i j : Z) : Z := i * boardSize + j.

Definition onBoard (i j : Z) : Prop :=
  (0 <= i < boardSize) /\ (0 <= j < boardSize).

Definition chebyshev (i j i2 j2 : Z) : Z :=
  Z.max (Z.abs (i2 - i)) (Z.abs (j2 - j)).

(** All cells, row by row. *)
Definition cells : list (Z * Z) :=
  flat_map (fun i => map (pair i) (upto boardSize)) (upto boardSize).

(** The cells of the board at Chebyshev distance [d] from (i, j). *)
Definition around (d i j : Z) : list (Z * Z) :=
  filter (fun c => chebyshev i j (fst c) (snd c) =? d) cells.

Definition owned (s : Status) (c : Z * Z) : bool :=
  Entry_eqb (get s (idx (fst c) (snd c))) (movingPlayer s).

Definition opponent (e : Entry) : Entry :=
  match e with
  | White => Black
  | Black => White
  | _ => e
  end.

(** The two kinds of action: spawn at (i, j), or jump from (i2, j2) to
    (i, j). *)
Inductive Move : Type :=
| Spawn (i j : Z)
| Jump (i2 j2 i j : Z).

Definition legal (s : Status) (m : Move) : Prop :=
  match m with
  | Spawn i j =>
      onBoard i j /\ get s (idx i j) = Empty /\
      exists i2 j2, onBoard i2 j2 /\ chebyshev i j i2 j2 = 1 /\
                    get s (idx i2 j2) = movingPlayer s
  | Jump i2 j2 i j =>
      onBoard i j /\ get s (idx i j) = Empty /\
      onBoard i2 j2 /\ chebyshev i j i2 j2 = 2 /\
      get s (idx i2 j2) = movingPlayer s
  end.

Definition successor (s : Status) (m : Move) : Status :=
  match m with
  | Spawn i j => spawn i j s
  | Jump i2 j2 i j => spawn i j (set (idx i2 j2) Empty s)
  end.

(** The legal moves into one cell, then all of them, cell by cell. *)
Definition cellMoves (s : Status) (i j : Z) : list Move :=
  if Entry_eqb (get s (idx i j)) Empty then
    (if existsb (owned s) (around 1 i j) then [Spawn i j] else [])
    ++ map (fun c => Jump (fst c) (snd c) i j) (filter (owned s) (around 2 i j))
  else [].

Definition legalMoves (s : Status) : list Move :=
  flat_map (fun c => cellMoves s (fst c) (snd c)) cells.

(** The count invariant of a game state: the cached counts are the literal
    counts. *)
Definition counted (s : Status) : Prop :=
  whiteScore_ s = countEntries s White /\ blackScore_ s = countEntries s Black.

(** With no cell holding the unused bit pattern the counts and the empty
    cells add up to the size of the board. *)
Definition GameState (s : Status) : Prop :=
  counted s /\ countEntries s Unused3 = 0.

(** The states met in play and in search: successors written by the
    generator, and forced passes. *)
Inductive reachable : Status -> Prop :=
| reach_initial : reachable initial
| reach_move : forall s t,
    reachable s -> In t (written (generateStatuses s)) -> reachable t
| reach_pass : forall s,
    reachable s -> num (generateStatuses s) = 0 -> reachable (switchPlayerTurn s).

(** One edge of the search tree. *)
Inductive edge (s : Status) : Status -> Prop :=
| edge_move : forall t, In t (written (generateStatuses s)) -> edge s t
| edge_pass : num (generateStatuses s) = 0 -> edge s (switchPlayerTurn s).

Inductive path : Status -> nat -> Status -> Prop :=
| path_nil : forall s, path s 0 s
| path_step : forall s t u n, path s n t -> edge t u -> path s (S n) u.

(** Unpruned, unsorted minimax over the same tree: the value of a node
    without moves is its score. *)
Fixpoint exhaustive (level : nat) (s : Status) : Z :=
  match level with
  | O => score s
  | S level' =>
      match map (exhaustive level') (written (generateStatuses s)) with
      | [] => score s
      | v :: vs =>
          if whiteMoves s then fold_left Z.max vs v else fold_left Z.min vs v
      end
  end.

(** A sorting function, as an instance of the parameter of the search. *)
Fixpoint insert (lt : Status -> Status -> bool) (x : Status) (l : list Status)
    : list Status :=
  match l with
  | [] => [x]
  | y :: l' => if lt y x then y :: insert lt x l' else x :: l
  end.

Definition insertionSort (lt : Status -> Status -> bool) (l : list Status)
    : list Status :=
  fold_right (insert lt) [] l.

(** A position without legal move: one black piece, White to move. *)
Definition stuck : Status := set 0 Black Status0.

(** ** Auxiliary notions of the proofs *)

(** Indicator of equality of two entries. *)
Definition ind (a b : Entry) : Z := if Entry_eqb a b then 1 else 0.

Definition inRange (pos : Z) : Prop := 0 <= pos < boardSize * boardSize.

(** The first half of [spawn]: the blob is put, the mover's score
    incremented and the turn switched. *)
Definition put (i j : Z) (s : Status) : Status :=
  let cp := movingPlayer s in
  let wm := whiteMoves s in
  let s := setNoScoreAdjust (i * boardSize + j) cp s in
  let s := if wm
           then mkStatus (storages_ s) (whiteScore_ s + 1) (blackScore_ s)
           else mkStatus (storages_ s) (whiteScore_ s) (blackScore_ s + 1) in
  switchPlayerTurn s.

(** The positions inspected by the second half of [spawn], in its order. *)
Definition inspected (i j : Z) : list Z :=
  (if i >? 0 then
     (if j >? 0 then [(i - 1) * boardSize + j - 1] else [])
     ++ [(i - 1) * boardSize + j]
     ++ (if j <? boardSize - 1 then [(i - 1) * boardSize + j + 1] else [])
   else [])
  ++ (if j >? 0 then [i * boardSize + j - 1] else [])
  ++ (if j <? boardSize - 1 then [i * boardSize + j + 1] else [])
  ++ (if i <? boardSize - 1 then
        (if j >? 0 then [(i + 1) * boardSize + j - 1] else [])
        ++ [(i + 1) * boardSize + j]
        ++ (if j <? boardSize - 1 then [(i + 1) * boardSize + j + 1] else [])
      else []).

(** Captures at a list of positions, one after the other. *)
Definition captures (np cp : Entry) (ps : list Z) (s : Status) : Status :=
  fold_left (fun s pos => capture true pos np cp s) ps s.

Definition cidx (c : Z * Z) : Z := idx (fst c) (snd c).

(** Number of the given cells holding [e]. *)
Definition holding (s : Status) (e : Entry) (cs : list (Z * Z)) : Z :=
  Z.of_nat (length (filter (fun c => Entry_eqb (get s (cidx c)) e) cs)).

Fixpoint eqbZs (l l' : list Z) : bool :=
  match l, l' with
  | [], [] => true
  | x :: l, y :: l' => (x =? y) && eqbZs l l'
  | _, _ => false
  end.

(** Writing a list of statuses, one after the other. *)
Definition writeAll (l : list Status) (o : Out) : Out :=
  mkOut (written o ++ l) (num o + Z.of_nat (length l)).

(** The source positions of the jump blocks of [generateStatuses] whose
    guards hold, in the order of the blocks. *)
Definition sources (i j : Z) : list Z :=
  (if i >? 1 then
     (if j >? 0 then
        (if j >? 1 then [(i - 2) * boardSize + j - 2] else [])
        ++ [(i - 2) * boardSize + j - 1]
      else [])
     ++ [(i - 2) * boardSize + j]
     ++ (if j <? boardSize - 1 then
           [(i - 2) * boardSize + j + 1]
           ++ (if j <? boardSize - 2 then [(i - 2) * boardSize + j + 2] else [])
         else [])
   else [])
  ++ (if i >? 0 then
        (if j >? 1 then [(i - 1) * boardSize + j - 2] else [])
        ++ (if j <? boardSize - 2 then [(i - 1) * boardSize + j + 2] else [])
      else [])
  ++ (if j >? 1 then [i * boardSize + j - 2] else [])
  ++ (if j <? boardSize - 2 then [i * boardSize + j + 2] else [])
  ++ (if i <? boardSize - 1 then
        (if j >? 1 then [(i + 1) * boardSize + j - 2] else [])
        ++ (if j <? boardSize - 2 then [(i + 1) * boardSize + j + 2] else [])
      else [])
  ++ (if i <? boardSize - 2 then
        (if j >? 0 then
           (if j >? 1 then [(i + 2) * boardSize + j - 2] else [])
           ++ [(i + 2) * boardSize + j - 1]
         else [])
        ++ [(i + 2) * boardSize + j]
        ++ (if j <? boardSize - 1 then
              [(i + 2) * boardSize + j + 1]
              ++ (if j <? boardSize - 2 then [(i + 2) * boardSize + j + 2] else [])
            else [])
      else []).

Definition own (s : Status) (pos : Z) : bool :=
  Entry_eqb (get s pos) (movingPlayer s).

(** What the loop body of [generateStatuses] writes for the cell (i, j). *)
Definition cellWritten (start : Status) (i j : Z) : list Status :=
  if negb (Entry_eqb (get start (i * boardSize + j)) Empty) then []
  else
    (if canSpawn start i j then [spawn i j start] else [])
    ++ map (fun src => spawn i j (set src Empty start))
           (filter (own start) (sources i j)).

(** The destination of a move. *)
Definition dest (m : Move) : Z * Z :=
  match m with
  | Spawn i j => (i, j)
  | Jump _ _ i j => (i, j)
  end.

(** What a pruned result [r] tells about the exact value [v] of a node
    searched with the window (a, b): an upper bound below [b], a lower bound
    above [a], hence the value itself inside the window. *)
Definition bounds (r v a b : Z) : Prop :=
  (r < b -> v <= r) /\ (a < r -> r <= v).

(** The moves searched at a node: sorted at every level but the first. *)
Definition ordered (sort : (Status -> Status -> bool) -> list Status -> list Status)
    (depth level : nat) (s : Status) : list Status :=
  if negb (Nat.eqb level depth)
  then sort (pred (whiteMoves s)) (written (generateStatuses s))
  else written (generateStatuses s).

(** ** Comparison, move notation and the validation of typed moves *)

(** [storages_ == storages_] of two arrays. *)
Definition Storages_eqb (a b : Storages) : bool :=
  (word0 a =? word0 b) && (word1 a =? word1 b).

(** [operator==]: the storages alone are compared. The debug build first
    asserts that equal storages come with equal scores; [None] stands for a
    failed assertion. *)
Definition Status_eqb (lhs rhs : Status) : option bool :=
  if negb (Storages_eqb (storages_ lhs) (storages_ rhs))
     || ((whiteScore_ lhs =? whiteScore_ rhs) && (blackScore_ lhs =? blackScore_ rhs))
  then Some (Storages_eqb (storages_ lhs) (storages_ rhs))
  else None.

(** [static_cast<uint32_t>(-1)] *)
Definition none32 : Z := 2 ^ 32 - 1.

(** [static_cast<char>(z)] of a non-negative value. *)
Definition charOf (z : Z) : Ascii.ascii := Ascii.ascii_of_N (Z.to_N (z mod 256)).

(** [indexString]; [None] when [assert(index < boardSize * boardSize)]
    fails. *)
Definition indexString (index : Z) : option String.string :=
  if index <? boardSize * boardSize then
    let row := index / boardSize in
    let col := index mod boardSize in
    Some (String.String (charOf (col + 65))
            (String.String (charOf (row + 48)) String.EmptyString))
  else None.

(** The loop of [moveString]: the last field that became empty and the
    last field that became non-empty. *)
Definition changed (first second : Status) : Z * Z :=
  fold_left
    (fun (acc : Z * Z) i =>
       let fromJump :=
         if Entry_eqb (get second i) Empty && negb (Entry_eqb (get first i) Empty)
         then i else fst acc in
       let newBlob :=
         if Entry_eqb (get first i) Empty && negb (Entry_eqb (get second i) Empty)
         then i else snd acc in
       (fromJump, newBlob))
    (upto (boardSize * boardSize)) (none32, none32).

(** [moveString]; [None] when one of its assertions, or one of
    [indexString], fails. *)
Definition moveString (first second : Status) : option String.string :=
  if Bool.eqb (whiteMoves first) (whiteMoves second) then None
  else
    let fromJump := fst (changed first second) in
    let newBlob := snd (changed first second) in
    if newBlob =? none32 then None
    else
      let source :=
        if negb (fromJump =? none32) then indexString fromJump
        else Some String.EmptyString in
      match source, indexString newBlob with
      | Some a, Some b => Some (String.append a b)
      | _, _ => None
      end.

(** [parseCoordinate] of [getHumanInput]: the column letter and the row
    digits matched by the regular expressions. [stoi] is [std::stoi], [None]
    when it throws. *)
Definition parseCoordinate (stoi : String.string -> option Z)
    (s0 : Ascii.ascii) (s1 : String.string) : Z :=
  let c := Z.of_N (Ascii.N_of_ascii s0) in
  let col := if (97 <=? c) && (c <=? 122) then c - 97 else c - 65 in
  if negb ((0 <=? col) && (col <? boardSize)) then none32
  else
    match stoi s1 with
    | None => none32
    | Some row =>
        if negb ((0 <=? row) && (row <? boardSize)) then none32
        else row * boardSize + col
    end.

(** [std::find(possibleMoves.cbegin(), possibleMoves.cbegin() + numMoves,
    newStatus) != possibleMoves.cbegin() + numMoves] *)
Definition found (possibleMoves : list Status) (newStatus : Status) : bool :=
  existsb (fun m => Storages_eqb (storages_ m) (storages_ newStatus)) possibleMoves.

(** The spawn branch of [getHumanInput] for a parsed coordinate:
    the new status when the move is accepted, [None] for "Illegal move!". *)
Definition humanSpawn (status : Status) (newBlob : Z) : option Status :=
  let possibleMoves := written (generateStatuses status) in
  let newStatus := spawn (newBlob / boardSize) (newBlob mod boardSize) status in
  if found possibleMoves newStatus then Some newStatus else None.

(** The jump branch of [getHumanInput]. *)
Definition humanJump (status : Status) (oldBlob newBlob : Z) : option Status :=
  let possibleMoves := written (generateStatuses status) in
  let newStatus := set oldBlob Empty status in
  let newStatus := spawn (newBlob / boardSize) (newBlob mod boardSize) newStatus in
  if found possibleMoves newStatus then Some newStatus else None.

(** [std::stoi] in base 10, as the standard library reads a string: leading
    white space is skipped, one sign is accepted, the longest run of digits is
    read and what follows is ignored; [None] when it throws, for want of a
    digit or for a value outside [int]. *)
Definition isspace (c : Ascii.ascii) : bool :=
  let z := Z.of_N (Ascii.N_of_ascii c) in
  (z =? 32) || ((9 <=? z) && (z <=? 13)).

Fixpoint skipSpace (s : String.string) : String.string :=
  match s with
  | String.String c rest => if isspace c then skipSpace rest else s
  | String.EmptyString => s
  end.

Fixpoint readDigits (s : String.string) (acc : option Z) : option Z :=
  match s with
  | String.String c rest =>
      let d := Z.of_N (Ascii.N_of_ascii c) - 48 in
      if (0 <=? d) && (d <=? 9)
      then readDigits rest (Some (match acc with Some v => v * 10 + d | None => d end))
      else acc
  | String.EmptyString => acc
  end.

Definition std_stoi (s : String.string) : option Z :=
  let s := skipSpace s in
  let '(negative, s) :=
    match s with
    | String.String c rest =>
        let z := Z.of_N (Ascii.N_of_ascii c) in
        if z =? 45 then (true, rest)
        else if z =? 43 then (false, rest)
        else (false, s)
    | String.EmptyString => (false, s)
    end in
  match readDigits s None with
  | Some v =>
      let v := if negative then - v else v in
      if (- 2 ^ 31 <=? v) && (v <=? 2 ^ 31 - 1) then Some v else None
  | None => None
  end.

(** Storage words as the operations leave them: 64 bits each, and no bit
    set between the last field and the turn bit. *)
Definition tidy (s : Status) : Prop :=
  (0 <= word0 (storages_ s) < 2 ^ bitsPerStorage)
  /\ (0 <= word1 (storages_ s) < 2 ^ bitsPerStorage)
  /\ (forall n, bitsNeeded - 1 - bitsPerStorage <= n < bitsPerStorage - 1 ->
        Z.testbit (word1 (storages_ s)) n = false).

(** The letter and the digit of a cell. *)
Definition cellName (i j : Z) : String.string :=
  String.String (charOf (j + 65)) (String.String (charOf (i + 48)) String.EmptyString).

Definition notation (m : Move) : String.string :=
  match m with
  | Spawn i j => cellName i j
  | Jump i2 j2 i j => String.append (cellName i2 j2) (cellName i j)
  end.

Definition isJump (m : Move) : bool :=
  match m with
  | Spawn _ _ => false
  | Jump _ _ _ _ => true
  end.

(** ** Rendering *)

Import String.StringSyntax Ascii.AsciiSyntax.
Delimit Scope string_scope with string.
Delimit Scope char_scope with char.

(** [ss << score(); ss.str()]: the decimal notation of an [int]. *)
Definition decimal (z : Z) : String.string :=
  DecimalString.NilZero.string_of_int (Z.to_int z).

(** [r += c] *)
Definition push (r : String.string) (c : Ascii.ascii) : String.string :=
  String.append r (String.String c String.EmptyString).

(** [to_string(empty, white, black)] *)
Definition to_string (empty white black : Ascii.ascii) (s : Status) : String.string :=
  let r := String.EmptyString in
  let r := String.append r "  | "%string in
  let '(r, col) :=
    fold_left (fun (acc : String.string * Z) (_ : Z) =>
                 let '(r, col) := acc in
                 (push (push r (charOf col)) " "%char, col + 1))
              (upto boardSize) (r, 65) in
  let r := push r (charOf 10) in
  let r := String.append r "--+-"%string in
  let r := fold_left (fun r (_ : Z) => String.append r "--"%string) (upto boardSize) r in
  let r := push r (charOf 10) in
  let '(r, row) :=
    fold_left (fun (acc : String.string * Z) (i : Z) =>
                 let '(r, row) := acc in
                 let r := push r (charOf row) in
                 let row := row + 1 in
                 let r := String.append r " | "%string in
                 let r :=
                   fold_left (fun r (j : Z) =>
                                let v := get s (i * boardSize + j) in
                                let r := push r (if Entry_eqb v Empty then empty
                                                 else if Entry_eqb v White then white
                                                 else black) in
                                push r " "%char)
                             (upto boardSize) r in
                 (push r (charOf 10), row))
              (upto boardSize) (r, 48) in
  let r := String.append r "--+-"%string in
  let r := fold_left (fun r (_ : Z) => String.append r "--"%string) (upto boardSize) r in
  let r := push r (charOf 10) in
  let r := String.append r "  | Score: "%string in
  let r := String.append r (decimal (score s)) in
  push r (charOf 10).


(** The character shown for an entry. *)
Definition symbol (empty white black : Ascii.ascii) (v : Entry) : Ascii.ascii :=
  if Entry_eqb v Empty then empty else if Entry_eqb v White then white else black.

(** A white blob in the corner shut in by black blobs, White to move. *)
Definition blocked : Status :=
  fold_left (fun s pos => set pos Black s) [1; 2; 7; 8; 9; 14; 15; 16]
            (set 0 White Status0).

(** ** The game loop of [main] *)

Definition WHITEDEPTH : nat := 5.
Definition BLACKDEPTH : nat := 3.

(** The test that ends the game,
    [std::abs(status.score()) >= boardSize * boardSize]. *)
Definition finished (status : Status) : bool :=
  Z.abs (score status) >=? boardSize * boardSize.

(** The block of a computer player: a default-constructed [newStatus], the
    search writing into it, the move printed with [moveString]; [None] when
    [moveString] fails an assertion. *)
Definition computerMove (sort : (Status -> Status -> bool) -> list Status -> list Status)
    (depth : nat) (status : Status) : option (String.string * Status) :=
  let newStatus := Status0 in
  let newStatus :=
    match snd (search sort depth status) with
    | Some t => t
    | None => newStatus
    end in
  match moveString status newStatus with
  | Some m => Some (m, newStatus)
  | None => None
  end.

(** What [main] writes to [std::cout]: a board ([status.to_string()]), the
    header of a round with its number, the line of a move. *)
Inductive Event :=
| Board (status : Status)
| Header (moveNum : Z)
| Prompt (move : String.string).

(** How a run ends: [main] returns, an assertion fails, or the fuel given to
    the loop is used up. *)
Inductive Exit := Returned | Aborted | Running.

(** The [for(;;)] of [main] with both players played by the computer; every
    unit of fuel pays for one round. *)
Fixpoint rounds (sort : (Status -> Status -> bool) -> list Status -> list Status)
    (fuel : nat) (status : Status) (moveNum : Z) : list Event * Exit :=
  match fuel with
  | O => ([], Running)
  | S fuel =>
      if finished status then ([], Returned)
      else
        match computerMove sort WHITEDEPTH status with
        | None => ([Header moveNum], Aborted)
        | Some (m, status) =>
            if finished status
            then ([Header moveNum; Prompt m; Board status], Returned)
            else
              match computerMove sort BLACKDEPTH status with
              | None => ([Header moveNum; Prompt m; Board status], Aborted)
              | Some (m', status') =>
                  let '(out, exit) := rounds sort fuel status' (moveNum + 1) in
                  (Header moveNum :: Prompt m :: Board status
                     :: Prompt m' :: Board status' :: out, exit)
              end
        end
  end.

Definition main (sort : (Status -> Status -> bool) -> list Status -> list Status)
    (fuel : nat) : list Event * Exit :=
  let status := initial in
  let '(out, exit) := rounds sort fuel status 0 in
  (Board status :: out, exit).

(** The output of a game played from a status: at the header of a round
    White is to move; every line of a move is the notation of a legal move
    of the status before it and is followed by the board of its successor. *)
Inductive played : Status -> list Event -> Status -> Prop :=
| played_nil : forall s, played s [] s
| played_header : forall s n l t,
    whiteMoves s = true -> played s l t -> played s (Header n :: l) t
| played_move : forall s m l t,
    legal s m -> played (successor s m) l t ->
    played s (Prompt (notation m) :: Board (successor s m) :: l) t.

(** ** The calls of the search *)

(** [descend] and [minimax] with a log added: besides their results they
    return the level and the status of every call of [minimax], in the order
    of the calls. The log is a ghost: the results do not depend on it. *)
Fixpoint descendLog (rec : Status -> Z -> Z -> Z * list (nat * Status))
    (maximizing : bool) (moves : list Status) (i : nat)
    (alpha beta newScore : Z) (newIndex : nat)
    : (Z * nat) * list (nat * Status) :=
  match moves with
  | [] => ((newScore, newIndex), [])
  | m :: rest =>
      let '(r, log) := rec m alpha beta in
      if maximizing then
        let '(newScore, newIndex) :=
          if r >? newScore then (r, i) else (newScore, newIndex) in
        let alpha := if r >? alpha then r else alpha in
        if beta <=? alpha then ((newScore, newIndex), log)
        else
          let '(found, log') :=
            descendLog rec maximizing rest (S i) alpha beta newScore newIndex in
          (found, log ++ log')
      else
        let '(newScore, newIndex) :=
          if r <? newScore then (r, i) else (newScore, newIndex) in
        let beta := if r <? beta then r else beta in
        if beta <=? alpha then ((newScore, newIndex), log)
        else
          let '(found, log') :=
            descendLog rec maximizing rest (S i) alpha beta newScore newIndex in
          (found, log ++ log')
  end.

Fixpoint minimaxLog (sort : (Status -> Status -> bool) -> list Status -> list Status)
    (depth level : nat) (status : Status) (alpha beta : Z)
    : (Z * option Status) * list (nat * Status) :=
  match level with
  | O => ((score status, None), [(level, status)])
  | S level' =>
      let moves := written (generateStatuses status) in
      let len := num (generateStatuses status) in
      if len =? 0
      then ((score status, Some (switchPlayerTurn status)), [(level, status)])
      else
        let maximizing := whiteMoves status in
        let moves := if negb (Nat.eqb level depth)
                     then sort (pred maximizing) moves else moves in
        let newScore := if maximizing then - (boardSize * boardSize)
                        else boardSize * boardSize in
        let '((newScore, newIndex), log) :=
          descendLog (fun m a b =>
                        let '(r, log) := minimaxLog sort depth level' m a b in
                        (fst r, log))
                     maximizing moves 0 alpha beta newScore 0 in
        ((newScore, Some (nth newIndex moves status)), (level, status) :: log)
  end.

(** * Properties

    ** Bit fields of a storage word *)

Lemma testbit_3 n : 0 <= n -> Z.testbit 3 n = (n <? 2).
Proof.
  intros Hn.
  destruct (Z.eq_dec n 0) as [->|]; [reflexivity|].
  destruct (Z.eq_dec n 1) as [->|]; [reflexivity|].
  replace (n <? 2) with false by (symmetry; apply Z.ltb_ge; lia).
  apply (Z.bits_above_log2 3 n); [lia | simpl; lia].
Qed.

(** The two-bit field of a word at bit offset [r]. *)
Lemma field_bits x r n :
  0 <= r -> 0 <= n ->
  Z.testbit (Z.shiftr (Z.land x (Z.shiftl 3 r)) r) n = (n <? 2) && Z.testbit x (n + r).
Proof.
  intros Hr Hn.
  rewrite Z.shiftr_spec, Z.land_spec, Z.shiftl_spec by lia.
  replace (n + r - r) with n by lia.
  rewrite testbit_3 by lia. apply andb_comm.
Qed.

Lemma field_ext x y r :
  0 <= r ->
  Z.testbit x r = Z.testbit y r ->
  Z.testbit x (r + 1) = Z.testbit y (r + 1) ->
  Z.shiftr (Z.land x (Z.shiftl 3 r)) r = Z.shiftr (Z.land y (Z.shiftl 3 r)) r.
Proof.
  intros Hr H0 H1. apply Z.bits_inj'. intros n Hn.
  rewrite !field_bits by lia.
  destruct (Z.ltb_spec n 2); [|reflexivity]. simpl.
  assert (n = 0 \/ n = 1) as [-> | ->] by lia.
  - exact H0.
  - rewrite Z.add_comm. exact H1.
Qed.

Lemma field_small v r :
  0 <= r -> 0 <= v < 4 ->
  Z.shiftr (Z.land (Z.shiftl v r) (Z.shiftl 3 r)) r = v.
Proof.
  intros Hr Hv. apply Z.bits_inj'. intros n Hn.
  rewrite field_bits, Z.shiftl_spec by lia.
  replace (n + r - r) with n by lia.
  destruct (Z.ltb_spec n 2); [reflexivity|]. simpl.
  symmetry. destruct (Z.eq_dec v 0) as [->|]; [apply Z.bits_0|].
  apply Z.bits_above_log2; [lia|].
  assert (Z.log2 v < 2); [|lia]. apply Z.log2_lt_pow2; simpl; lia.
Qed.

Lemma not64_bits x n :
  0 <= n < bitsPerStorage -> Z.testbit (not64 x) n = negb (Z.testbit x n).
Proof.
  intros Hn. unfold not64. rewrite Z.lxor_spec.
  rewrite Z.ones_spec_low by (unfold bitsPerStorage in *; lia).
  apply xorb_true_r.
Qed.


Lemma shiftl_bits v r n :
  0 <= r -> 0 <= n ->
  Z.testbit (Z.shiftl v r) n = (r <=? n) && Z.testbit v (n - r).
Proof.
  intros Hr Hn. rewrite Z.shiftl_spec by lia.
  destruct (Z.leb_spec r n); [reflexivity|].
  apply Z.testbit_neg_r. lia.
Qed.

Lemma small_bits v n : 0 <= v < 4 -> 2 <= n -> Z.testbit v n = false.
Proof.
  intros Hv Hn. destruct (Z.eq_dec v 0) as [->|]; [apply Z.bits_0|].
  apply Z.bits_above_log2; [lia|].
  assert (Z.log2 v < 2); [|lia]. apply Z.log2_lt_pow2; simpl; lia.
Qed.

(** Bits of a word outside the field written at offset [r]. *)
Lemma update_bits_outside x r v n :
  0 <= r -> 0 <= v < 4 -> 0 <= n < bitsPerStorage -> n < r \/ r + 2 <= n ->
  Z.testbit (Z.lor (Z.land x (not64 (Z.shiftl 3 r))) (Z.shiftl v r)) n = Z.testbit x n.
Proof.
  intros Hr Hv Hn Hout.
  rewrite Z.lor_spec, Z.land_spec, not64_bits, !shiftl_bits by lia.
  destruct (Z.leb_spec r n); simpl.
  - rewrite testbit_3, (small_bits v) by lia.
    replace (n - r <? 2) with false by (symmetry; apply Z.ltb_ge; lia).
    simpl. rewrite andb_true_r, orb_false_r. reflexivity.
  - rewrite andb_true_r, orb_false_r. reflexivity.
Qed.

Lemma update_bits_inside x r v n :
  0 <= r -> r + 2 <= bitsPerStorage -> r <= n < r + 2 ->
  Z.testbit (Z.lor (Z.land x (not64 (Z.shiftl 3 r))) (Z.shiftl v r)) n =
  Z.testbit (Z.shiftl v r) n.
Proof.
  intros Hr Hr2 Hn.
  rewrite Z.lor_spec, Z.land_spec, not64_bits by lia.
  rewrite (shiftl_bits 3), testbit_3 by lia.
  replace (r <=? n) with true by (symmetry; apply Z.leb_le; lia).
  replace (n - r <? 2) with true by (symmetry; apply Z.ltb_lt; lia).
  simpl. rewrite andb_false_r. reflexivity.
Qed.

Lemma Entry_of_Z_of_Entry e : Entry_of_Z (Z_of_Entry e) = e.
Proof. destruct e; reflexivity. Qed.

Lemma Z_of_Entry_range e : 0 <= Z_of_Entry e < 4.
Proof. destruct e; simpl; lia. Qed.

Lemma Entry_eqb_eq a b : Entry_eqb a b = true <-> a = b.
Proof. destruct a, b; simpl; split; congruence. Qed.

Lemma Entry_eqb_refl a : Entry_eqb a a = true.
Proof. destruct a; reflexivity. Qed.

Lemma Entry_eqb_neq a b : Entry_eqb a b = false <-> a <> b.
Proof. destruct a, b; simpl; split; congruence. Qed.

(** Where a position lives: storage index and bit offset. *)
Lemma locate pos :
  0 <= pos < boardSize * boardSize ->
  let index := pos * 2 / bitsPerStorage in
  let relPos := pos * 2 - index * bitsPerStorage in
  (index = 0 \/ index = 1) /\ 0 <= relPos /\ relPos + 2 <= bitsPerStorage /\
  (index = 1 -> relPos + 2 < bitsPerStorage - 1) /\
  pos * 2 = index * bitsPerStorage + relPos.
Proof.
  unfold boardSize, bitsPerStorage. intros Hp. cbv zeta.
  change (8 * 8) with 64. Z.div_mod_to_equations. lia.
Qed.

Lemma rd_wr a i x i' :
  i = 0 \/ i = 1 -> rd (wr a i x) i' = if i =? i' then x else rd a i'.
Proof.
  intros [-> | ->]; destruct a as [w0 w1];
    destruct i' as [|[p|p|]|p]; reflexivity.
Qed.

Lemma get_setNoScoreAdjust_same pos v s :
  0 <= pos < boardSize * boardSize -> get (setNoScoreAdjust pos v s) pos = v.
Proof.
  intros Hp. destruct (locate pos Hp) as (Hi & Hr & Hr2 & _ & _).
  unfold get, setNoScoreAdjust. cbv zeta. cbn [storages_].
  rewrite rd_wr, Z.eqb_refl by exact Hi.
  rewrite <- (Entry_of_Z_of_Entry v) at 2. f_equal.
  etransitivity; [|exact (field_small (Z_of_Entry v) _ Hr (Z_of_Entry_range v))].
  apply field_ext; [exact Hr | |]; apply update_bits_inside; lia.
Qed.

Lemma get_setNoScoreAdjust_other pos v s q :
  0 <= pos < boardSize * boardSize -> 0 <= q < boardSize * boardSize -> pos <> q ->
  get (setNoScoreAdjust pos v s) q = get s q.
Proof.
  intros Hp Hq Hne.
  destruct (locate pos Hp) as (Hi & Hr & Hr2 & _ & He).
  destruct (locate q Hq) as (Hi' & Hr' & Hr2' & _ & He').
  unfold get, setNoScoreAdjust. cbv zeta. cbn [storages_].
  rewrite rd_wr by exact Hi.
  destruct (Z.eqb_spec (pos * 2 / bitsPerStorage) (q * 2 / bitsPerStorage)) as [Heq|];
    [|reflexivity].
  f_equal. rewrite <- Heq in *.
  apply field_ext; [lia | |];
    apply update_bits_outside; try lia; try apply Z_of_Entry_range;
    unfold bitsPerStorage in *; lia.
Qed.

Lemma turn_test w : (Z.land w turnBit =? 0) = negb (Z.testbit w (bitsPerStorage - 1)).
Proof.
  unfold turnBit. set (k := bitsPerStorage - 1).
  assert (Hk : 0 <= k) by (unfold k, bitsPerStorage; lia).
  destruct (Z.testbit w k) eqn:Hb; cbn [negb].
  - apply Z.eqb_neq. intros H0.
    assert (Z.testbit (Z.land w (Z.shiftl 1 k)) k = true).
    { rewrite Z.land_spec, Hb, shiftl_bits, Z.leb_refl, Z.sub_diag by lia. reflexivity. }
    rewrite H0, Z.bits_0 in H. discriminate.
  - apply Z.eqb_eq. apply Z.bits_inj'. intros n Hn.
    rewrite Z.land_spec, Z.bits_0, shiftl_bits by lia.
    destruct (Z.eq_dec n k) as [->|Hne]; [rewrite Hb; reflexivity|].
    destruct (Z.leb_spec k n); cbn [andb]; [|apply andb_false_r].
    replace (Z.testbit 1 (n - k)) with false; [apply andb_false_r|].
    symmetry. apply (Z.bits_above_log2 1); simpl; lia.
Qed.

(** Two storage words hold the 99 bits; the turn bit is the top bit of the
    second. *)
Lemma last_index : storagesNeeded - 1 = 1.
Proof. reflexivity. Qed.

Lemma whiteMoves_setNoScoreAdjust pos v s :
  0 <= pos < boardSize * boardSize ->
  whiteMoves (setNoScoreAdjust pos v s) = whiteMoves s.
Proof.
  intros Hp. destruct (locate pos Hp) as (Hi & Hr & Hr2 & Hhi & _).
  unfold whiteMoves, setNoScoreAdjust. cbv zeta. cbn [storages_].
  rewrite last_index, rd_wr by exact Hi.
  destruct (Z.eqb_spec (pos * 2 / bitsPerStorage) 1) as [Heq|]; [|reflexivity].
  rewrite !turn_test. f_equal. rewrite Heq.
  apply update_bits_outside; try apply Z_of_Entry_range;
    unfold bitsPerStorage in *; lia.
Qed.

Lemma whiteMoves_switchPlayerTurn s :
  whiteMoves (switchPlayerTurn s) = negb (whiteMoves s).
Proof.
  unfold whiteMoves, switchPlayerTurn. cbv zeta. cbn [storages_].
  rewrite last_index, rd_wr, Z.eqb_refl, !turn_test by (right; reflexivity).
  rewrite Z.lxor_spec. unfold turnBit.
  rewrite shiftl_bits, Z.leb_refl, Z.sub_diag by (unfold bitsPerStorage; lia).
  destruct (Z.testbit _ _); reflexivity.
Qed.

Lemma get_switchPlayerTurn s pos :
  0 <= pos < boardSize * boardSize -> get (switchPlayerTurn s) pos = get s pos.
Proof.
  intros Hp. destruct (locate pos Hp) as (Hi & Hr & Hr2 & Hhi & _).
  unfold get, switchPlayerTurn. cbv zeta. cbn [storages_].
  rewrite last_index, rd_wr by (right; reflexivity).
  destruct (Z.eqb_spec 1 (pos * 2 / bitsPerStorage)) as [Heq|]; [|reflexivity].
  f_equal. rewrite <- Heq in *. specialize (Hhi eq_refl).
  assert (Hx : forall n, 0 <= n < bitsPerStorage - 1 ->
            Z.testbit (Z.lxor (rd (storages_ s) 1) turnBit) n = Z.testbit (rd (storages_ s) 1) n).
  { intros n Hn. rewrite Z.lxor_spec. unfold turnBit.
    rewrite shiftl_bits by (unfold bitsPerStorage in *; lia).
    replace (bitsPerStorage - 1 <=? n) with false by (symmetry; apply Z.leb_gt; lia).
    apply xorb_false_r. }
  apply field_ext; [lia | |]; apply Hx; lia.
Qed.

(** ** Cells and counts under [set] *)

Lemma get_counts s w b pos : get (mkStatus (storages_ s) w b) pos = get s pos.
Proof. reflexivity. Qed.

Lemma whiteMoves_counts s w b : whiteMoves (mkStatus (storages_ s) w b) = whiteMoves s.
Proof. reflexivity. Qed.

Lemma setNoScoreAdjust_counts pos v s w b :
  setNoScoreAdjust pos v (mkStatus (storages_ s) w b) =
  mkStatus (storages_ (setNoScoreAdjust pos v s)) w b.
Proof. reflexivity. Qed.

Lemma get_setNoScoreAdjust pos v s q :
  inRange pos -> inRange q ->
  get (setNoScoreAdjust pos v s) q = if pos =? q then v else get s q.
Proof.
  intros Hp Hq. destruct (Z.eqb_spec pos q) as [<- | Hne].
  - apply get_setNoScoreAdjust_same; exact Hp.
  - apply get_setNoScoreAdjust_other; assumption.
Qed.

(** [set] leaves the status alone or rewrites the cell and both counts. *)
Lemma set_unfold pos v s :
  set pos v s = s /\ get s pos = v \/
  set pos v s =
    mkStatus (storages_ (setNoScoreAdjust pos v s))
             (whiteScore_ s - ind (get s pos) White + ind v White)
             (blackScore_ s - ind (get s pos) Black + ind v Black) /\
  get s pos <> v.
Proof.
  unfold set. destruct (Entry_eqb (get s pos) v) eqn:E.
  - left. split; [reflexivity | apply Entry_eqb_eq; exact E].
  - right. split; [| apply Entry_eqb_neq; exact E].
    destruct (get s pos), v; try discriminate E; cbn [ind Entry_eqb];
      rewrite ?setNoScoreAdjust_counts; cbn [whiteScore_ blackScore_ storages_];
      unfold setNoScoreAdjust; cbn [whiteScore_ blackScore_ storages_];
      f_equal; lia.
Qed.

Lemma get_set pos v s q :
  inRange pos -> inRange q ->
  get (set pos v s) q = if pos =? q then v else get s q.
Proof.
  intros Hp Hq. destruct (set_unfold pos v s) as [[-> Hv] | [-> _]].
  - destruct (Z.eqb_spec pos q) as [<- |]; [exact Hv | reflexivity].
  - rewrite get_counts. apply get_setNoScoreAdjust; assumption.
Qed.

Lemma whiteMoves_set pos v s :
  inRange pos -> whiteMoves (set pos v s) = whiteMoves s.
Proof.
  intros Hp. destruct (set_unfold pos v s) as [[-> _] | [-> _]]; [reflexivity|].
  rewrite whiteMoves_counts. apply whiteMoves_setNoScoreAdjust; exact Hp.
Qed.

Lemma whiteScore_set pos v s :
  whiteScore_ (set pos v s) = whiteScore_ s - ind (get s pos) White + ind v White.
Proof.
  destruct (set_unfold pos v s) as [[-> Hv] | [-> _]]; [rewrite Hv; lia | reflexivity].
Qed.

Lemma blackScore_set pos v s :
  blackScore_ (set pos v s) = blackScore_ s - ind (get s pos) Black + ind v Black.
Proof.
  destruct (set_unfold pos v s) as [[-> Hv] | [-> _]]; [rewrite Hv; lia | reflexivity].
Qed.

(** ** Counting entries *)

Lemma In_upto n k : In k (upto n) <-> 0 <= k < n.
Proof.
  unfold upto. rewrite in_map_iff. split.
  - intros (x & <- & Hx). apply in_seq in Hx. lia.
  - intros Hk. exists (Z.to_nat k). split; [lia | apply in_seq; lia].
Qed.

Lemma NoDup_upto n : NoDup (upto n).
Proof.
  unfold upto. apply Finite.Injective_map_NoDup; [| apply seq_NoDup].
  intros x y. apply Nat2Z.inj.
Qed.

Lemma In_positions pos : In pos positions <-> inRange pos.
Proof. apply (In_upto (boardSize * boardSize)). Qed.

Lemma NoDup_positions : NoDup positions.
Proof. apply (NoDup_upto (boardSize * boardSize)). Qed.

(** Two predicates that differ at one point of a duplicate-free list. *)
Lemma filter_length_update (f f' : Z -> bool) (p : Z) (l : list Z) :
  NoDup l ->
  (forall q, In q l -> q <> p -> f' q = f q) ->
  Z.of_nat (length (filter f' l)) =
  Z.of_nat (length (filter f l))
  + (if existsb (Z.eqb p) l then Z.b2z (f' p) - Z.b2z (f p) else 0).
Proof.
  induction 1 as [| x l Hx Hnd IH]; intros Hf; [reflexivity|].
  cbn [filter existsb].
  assert (IH' := IH (fun q Hq => Hf q (or_intror Hq))). clear IH.
  destruct (Z.eqb_spec p x) as [<- | Hne]; cbn [orb].
  - assert (existsb (Z.eqb p) l = false) as E.
    { destruct (existsb (Z.eqb p) l) eqn:E; [|reflexivity].
      apply existsb_exists in E. destruct E as (y & Hy & Hpy).
      apply Z.eqb_eq in Hpy. subst y. contradiction. }
    rewrite E in IH'.
    destruct (f' p), (f p); cbn [length Z.b2z]; lia.
  - rewrite (Hf x (or_introl eq_refl)) by congruence.
    destruct (f x); cbn [length]; lia.
Qed.

Lemma countEntries_update s s' p v e :
  inRange p ->
  (forall q, inRange q -> get s' q = if p =? q then v else get s q) ->
  countEntries s' e = countEntries s e - ind (get s p) e + ind v e.
Proof.
  intros Hp Hget. unfold countEntries.
  rewrite (filter_length_update (fun pos => Entry_eqb (get s pos) e) _ p _ NoDup_positions).
  - assert (existsb (Z.eqb p) positions = true) as ->.
    { apply existsb_exists. exists p. split; [apply In_positions; exact Hp | apply Z.eqb_refl]. }
    rewrite (Hget p Hp), Z.eqb_refl. unfold ind.
    destruct (Entry_eqb v e), (Entry_eqb (get s p) e); cbn [Z.b2z]; lia.
  - intros q Hq Hne. apply In_positions in Hq. rewrite (Hget q Hq).
    destruct (Z.eqb_spec p q); [congruence | reflexivity].
Qed.

Lemma countEntries_same s s' e :
  (forall q, inRange q -> get s' q = get s q) -> countEntries s' e = countEntries s e.
Proof.
  intros Hget. unfold countEntries. f_equal. f_equal.
  apply filter_ext_in. intros q Hq. apply In_positions in Hq.
  rewrite (Hget q Hq). reflexivity.
Qed.

Lemma countEntries_nonneg s e : 0 <= countEntries s e.
Proof. unfold countEntries. lia. Qed.

Lemma countEntries_set pos v s e :
  inRange pos ->
  countEntries (set pos v s) e = countEntries s e - ind (get s pos) e + ind v e.
Proof.
  intros Hp. apply countEntries_update; [exact Hp|].
  intros q Hq. apply get_set; assumption.
Qed.

(** [set] keeps the cached counts equal to the literal counts. *)
Lemma counted_set pos v s : inRange pos -> counted s -> counted (set pos v s).
Proof.
  intros Hp [Hw Hb]. unfold counted.
  rewrite whiteScore_set, blackScore_set, !countEntries_set by exact Hp. lia.
Qed.

Lemma GameState_set pos v s :
  inRange pos -> v <> Unused3 -> GameState s -> GameState (set pos v s).
Proof.
  intros Hp Hv [Hc Hu]. split; [apply counted_set; assumption|].
  pose proof (countEntries_nonneg (set pos v s) Unused3) as Hn.
  rewrite countEntries_set in * by exact Hp.
  assert (ind v Unused3 = 0) as E
    by (unfold ind; destruct v; try reflexivity; congruence).
  unfold ind in *. destruct (Entry_eqb (get s pos) Unused3); lia.
Qed.

(** ** The board as a list of cells *)

Lemma In_cells i j : In (i, j) cells <-> onBoard i j.
Proof.
  unfold cells, onBoard. rewrite in_flat_map. split.
  - intros (x & Hx & Hin). apply in_map_iff in Hin.
    destruct Hin as (y & [= <- <-] & Hy). apply In_upto in Hx, Hy. tauto.
  - intros [Hi Hj]. exists i. split; [apply In_upto; exact Hi|].
    apply in_map. apply In_upto; exact Hj.
Qed.

Lemma idx_inRange i j : onBoard i j -> inRange (idx i j).
Proof. unfold onBoard, inRange, idx, boardSize. lia. Qed.

Lemma idx_inj i j i2 j2 :
  onBoard i j -> onBoard i2 j2 -> idx i j = idx i2 j2 -> i = i2 /\ j = j2.
Proof. unfold onBoard, idx, boardSize. lia. Qed.

Lemma cidx_cells : map cidx cells = positions.
Proof. reflexivity. Qed.

Lemma NoDup_map_filter {A B} (g : A -> B) (f : A -> bool) l :
  NoDup (map g l) -> NoDup (map g (filter f l)).
Proof.
  induction l as [| x l IH]; cbn [map filter]; intros Hnd; [constructor|].
  inversion Hnd as [| ? ? Hx Hl]; subst.
  destruct (f x); cbn [map]; [|apply IH; exact Hl].
  constructor; [|apply IH; exact Hl].
  intros Hin. apply Hx. apply in_map_iff in Hin. destruct Hin as (y & Hy & Hin).
  apply filter_In in Hin. rewrite <- Hy. apply in_map. tauto.
Qed.

Lemma NoDup_cells : NoDup cells.
Proof.
  apply (NoDup_map_inv cidx). rewrite cidx_cells. apply NoDup_positions.
Qed.

Lemma In_around d i j c :
  In c (around d i j) <->
  onBoard (fst c) (snd c) /\ chebyshev i j (fst c) (snd c) = d.
Proof.
  unfold around. rewrite filter_In, Z.eqb_eq. destruct c as [a b].
  rewrite In_cells. reflexivity.
Qed.

Lemma NoDup_around d i j : NoDup (map cidx (around d i j)).
Proof.
  unfold around. apply NoDup_map_filter. rewrite cidx_cells. apply NoDup_positions.
Qed.

Lemma eqbZs_eq l l' : eqbZs l l' = true -> l = l'.
Proof.
  revert l'. induction l as [| x l IH]; destruct l' as [| y l']; cbn [eqbZs];
    try discriminate; [reflexivity|].
  intros H. apply andb_true_iff in H. destruct H as [Hx Hl].
  apply Z.eqb_eq in Hx. f_equal; [exact Hx | apply IH; exact Hl].
Qed.

(** The positions inspected by [spawn] are the board cells at distance 1,
    row by row. *)
Lemma inspected_around i j :
  onBoard i j -> inspected i j = map cidx (around 1 i j).
Proof.
  intros Hc. apply In_cells in Hc.
  assert (forallb (fun c => eqbZs (inspected (fst c) (snd c))
                                  (map cidx (around 1 (fst c) (snd c)))) cells = true)
    as Hall by (vm_compute; reflexivity).
  rewrite forallb_forall in Hall. apply eqbZs_eq. exact (Hall (i, j) Hc).
Qed.

(** ** [spawn] *)

Lemma spawn_captures i j s :
  spawn i j s =
  captures (movingPlayer (put i j s)) (movingPlayer s) (inspected i j) (put i j s).
Proof.
  unfold spawn, inspected, captures. cbv zeta. fold (put i j s).
  destruct (i >? 0), (j >? 0), (j <? boardSize - 1), (i <? boardSize - 1);
    reflexivity.
Qed.

Lemma whiteMoves_put i j s :
  onBoard i j -> whiteMoves (put i j s) = negb (whiteMoves s).
Proof.
  intros Hc. unfold put. cbv zeta. rewrite whiteMoves_switchPlayerTurn.
  destruct (whiteMoves s) eqn:E; rewrite whiteMoves_counts;
    rewrite whiteMoves_setNoScoreAdjust by (apply idx_inRange; exact Hc);
    rewrite E; reflexivity.
Qed.

Lemma movingPlayer_put i j s :
  onBoard i j -> movingPlayer (put i j s) = opponent (movingPlayer s).
Proof.
  intros Hc. unfold movingPlayer. rewrite whiteMoves_put by exact Hc.
  destruct (whiteMoves s); reflexivity.
Qed.

Lemma get_put i j s q :
  onBoard i j -> inRange q ->
  get (put i j s) q = if idx i j =? q then movingPlayer s else get s q.
Proof.
  intros Hc Hq. unfold put. cbv zeta. rewrite get_switchPlayerTurn by exact Hq.
  destruct (whiteMoves s); rewrite get_counts;
    apply get_setNoScoreAdjust; try exact Hq; apply idx_inRange; exact Hc.
Qed.

Lemma whiteScore_put i j s :
  whiteScore_ (put i j s) = whiteScore_ s + ind (movingPlayer s) White.
Proof.
  unfold put, movingPlayer. cbv zeta. destruct (whiteMoves s); cbn; lia.
Qed.

Lemma blackScore_put i j s :
  blackScore_ (put i j s) = blackScore_ s + ind (movingPlayer s) Black.
Proof.
  unfold put, movingPlayer. cbv zeta. destruct (whiteMoves s); cbn; lia.
Qed.

Lemma movingPlayer_cases s :
  movingPlayer s = White /\ whiteMoves s = true \/
  movingPlayer s = Black /\ whiteMoves s = false.
Proof. unfold movingPlayer. destruct (whiteMoves s); tauto. Qed.

Lemma opponent_neq s : opponent (movingPlayer s) <> movingPlayer s.
Proof. destruct (movingPlayer_cases s) as [[-> _] | [-> _]]; discriminate. Qed.

Lemma capture_unfold pos np cp s :
  capture true pos np cp s = if Entry_eqb (get s pos) np then set pos cp s else s.
Proof. reflexivity. Qed.

Lemma get_capture pos np cp s q :
  inRange pos -> inRange q ->
  get (capture true pos np cp s) q =
  if (pos =? q) && Entry_eqb (get s q) np then cp else get s q.
Proof.
  intros Hp Hq. rewrite capture_unfold.
  destruct (Z.eqb_spec pos q) as [<- | Hne]; cbn [andb].
  - destruct (Entry_eqb (get s pos) np); [|reflexivity].
    rewrite get_set, Z.eqb_refl by assumption. reflexivity.
  - destruct (Entry_eqb (get s pos) np); [|reflexivity].
    rewrite get_set by assumption.
    destruct (Z.eqb_spec pos q); [contradiction | reflexivity].
Qed.

Lemma whiteMoves_capture pos np cp s :
  inRange pos -> whiteMoves (capture true pos np cp s) = whiteMoves s.
Proof.
  intros Hp. rewrite capture_unfold.
  destruct (Entry_eqb (get s pos) np); [apply whiteMoves_set; exact Hp | reflexivity].
Qed.

Lemma whiteScore_capture pos np cp s :
  whiteScore_ (capture true pos np cp s) =
  whiteScore_ s + Z.b2z (Entry_eqb (get s pos) np) * (ind cp White - ind np White).
Proof.
  rewrite capture_unfold. destruct (Entry_eqb (get s pos) np) eqn:E; cbn [Z.b2z]; [|lia].
  apply Entry_eqb_eq in E. rewrite whiteScore_set, E. lia.
Qed.

Lemma blackScore_capture pos np cp s :
  blackScore_ (capture true pos np cp s) =
  blackScore_ s + Z.b2z (Entry_eqb (get s pos) np) * (ind cp Black - ind np Black).
Proof.
  rewrite capture_unfold. destruct (Entry_eqb (get s pos) np) eqn:E; cbn [Z.b2z]; [|lia].
  apply Entry_eqb_eq in E. rewrite blackScore_set, E. lia.
Qed.

Lemma captures_cons np cp p ps s :
  captures np cp (p :: ps) s = captures np cp ps (capture true p np cp s).
Proof. reflexivity. Qed.

Lemma get_captures np cp ps : forall s q,
  Forall inRange ps -> inRange q -> np <> cp ->
  get (captures np cp ps s) q =
  if existsb (Z.eqb q) ps && Entry_eqb (get s q) np then cp else get s q.
Proof.
  induction ps as [| p ps IH]; intros s q Hps Hq Hne; [reflexivity|].
  inversion Hps as [| ? ? Hp Hps']; subst.
  rewrite captures_cons, IH, get_capture by assumption.
  cbn [existsb]. rewrite (Z.eqb_sym q p).
  destruct (Z.eqb_spec p q) as [<- |]; cbn [orb andb]; [|reflexivity].
  destruct (Entry_eqb (get s p) np) eqn:E.
  - assert (Entry_eqb cp np = false) as -> by (apply Entry_eqb_neq; congruence).
    rewrite andb_false_r. reflexivity.
  - rewrite E, andb_false_r. reflexivity.
Qed.

Lemma whiteMoves_captures np cp ps : forall s,
  Forall inRange ps -> whiteMoves (captures np cp ps s) = whiteMoves s.
Proof.
  induction ps as [| p ps IH]; intros s Hps; [reflexivity|].
  inversion Hps; subst. rewrite captures_cons, IH, whiteMoves_capture by assumption.
  reflexivity.
Qed.

(** Number of listed positions holding [e]. *)
Lemma taken_capture np cp p ps s :
  inRange p -> Forall inRange ps -> ~ In p ps ->
  filter (fun q => Entry_eqb (get (capture true p np cp s) q) np) ps =
  filter (fun q => Entry_eqb (get s q) np) ps.
Proof.
  intros Hp Hps Hnin. apply filter_ext_in. intros q Hq.
  rewrite get_capture by (try assumption; eapply Forall_forall; eassumption).
  destruct (Z.eqb_spec p q); [subst; contradiction | reflexivity].
Qed.

Lemma whiteScore_captures np cp ps : forall s,
  Forall inRange ps -> NoDup ps ->
  whiteScore_ (captures np cp ps s) =
  whiteScore_ s
  + Z.of_nat (length (filter (fun q => Entry_eqb (get s q) np) ps))
    * (ind cp White - ind np White).
Proof.
  induction ps as [| p ps IH]; intros s Hps Hnd; [cbn; lia|].
  inversion Hps; subst. inversion Hnd; subst.
  rewrite captures_cons, IH, whiteScore_capture, taken_capture by assumption.
  cbn [filter]. destruct (Entry_eqb (get s p) np); cbn [length Z.b2z]; lia.
Qed.

Lemma blackScore_captures np cp ps : forall s,
  Forall inRange ps -> NoDup ps ->
  blackScore_ (captures np cp ps s) =
  blackScore_ s
  + Z.of_nat (length (filter (fun q => Entry_eqb (get s q) np) ps))
    * (ind cp Black - ind np Black).
Proof.
  induction ps as [| p ps IH]; intros s Hps Hnd; [cbn; lia|].
  inversion Hps; subst. inversion Hnd; subst.
  rewrite captures_cons, IH, blackScore_capture, taken_capture by assumption.
  cbn [filter]. destruct (Entry_eqb (get s p) np); cbn [length Z.b2z]; lia.
Qed.

Lemma inspected_inRange i j : onBoard i j -> Forall inRange (inspected i j).
Proof.
  intros Hc. rewrite inspected_around by exact Hc. apply Forall_forall.
  intros q Hq. apply in_map_iff in Hq. destruct Hq as ([a b] & <- & Hin).
  apply In_around in Hin. apply idx_inRange. tauto.
Qed.

Lemma chebyshev_0 i j i2 j2 : chebyshev i j i2 j2 = 0 <-> i2 = i /\ j2 = j.
Proof. unfold chebyshev. lia. Qed.

(** Membership of a board cell among the inspected positions. *)
Lemma inspected_mem i j i2 j2 :
  onBoard i j -> onBoard i2 j2 ->
  existsb (Z.eqb (idx i2 j2)) (inspected i j) = (chebyshev i j i2 j2 =? 1).
Proof.
  intros Hc Hc2. rewrite inspected_around by exact Hc.
  destruct (Z.eqb_spec (chebyshev i j i2 j2) 1) as [E | E].
  - apply existsb_exists. exists (idx i2 j2). split; [|apply Z.eqb_refl].
    apply (in_map cidx _ (i2, j2)). apply In_around. tauto.
  - destruct (existsb _ _) eqn:Ex; [|reflexivity].
    apply existsb_exists in Ex. destruct Ex as (q & Hq & Hqe).
    apply Z.eqb_eq in Hqe. subst q. apply in_map_iff in Hq.
    destruct Hq as ([a b] & Hab & Hin). apply In_around in Hin.
    cbn [fst snd] in Hin. unfold cidx in Hab. cbn [fst snd] in Hab.
    apply idx_inj in Hab; [|tauto|exact Hc2]. destruct Hab; subst. tauto.
Qed.

(** The cells after [spawn], position by position. *)
Lemma get_spawn i j s i2 j2 :
  onBoard i j -> onBoard i2 j2 ->
  get (spawn i j s) (idx i2 j2) =
  if chebyshev i j i2 j2 =? 0 then movingPlayer s
  else if (chebyshev i j i2 j2 =? 1)
          && Entry_eqb (get s (idx i2 j2)) (opponent (movingPlayer s))
       then movingPlayer s
       else get s (idx i2 j2).
Proof.
  intros Hc Hc2.
  rewrite spawn_captures, get_captures;
    [| apply inspected_inRange; exact Hc | apply idx_inRange; exact Hc2
     | rewrite movingPlayer_put by exact Hc; apply opponent_neq ].
  rewrite inspected_mem, movingPlayer_put, get_put
    by (try assumption; apply idx_inRange; assumption).
  destruct (Z.eqb_spec (idx i j) (idx i2 j2)) as [E | E].
  - apply idx_inj in E; [|assumption|assumption]. destruct E; subst.
    replace (chebyshev i2 j2 i2 j2) with 0 by (unfold chebyshev; lia).
    cbn [Z.eqb andb]. reflexivity.
  - destruct (Z.eqb_spec (chebyshev i j i2 j2) 0) as [E0 | E0]; [|reflexivity].
    apply chebyshev_0 in E0. destruct E0; subst. contradiction.
Qed.

Lemma whiteMoves_spawn i j s :
  onBoard i j -> whiteMoves (spawn i j s) = negb (whiteMoves s).
Proof.
  intros Hc. rewrite spawn_captures, whiteMoves_captures, whiteMoves_put
    by (try assumption; apply inspected_inRange; exact Hc).
  reflexivity.
Qed.

Lemma filter_map_length {A B} (f : B -> bool) (g : A -> B) l :
  length (filter f (map g l)) = length (filter (fun x => f (g x)) l).
Proof.
  induction l as [| x l IH]; [reflexivity|]. cbn [map filter].
  destruct (f (g x)); cbn [length]; rewrite IH; reflexivity.
Qed.

Lemma around_1_apart i j c :
  In c (around 1 i j) -> onBoard i j -> idx i j <> cidx c.
Proof.
  intros Hin Hc E. apply In_around in Hin. destruct c as [a b].
  cbn [fst snd] in *. unfold cidx in E. cbn [fst snd] in E.
  apply idx_inj in E; [|assumption|tauto]. destruct E; subst.
  unfold chebyshev in Hin. lia.
Qed.

(** Number of captures done by [spawn]: the neighbours held by the
    opponent. *)
Lemma taken_spawn i j s :
  onBoard i j ->
  Z.of_nat (length (filter (fun q => Entry_eqb (get (put i j s) q)
                                                  (movingPlayer (put i j s)))
                           (inspected i j))) =
  holding s (opponent (movingPlayer s)) (around 1 i j).
Proof.
  intros Hc. unfold holding. rewrite inspected_around, filter_map_length by exact Hc.
  do 2 f_equal. apply filter_ext_in. intros c Hin.
  rewrite movingPlayer_put by exact Hc.
  pose proof (around_1_apart i j c Hin Hc) as Hne.
  apply In_around in Hin.
  rewrite get_put by (try assumption; apply idx_inRange; tauto).
  destruct (Z.eqb_spec (idx i j) (cidx c)); [contradiction | reflexivity].
Qed.

Lemma NoDup_inspected i j : onBoard i j -> NoDup (inspected i j).
Proof. intros Hc. rewrite inspected_around by exact Hc. apply NoDup_around. Qed.

Lemma whiteScore_spawn i j s :
  onBoard i j ->
  whiteScore_ (spawn i j s) =
  whiteScore_ s + ind (movingPlayer s) White
  + holding s (opponent (movingPlayer s)) (around 1 i j)
    * (ind (movingPlayer s) White - ind (opponent (movingPlayer s)) White).
Proof.
  intros Hc.
  rewrite spawn_captures, whiteScore_captures, taken_spawn, whiteScore_put
    by (try assumption; try (apply inspected_inRange; assumption);
        apply NoDup_inspected; assumption).
  rewrite movingPlayer_put by exact Hc. reflexivity.
Qed.

Lemma blackScore_spawn i j s :
  onBoard i j ->
  blackScore_ (spawn i j s) =
  blackScore_ s + ind (movingPlayer s) Black
  + holding s (opponent (movingPlayer s)) (around 1 i j)
    * (ind (movingPlayer s) Black - ind (opponent (movingPlayer s)) Black).
Proof.
  intros Hc.
  rewrite spawn_captures, blackScore_captures, taken_spawn, blackScore_put
    by (try assumption; try (apply inspected_inRange; assumption);
        apply NoDup_inspected; assumption).
  rewrite movingPlayer_put by exact Hc. reflexivity.
Qed.

(** ** The count invariant under [spawn] *)

Lemma GameState_captures np cp ps : forall s,
  Forall inRange ps -> cp <> Unused3 -> GameState s -> GameState (captures np cp ps s).
Proof.
  induction ps as [| p ps IH]; intros s Hps Hcp Hs; [exact Hs|].
  inversion Hps; subst. rewrite captures_cons. apply IH; try assumption.
  rewrite capture_unfold. destruct (Entry_eqb (get s p) np); [|exact Hs].
  apply GameState_set; assumption.
Qed.

Lemma counted_captures np cp ps : forall s,
  Forall inRange ps -> counted s -> counted (captures np cp ps s).
Proof.
  induction ps as [| p ps IH]; intros s Hps Hs; [exact Hs|].
  inversion Hps; subst. rewrite captures_cons. apply IH; try assumption.
  rewrite capture_unfold. destruct (Entry_eqb (get s p) np); [|exact Hs].
  apply counted_set; assumption.
Qed.

Lemma countEntries_put i j s e :
  onBoard i j ->
  countEntries (put i j s) e =
  countEntries s e - ind (get s (idx i j)) e + ind (movingPlayer s) e.
Proof.
  intros Hc. apply countEntries_update; [apply idx_inRange; exact Hc|].
  intros q Hq. apply get_put; assumption.
Qed.

Lemma counted_put i j s :
  onBoard i j -> get s (idx i j) = Empty -> counted s -> counted (put i j s).
Proof.
  intros Hc He [Hw Hb]. unfold counted.
  rewrite whiteScore_put, blackScore_put, !countEntries_put, He by exact Hc.
  cbn [ind Entry_eqb]. lia.
Qed.

Lemma movingPlayer_not_Unused3 s : movingPlayer s <> Unused3.
Proof. destruct (movingPlayer_cases s) as [[-> _] | [-> _]]; discriminate. Qed.

Lemma counted_spawn i j s :
  onBoard i j -> get s (idx i j) = Empty -> counted s -> counted (spawn i j s).
Proof.
  intros Hc He Hs. rewrite spawn_captures.
  apply counted_captures; [apply inspected_inRange; exact Hc|].
  apply counted_put; assumption.
Qed.

Lemma GameState_spawn i j s :
  onBoard i j -> get s (idx i j) = Empty -> GameState s -> GameState (spawn i j s).
Proof.
  intros Hc He [Hs Hu]. rewrite spawn_captures.
  apply GameState_captures;
    [apply inspected_inRange; exact Hc | apply movingPlayer_not_Unused3 |].
  split; [apply counted_put; assumption|].
  rewrite countEntries_put, He, Hu by exact Hc.
  pose proof (movingPlayer_not_Unused3 s) as Hn.
  unfold ind. destruct (movingPlayer s); cbn; congruence.
Qed.

(** C3. For every status and every in-range coordinate (i, j), [spawn]
    puts the mover's colour at (i, j), switches the mover, turns to the
    placer's colour exactly the neighbours at Chebyshev distance 1 on the
    board that hold the opponent's colour, and leaves every cell at distance 2
    or more unchanged; the mover's count grows by one and by one more for each
    capture, the opponent's count shrinks by one for each capture. *)
Theorem spawn_spec (s : Status) (i j : Z) (Hc : onBoard i j) :
  let cp := movingPlayer s in
  let np := opponent cp in
  let k := holding s np (around 1 i j) in
  get (spawn i j s) (idx i j) = cp
  /\ whiteMoves (spawn i j s) = negb (whiteMoves s)
  /\ movingPlayer (spawn i j s) = np
  /\ (forall i2 j2, onBoard i2 j2 -> chebyshev i j i2 j2 = 1 ->
        get (spawn i j s) (idx i2 j2) =
        if Entry_eqb (get s (idx i2 j2)) np then cp else get s (idx i2 j2))
  /\ (forall i2 j2, onBoard i2 j2 -> chebyshev i j i2 j2 >= 2 ->
        get (spawn i j s) (idx i2 j2) = get s (idx i2 j2))
  /\ whiteScore_ (spawn i j s) =
       whiteScore_ s + (if whiteMoves s then 1 + k else - k)
  /\ blackScore_ (spawn i j s) =
       blackScore_ s + (if whiteMoves s then - k else 1 + k).
Proof.
  intros cp np k. repeat split.
  - rewrite get_spawn by assumption.
    replace (chebyshev i j i j) with 0 by (unfold chebyshev; lia). reflexivity.
  - apply whiteMoves_spawn; exact Hc.
  - unfold movingPlayer at 1. rewrite whiteMoves_spawn by exact Hc.
    unfold np, cp, movingPlayer. destruct (whiteMoves s); reflexivity.
  - intros i2 j2 Hc2 Hd. rewrite get_spawn, Hd by assumption. reflexivity.
  - intros i2 j2 Hc2 Hd. rewrite get_spawn by assumption.
    destruct (Z.eqb_spec (chebyshev i j i2 j2) 0); [lia|].
    destruct (Z.eqb_spec (chebyshev i j i2 j2) 1); [lia|]. reflexivity.
  - rewrite whiteScore_spawn by exact Hc. fold cp np k.
    destruct (movingPlayer_cases s) as [[E ->] | [E ->]]; unfold np, cp; rewrite E;
      cbn [opponent ind Entry_eqb]; lia.
  - rewrite blackScore_spawn by exact Hc. fold cp np k.
    destruct (movingPlayer_cases s) as [[E ->] | [E ->]]; unfold np, cp; rewrite E;
      cbn [opponent ind Entry_eqb]; lia.
Qed.

Lemma spawn_spec_witness :
  get (spawn 0 1 initial) (idx 0 1) = White
  /\ movingPlayer (spawn 0 1 initial) = Black
  /\ whiteScore_ (spawn 0 1 initial) = 3.
Proof.
  assert (Hc : onBoard 0 1) by (unfold onBoard, boardSize; lia).
  destruct (spawn_spec initial 0 1 Hc) as (H1 & _ & H3 & _ & _ & H6 & _).
  split; [exact H1 | split; [exact H3 | exact H6]].
Defined.

(** ** What [generateStatuses] writes *)

Lemma writeAll_nil o : writeAll [] o = o.
Proof.
  destruct o as [w n]. unfold writeAll. cbn [written num length].
  rewrite app_nil_r. f_equal. lia.
Qed.

Lemma writeAll_app l l' o : writeAll l' (writeAll l o) = writeAll (l ++ l') o.
Proof.
  unfold writeAll. cbn [written num]. rewrite app_assoc, length_app. f_equal. lia.
Qed.

Lemma jumpFrom_writeAll start src i j o :
  jumpFrom start true src i j o =
  writeAll (map (fun p => spawn i j (set p Empty start)) (filter (own start) [src])) o.
Proof.
  unfold jumpFrom, own. cbn [andb filter].
  destruct (Entry_eqb (get start src) (movingPlayer start)); cbn [map];
    [reflexivity | symmetry; apply writeAll_nil].
Qed.

Lemma jumpFrom_false start src i j o : jumpFrom start false src i j o = o.
Proof. reflexivity. Qed.

Lemma writeAll_jumps start i j l l' o :
  writeAll (map (fun p => spawn i j (set p Empty start)) (filter (own start) l'))
    (writeAll (map (fun p => spawn i j (set p Empty start)) (filter (own start) l)) o) =
  writeAll (map (fun p => spawn i j (set p Empty start)) (filter (own start) (l ++ l'))) o.
Proof. rewrite writeAll_app, filter_app, map_app. reflexivity. Qed.

Lemma cellStatuses_writeAll start i j o :
  cellStatuses start i j o = writeAll (cellWritten start i j) o.
Proof.
  unfold cellStatuses, cellWritten.
  destruct (negb (Entry_eqb (get start (i * boardSize + j)) Empty));
    [symmetry; apply writeAll_nil|].
  rewrite <- writeAll_app.
  assert ((if canSpawn start i j then write (spawn i j start) o else o) =
          writeAll (if canSpawn start i j then [spawn i j start] else []) o) as ->
    by (destruct (canSpawn start i j); [reflexivity | symmetry; apply writeAll_nil]).
  generalize (writeAll (if canSpawn start i j then [spawn i j start] else []) o).
  clear o. intros o. unfold sources.
  destruct (i >? 1), (i >? 0), (i <? boardSize - 1), (i <? boardSize - 2),
           (j >? 0), (j >? 1), (j <? boardSize - 1), (j <? boardSize - 2);
    cbv zeta; rewrite ?jumpFrom_false, ?jumpFrom_writeAll, ?writeAll_jumps;
    cbn [app]; try reflexivity;
    cbn [filter map]; rewrite writeAll_nil; reflexivity.
Qed.

Lemma sources_around i j :
  onBoard i j -> sources i j = map cidx (around 2 i j).
Proof.
  intros Hc. apply In_cells in Hc.
  assert (forallb (fun c => eqbZs (sources (fst c) (snd c))
                                  (map cidx (around 2 (fst c) (snd c)))) cells = true)
    as Hall by (vm_compute; reflexivity).
  rewrite forallb_forall in Hall. apply eqbZs_eq. exact (Hall (i, j) Hc).
Qed.

(** Every position read by a jump block whose guards hold is on the board:
    with [inspected_inRange], no index expression of the generator or of
    [spawn] is evaluated outside [0, boardSize * boardSize). *)
Lemma sources_inRange i j : onBoard i j -> Forall inRange (sources i j).
Proof.
  intros Hc. rewrite sources_around by exact Hc. apply Forall_forall.
  intros q Hq. apply in_map_iff in Hq. destruct Hq as ([a b] & <- & Hin).
  apply In_around in Hin. apply idx_inRange. tauto.
Qed.

(** The spawn test reads the inspected neighbours (in another order). *)
Lemma canSpawn_inspected start i j :
  canSpawn start i j = existsb (own start) (inspected i j).
Proof.
  unfold canSpawn, inspected.
  destruct (i >? 0), (j >? 0), (j <? boardSize - 1), (i <? boardSize - 1);
    cbn [andb orb app existsb]; unfold own;
    generalize (Entry_eqb (get start ((i - 1) * boardSize + j - 1)) (movingPlayer start)),
               (Entry_eqb (get start ((i - 1) * boardSize + j)) (movingPlayer start)),
               (Entry_eqb (get start ((i - 1) * boardSize + j + 1)) (movingPlayer start)),
               (Entry_eqb (get start (i * boardSize + j - 1)) (movingPlayer start)),
               (Entry_eqb (get start (i * boardSize + j + 1)) (movingPlayer start)),
               (Entry_eqb (get start ((i + 1) * boardSize + j - 1)) (movingPlayer start)),
               (Entry_eqb (get start ((i + 1) * boardSize + j)) (movingPlayer start)),
               (Entry_eqb (get start ((i + 1) * boardSize + j + 1)) (movingPlayer start));
    intros a b c d e f g h;
    destruct a, b, c, d, e, f, g, h; reflexivity.
Qed.

Lemma fold_left_writeAll {A} (t : A -> Out -> Out) (L : A -> list Status) l :
  (forall x o, t x o = writeAll (L x) o) ->
  forall o, fold_left (fun o x => t x o) l o = writeAll (flat_map L l) o.
Proof.
  intros Ht. induction l as [| x l IH]; intros o; cbn [fold_left flat_map].
  - symmetry. apply writeAll_nil.
  - rewrite IH, Ht, writeAll_app. reflexivity.
Qed.

Lemma flat_map_map {A B C} (f : B -> list C) (g : A -> B) l :
  flat_map f (map g l) = flat_map (fun x => f (g x)) l.
Proof.
  induction l as [| x l IH]; [reflexivity|].
  cbn [map flat_map]. rewrite IH. reflexivity.
Qed.

Lemma flat_map_pairs {B} (f : Z * Z -> list B) (l1 l2 : list Z) :
  flat_map f (flat_map (fun i => map (pair i) l2) l1) =
  flat_map (fun i => flat_map (fun j => f (i, j)) l2) l1.
Proof.
  induction l1 as [| i l1 IH]; [reflexivity|].
  cbn [flat_map]. rewrite flat_map_app, IH, flat_map_map. reflexivity.
Qed.

Lemma flat_map_cells {B} (f : Z * Z -> list B) :
  flat_map f cells =
  flat_map (fun i => flat_map (fun j => f (i, j)) (upto boardSize)) (upto boardSize).
Proof. apply flat_map_pairs. Qed.

Lemma generateStatuses_writeAll start :
  generateStatuses start =
  writeAll (flat_map (fun c => cellWritten start (fst c) (snd c)) cells) (mkOut [] 0).
Proof.
  unfold generateStatuses. rewrite flat_map_cells. cbn [fst snd].
  apply (fold_left_writeAll
           (fun i o => fold_left (fun o j => cellStatuses start i j o) (upto boardSize) o)).
  intros i o.
  apply (fold_left_writeAll (fun j o => cellStatuses start i j o)).
  intros j o'. apply cellStatuses_writeAll.
Qed.

Lemma filter_map_comm {A B} (f : B -> bool) (g : A -> B) l :
  filter f (map g l) = map g (filter (fun x => f (g x)) l).
Proof.
  induction l as [| x l IH]; [reflexivity|]. cbn [map filter].
  destruct (f (g x)); cbn [map]; rewrite IH; reflexivity.
Qed.

Lemma existsb_map {A B} (f : B -> bool) (g : A -> B) l :
  existsb f (map g l) = existsb (fun x => f (g x)) l.
Proof.
  induction l as [| x l IH]; [reflexivity|]. cbn [map existsb].
  rewrite IH. reflexivity.
Qed.

(** For a cell of the board, the statuses written are the successors by the
    legal moves into it. *)
Lemma cellWritten_cellMoves s i j :
  onBoard i j -> cellWritten s i j = map (successor s) (cellMoves s i j).
Proof.
  intros Hc. unfold cellWritten, cellMoves. fold (idx i j).
  destruct (Entry_eqb (get s (idx i j)) Empty); cbn [negb]; [|reflexivity].
  rewrite map_app, canSpawn_inspected, inspected_around, sources_around by exact Hc.
  rewrite existsb_map, filter_map_comm, !map_map.
  f_equal. destruct (existsb _ _); reflexivity.
Qed.

Lemma flat_map_ext_in {A B} (f g : A -> list B) l :
  (forall x, In x l -> f x = g x) -> flat_map f l = flat_map g l.
Proof.
  intros H. induction l as [| x l IH]; [reflexivity|]. cbn [flat_map].
  rewrite (H x (or_introl eq_refl)), IH; [reflexivity|].
  intros y Hy. apply H. right. exact Hy.
Qed.

Lemma map_flat_map {A B C} (g : B -> C) (h : A -> list B) l :
  map g (flat_map h l) = flat_map (fun x => map g (h x)) l.
Proof.
  induction l as [| x l IH]; [reflexivity|].
  cbn [flat_map]. rewrite map_app, IH. reflexivity.
Qed.

Lemma generateStatuses_legalMoves s :
  generateStatuses s =
  mkOut (map (successor s) (legalMoves s)) (Z.of_nat (length (legalMoves s))).
Proof.
  rewrite generateStatuses_writeAll. unfold writeAll, legalMoves. cbn [written num app].
  rewrite (flat_map_ext_in _ (fun c => map (successor s) (cellMoves s (fst c) (snd c)))).
  - rewrite <- map_flat_map, length_map, Z.add_0_l. reflexivity.
  - intros [i j] Hin. apply In_cells in Hin. apply cellWritten_cellMoves. exact Hin.
Qed.

(** ** The legal moves *)

Lemma owned_true s c : owned s c = true <-> get s (cidx c) = movingPlayer s.
Proof. unfold owned. apply Entry_eqb_eq. Qed.

Lemma In_cellMoves s i j m :
  In m (cellMoves s i j) <->
  get s (idx i j) = Empty /\
  (m = Spawn i j /\ (exists c, In c (around 1 i j) /\ owned s c = true)
   \/ exists c, m = Jump (fst c) (snd c) i j /\ In c (around 2 i j) /\ owned s c = true).
Proof.
  unfold cellMoves. destruct (Entry_eqb (get s (idx i j)) Empty) eqn:E.
  - apply Entry_eqb_eq in E. rewrite in_app_iff, in_map_iff.
    split.
    + intros [H | (c & <- & Hc)].
      * destruct (existsb (owned s) (around 1 i j)) eqn:Ex; [|contradiction].
        destruct H as [<- | []]. split; [exact E|]. left. split; [reflexivity|].
        apply existsb_exists. exact Ex.
      * apply filter_In in Hc. split; [exact E|]. right. exists c. tauto.
    + intros [_ [[-> Hex] | (c & -> & Hc & Ho)]].
      * left. apply existsb_exists in Hex. rewrite Hex. left. reflexivity.
      * right. exists c. split; [reflexivity|]. apply filter_In. tauto.
  - apply Entry_eqb_neq in E. cbn [In]. tauto.
Qed.

Lemma dest_cellMoves s i j m : In m (cellMoves s i j) -> dest m = (i, j).
Proof.
  intros H. apply In_cellMoves in H.
  destruct H as [_ [[-> _] | (c & -> & _)]]; reflexivity.
Qed.

(** The enumeration holds the legal moves, and only them. *)
Lemma In_legalMoves s m : In m (legalMoves s) <-> legal s m.
Proof.
  unfold legalMoves. rewrite in_flat_map. split.
  - intros ([i j] & Hc & Hm). apply In_cells in Hc. cbn [fst snd] in Hm.
    apply In_cellMoves in Hm.
    destruct Hm as [He [[-> ([a b] & Hin & Ho)] | ([a b] & -> & Hin & Ho)]];
      apply In_around in Hin; apply owned_true in Ho; cbn [fst snd] in *;
      unfold cidx in Ho; cbn [fst snd] in Ho; cbn [legal].
    + split; [exact Hc|]. split; [exact He|]. exists a, b. tauto.
    + tauto.
  - destruct m as [i j | i2 j2 i j]; cbn [legal].
    + intros (Hc & He & a & b & Hc2 & Hd & Ho). exists (i, j).
      split; [apply In_cells; exact Hc|]. cbn [fst snd]. apply In_cellMoves.
      split; [exact He|]. left. split; [reflexivity|]. exists (a, b).
      split; [apply In_around; cbn [fst snd]; tauto | apply owned_true; exact Ho].
    + intros (Hc & He & Hc2 & Hd & Ho). exists (i, j).
      split; [apply In_cells; exact Hc|]. cbn [fst snd]. apply In_cellMoves.
      split; [exact He|]. right. exists (i2, j2). cbn [fst snd].
      split; [reflexivity|].
      split; [apply In_around; cbn [fst snd]; tauto | apply owned_true; exact Ho].
Qed.

Lemma NoDup_flat_map_by {A B C} (f : A -> list B) (key : B -> C) (k : A -> C) l :
  NoDup (map k l) ->
  (forall x, In x l -> NoDup (f x)) ->
  (forall x y, In x l -> In y (f x) -> key y = k x) ->
  NoDup (flat_map f l).
Proof.
  induction l as [| x l IH]; cbn [map flat_map]; intros Hnd Hf Hk; [constructor|].
  inversion Hnd as [| ? ? Hx Hl]; subst.
  apply NoDup_app.
  - apply Hf. left. reflexivity.
  - apply IH; [exact Hl | |]; intros; [apply Hf | eapply Hk]; try right; eassumption.
  - intros y Hy Hy'. apply in_flat_map in Hy'. destruct Hy' as (x' & Hx' & Hy').
    apply Hx. rewrite <- (Hk x y (or_introl eq_refl) Hy).
    rewrite (Hk x' y (or_intror Hx') Hy'). apply in_map. exact Hx'.
Qed.

Lemma NoDup_cellMoves s i j : NoDup (cellMoves s i j).
Proof.
  unfold cellMoves. destruct (Entry_eqb (get s (idx i j)) Empty); [|constructor].
  apply NoDup_app.
  - destruct (existsb _ _); repeat constructor. intros [].
  - apply Finite.Injective_map_NoDup.
    + intros [a b] [a' b']. cbn [fst snd]. congruence.
    + apply NoDup_filter. unfold around. apply NoDup_filter. apply NoDup_cells.
  - intros m Hm Hm'. destruct (existsb _ _); [|contradiction].
    destruct Hm as [<- | []]. apply in_map_iff in Hm'.
    destruct Hm' as (c & Hc & _). discriminate Hc.
Qed.

(** Every legal move is enumerated once. *)
Lemma NoDup_legalMoves s : NoDup (legalMoves s).
Proof.
  unfold legalMoves.
  apply (NoDup_flat_map_by _ dest (fun c => c)).
  - rewrite map_id. apply NoDup_cells.
  - intros c _. apply NoDup_cellMoves.
  - intros [i j] m _ Hm. apply dest_cellMoves in Hm. exact Hm.
Qed.

(** C2. [generateStatuses] writes one successor for each legal move, and
    nothing else, and returns their number: into every empty cell a spawn
    when a neighbour at Chebyshev distance 1 holds the mover's colour, and a
    jump from every cell at Chebyshev distance 2 that holds the mover's
    colour, whether or not a spawn is legal. *)
Theorem generateStatuses_spec (s : Status) :
  exists ms : list Move,
    NoDup ms
    /\ (forall m, In m ms <-> legal s m)
    /\ written (generateStatuses s) = map (successor s) ms
    /\ num (generateStatuses s) = Z.of_nat (length ms).
Proof.
  exists (legalMoves s). rewrite generateStatuses_legalMoves.
  split; [apply NoDup_legalMoves|].
  split; [apply In_legalMoves|].
  split; reflexivity.
Qed.

(** ** The number of successors *)

Lemma length_cellMoves s i j :
  (length (cellMoves s i j) <= 1 + length (around 2 i j))%nat.
Proof.
  unfold cellMoves. destruct (Entry_eqb _ _); cbn [length]; [|lia].
  rewrite length_app, length_map.
  pose proof (filter_length_le (owned s) (around 2 i j)).
  destruct (existsb _ _); cbn [length]; lia.
Qed.

Lemma length_flat_map_le {A B} (f : A -> list B) (bound : A -> nat) l :
  (forall x, (length (f x) <= bound x)%nat) ->
  (length (flat_map f l) <= list_sum (map bound l))%nat.
Proof.
  intros H. induction l as [| x l IH]; [apply Nat.le_refl|].
  change (length (f x ++ flat_map f l) <= bound x + list_sum (map bound l))%nat.
  rewrite length_app. specialize (H x). lia.
Qed.

(** Over the whole board there are 49 destinations and 480 ordered pairs of cells
    at distance 2. *)
Lemma length_legalMoves s : (length (legalMoves s) <= 529)%nat.
Proof.
  unfold legalMoves.
  etransitivity;
    [apply (length_flat_map_le _ (fun c => (1 + length (around 2 (fst c) (snd c)))%nat))|].
  - intros c. apply length_cellMoves.
  - vm_compute. reflexivity.
Qed.

(** C7. The number of successors written by [generateStatuses] never
    exceeds [upperLimitMoves], and stays strictly below it: the buffer of the
    search does not overflow and its assertion [len < moves.size()] holds. *)
Theorem generateStatuses_bound (s : Status) :
  num (generateStatuses s) = Z.of_nat (length (written (generateStatuses s)))
  /\ 0 <= num (generateStatuses s) <= upperLimitMoves
  /\ num (generateStatuses s) < upperLimitMoves.
Proof.
  rewrite generateStatuses_legalMoves. cbn [written num]. rewrite length_map.
  pose proof (length_legalMoves s). unfold upperLimitMoves, boardSize. lia.
Qed.

(** ** The side to move *)

Lemma whiteMoves_successor s m :
  legal s m -> whiteMoves (successor s m) = negb (whiteMoves s).
Proof.
  destruct m as [i j | i2 j2 i j]; cbn [legal successor].
  - intros (Hc & _). apply whiteMoves_spawn. exact Hc.
  - intros (Hc & _ & Hc2 & _). rewrite whiteMoves_spawn by exact Hc.
    rewrite whiteMoves_set by (apply idx_inRange; exact Hc2). reflexivity.
Qed.

Lemma In_written s t :
  In t (written (generateStatuses s)) <-> exists m, legal s m /\ t = successor s m.
Proof.
  rewrite generateStatuses_legalMoves. cbn [written]. rewrite in_map_iff.
  split; intros (m & H1 & H2).
  - exists m. apply In_legalMoves in H2. split; [exact H2 | symmetry; exact H1].
  - exists m. apply In_legalMoves in H1. split; [symmetry; exact H2 | exact H1].
Qed.

Lemma whiteMoves_written s t :
  In t (written (generateStatuses s)) -> whiteMoves t = negb (whiteMoves s).
Proof.
  intros H. destruct (proj1 (In_written s t) H) as (m & Hm & ->).
  apply whiteMoves_successor. exact Hm.
Qed.

Lemma whiteMoves_edge s t : edge s t -> whiteMoves t = negb (whiteMoves s).
Proof.
  intros [t' Ht | _]; [apply whiteMoves_written; exact Ht|].
  apply whiteMoves_switchPlayerTurn.
Qed.

Lemma whiteMoves_path s n t :
  path s n t -> whiteMoves t = xorb (whiteMoves s) (Nat.odd n).
Proof.
  induction 1 as [s | s t u n Hp IH He].
  - cbn. rewrite xorb_false_r. reflexivity.
  - rewrite (whiteMoves_edge _ _ He), IH, Nat.odd_succ, <- Nat.negb_odd.
    destruct (whiteMoves s), (Nat.odd n); reflexivity.
Qed.

(** ** The count invariant *)

Lemma successor_GameState s m : legal s m -> GameState s -> GameState (successor s m).
Proof.
  destruct m as [i j | i2 j2 i j]; cbn [legal successor].
  - intros (Hc & He & _) Hs. apply GameState_spawn; assumption.
  - intros (Hc & He & Hc2 & _) Hs.
    pose proof (idx_inRange _ _ Hc) as Hr. pose proof (idx_inRange _ _ Hc2) as Hr2.
    apply GameState_spawn; [exact Hc | | apply GameState_set; [exact Hr2 | discriminate | exact Hs]].
    rewrite get_set by assumption.
    destruct (Z.eqb_spec (idx i2 j2) (idx i j)); [reflexivity | exact He].
Qed.

Lemma switchPlayerTurn_GameState s : GameState s -> GameState (switchPlayerTurn s).
Proof.
  assert (forall e, countEntries (switchPlayerTurn s) e = countEntries s e) as Hcnt
    by (intros e; apply countEntries_same; intros q Hq; apply get_switchPlayerTurn; exact Hq).
  intros [[Hw Hb] Hu]. unfold GameState, counted.
  rewrite (Hcnt White), (Hcnt Black), (Hcnt Unused3).
  split; [split|]; [exact Hw | exact Hb | exact Hu].
Qed.

Lemma initial_GameState : GameState initial.
Proof. repeat split; vm_compute; reflexivity. Qed.

Lemma reachable_GameState s : reachable s -> GameState s.
Proof.
  induction 1 as [| s t _ IH Hin | s _ IH _].
  - apply initial_GameState.
  - destruct (proj1 (In_written s t) Hin) as (m & Hm & ->).
    apply successor_GameState; assumption.
  - apply switchPlayerTurn_GameState. exact IH.
Qed.

(** Every position holds one of the four bit patterns. *)
Lemma filter_partition (f : Z -> Entry) l :
  Z.of_nat (length (filter (fun p => Entry_eqb (f p) Empty) l))
  + Z.of_nat (length (filter (fun p => Entry_eqb (f p) White) l))
  + Z.of_nat (length (filter (fun p => Entry_eqb (f p) Black) l))
  + Z.of_nat (length (filter (fun p => Entry_eqb (f p) Unused3) l))
  = Z.of_nat (length l).
Proof.
  induction l as [| p l IH]; [reflexivity|]. cbn [filter].
  destruct (f p); cbn [Entry_eqb length]; lia.
Qed.

Lemma countEntries_total s :
  countEntries s Empty + countEntries s White + countEntries s Black
  + countEntries s Unused3 = boardSize * boardSize.
Proof. unfold countEntries. rewrite (filter_partition (get s)). reflexivity. Qed.

(** The assertions of the debug build of [score()] hold on every state met
    in play. *)
Lemma score_checked_reachable s : reachable s -> score_checked s = Some (score s).
Proof.
  intros H. destruct (reachable_GameState s H) as [[Hw Hb] _].
  unfold score_checked. rewrite <- Hw, <- Hb, !Z.eqb_refl. reflexivity.
Qed.




(** ** The score *)

(** C4. [score()] is +N * N without black blobs, else -N * N without white
    blobs, else on a full board +N * N or -N * N for the majority, and the
    plain difference in the remaining cases, which is zero on a full board
    with equal counts. *)
Theorem score_spec (s : Status) :
  let w := whiteScore_ s in
  let b := blackScore_ s in
  let full := w + b = boardSize * boardSize in
  (b = 0 -> score s = boardSize * boardSize)
  /\ (b <> 0 -> w = 0 -> score s = - (boardSize * boardSize))
  /\ (b <> 0 -> w <> 0 -> full -> w > b -> score s = boardSize * boardSize)
  /\ (b <> 0 -> w <> 0 -> full -> b > w -> score s = - (boardSize * boardSize))
  /\ (b <> 0 -> w <> 0 -> ~ full -> score s = w - b)
  /\ (b <> 0 -> w <> 0 -> full -> w = b -> score s = w - b /\ score s = 0).
Proof.
  cbv zeta. unfold score.
  destruct (Z.eqb_spec (blackScore_ s) 0), (Z.eqb_spec (whiteScore_ s) 0),
    (Z.eqb_spec (whiteScore_ s + blackScore_ s) (boardSize * boardSize)),
    (Z.gtb_spec (whiteScore_ s) (blackScore_ s)),
    (Z.gtb_spec (blackScore_ s) (whiteScore_ s));
    repeat split; intros; try reflexivity; try lia.
Qed.

Lemma score_spec_witness :
  score initial = whiteScore_ initial - blackScore_ initial
  /\ score stuck = - (boardSize * boardSize).
Proof.
  destruct (score_spec initial) as (_ & _ & _ & _ & Hdiff & _).
  destruct (score_spec stuck) as (_ & Hlost & _).
  split.
  - apply Hdiff; vm_compute; discriminate.
  - apply Hlost; vm_compute; [discriminate | reflexivity].
Defined.

(** C9. Without any blob of either colour, [score()] is +N * N: the test
    for black comes first. *)
Theorem score_no_blobs (s : Status)
    (Hw : whiteScore_ s = 0) (Hb : blackScore_ s = 0) :
  score s = boardSize * boardSize.
Proof. unfold score. rewrite Hb. reflexivity. Qed.

Lemma score_no_blobs_witness : score Status0 = 49.
Proof. apply (score_no_blobs Status0); reflexivity. Defined.

(** ** The forced pass *)

(** C6. Searching at depth 1 or more a status without legal move yields the
    same cells with the turn switched, and the score of the status. *)
Theorem forced_pass (sort : (Status -> Status -> bool) -> list Status -> list Status)
    (s : Status) (depth : nat)
    (Hnone : num (generateStatuses s) = 0) (Hdepth : (1 <= depth)%nat) :
  search sort depth s = (score s, Some (switchPlayerTurn s))
  /\ (forall pos, inRange pos -> get (switchPlayerTurn s) pos = get s pos)
  /\ whiteMoves (switchPlayerTurn s) = negb (whiteMoves s)
  /\ score (switchPlayerTurn s) = score s.
Proof.
  split; [|split; [|split]].
  - unfold search. destruct depth as [| d]; [lia|].
    cbn [minimax]. rewrite Hnone. reflexivity.
  - intros pos Hp. apply get_switchPlayerTurn. exact Hp.
  - apply whiteMoves_switchPlayerTurn.
  - reflexivity.
Qed.

Lemma forced_pass_witness :
  search insertionSort 3 stuck = (score stuck, Some (switchPlayerTurn stuck)).
Proof.
  apply (forced_pass insertionSort stuck 3); [vm_compute; reflexivity | lia].
Defined.

(** ** Alpha-beta pruning *)

Section Pruning.

Variable rec : Status -> Z -> Z -> Z.
Variable value : Status -> Z.

Lemma descend_max_cons m rest i alpha beta newScore newIndex :
  descend rec true (m :: rest) i alpha beta newScore newIndex =
  let r := rec m alpha beta in
  let newIndex' := if r >? newScore then i else newIndex in
  if beta <=? Z.max alpha r then (Z.max newScore r, newIndex')
  else descend rec true rest (S i) (Z.max alpha r) beta (Z.max newScore r) newIndex'.
Proof.
  cbn [descend]. cbv zeta.
  destruct (Z.gtb_spec (rec m alpha beta) newScore);
    destruct (Z.gtb_spec (rec m alpha beta) alpha);
    rewrite ?(Z.max_l alpha), ?(Z.max_r alpha), ?(Z.max_l newScore),
            ?(Z.max_r newScore) by lia;
    reflexivity.
Qed.

Lemma descend_min_cons m rest i alpha beta newScore newIndex :
  descend rec false (m :: rest) i alpha beta newScore newIndex =
  let r := rec m alpha beta in
  let newIndex' := if r <? newScore then i else newIndex in
  if Z.min beta r <=? alpha then (Z.min newScore r, newIndex')
  else descend rec false rest (S i) alpha (Z.min beta r) (Z.min newScore r) newIndex'.
Proof.
  cbn [descend]. cbv zeta.
  destruct (Z.ltb_spec (rec m alpha beta) newScore);
    destruct (Z.ltb_spec (rec m alpha beta) beta);
    rewrite ?(Z.min_l beta), ?(Z.min_r beta), ?(Z.min_l newScore),
            ?(Z.min_r newScore) by lia;
    reflexivity.
Qed.

(** The loop of a maximizing node. *)
Lemma descend_max moves : forall i alpha beta newScore newIndex,
  alpha < beta ->
  (forall m, In m moves -> forall a b, a < b -> bounds (rec m a b) (value m) a b) ->
  let res := fst (descend rec true moves i alpha beta newScore newIndex) in
  newScore <= res
  /\ (res < beta -> forall m, In m moves -> value m <= res)
  /\ (alpha < res -> newScore < res -> exists m, In m moves /\ res <= value m).
Proof.
  induction moves as [| m rest IH]; intros i alpha beta newScore newIndex Hw Hrec.
  - cbn. repeat split; try lia.
  - rewrite descend_max_cons. cbv zeta.
    destruct (Hrec m (or_introl eq_refl) alpha beta Hw) as [Hup Hlow].
    set (r := rec m alpha beta) in *.
    destruct (Z.leb_spec beta (Z.max alpha r)) as [Hcut | Hcut]; cbn [fst].
    + split; [lia|]. split; [intros; lia|].
      intros H1 H2. exists m. split; [left; reflexivity | lia].
    + match goal with
      | |- context [descend rec true rest ?i' ?a' beta ?n' ?x'] =>
          specialize (IH i' a' beta n' x' Hcut
                         (fun m' Hm' => Hrec m' (or_intror Hm')));
          cbv zeta in IH;
          set (res := fst (descend rec true rest i' a' beta n' x')) in *
      end.
      destruct IH as (IH1 & IH2 & IH3).
      split; [lia|]. split.
      * intros Hlt m' [<- | Hm']; [lia | apply IH2; [lia | exact Hm']].
      * intros H1 H2.
        destruct (Z_lt_dec (Z.max alpha r) res) as [Ha | Ha];
          [destruct (Z_lt_dec (Z.max newScore r) res) as [Hn | Hn] |].
        -- destruct (IH3 Ha Hn) as (m' & Hm' & Hv).
           exists m'. split; [right; exact Hm' | exact Hv].
        -- exists m. split; [left; reflexivity | lia].
        -- exists m. split; [left; reflexivity | lia].
Qed.

(** The loop of a minimizing node. *)
Lemma descend_min moves : forall i alpha beta newScore newIndex,
  alpha < beta ->
  (forall m, In m moves -> forall a b, a < b -> bounds (rec m a b) (value m) a b) ->
  let res := fst (descend rec false moves i alpha beta newScore newIndex) in
  res <= newScore
  /\ (alpha < res -> forall m, In m moves -> res <= value m)
  /\ (res < beta -> res < newScore -> exists m, In m moves /\ value m <= res).
Proof.
  induction moves as [| m rest IH]; intros i alpha beta newScore newIndex Hw Hrec.
  - cbn. repeat split; try lia.
  - rewrite descend_min_cons. cbv zeta.
    destruct (Hrec m (or_introl eq_refl) alpha beta Hw) as [Hup Hlow].
    set (r := rec m alpha beta) in *.
    destruct (Z.leb_spec (Z.min beta r) alpha) as [Hcut | Hcut]; cbn [fst].
    + split; [lia|]. split; [intros; lia|].
      intros H1 H2. exists m. split; [left; reflexivity | lia].
    + match goal with
      | |- context [descend rec false rest ?i' alpha ?b' ?n' ?x'] =>
          specialize (IH i' alpha b' n' x' Hcut
                         (fun m' Hm' => Hrec m' (or_intror Hm')));
          cbv zeta in IH;
          set (res := fst (descend rec false rest i' alpha b' n' x')) in *
      end.
      destruct IH as (IH1 & IH2 & IH3).
      split; [lia|]. split.
      * intros Hlt m' [<- | Hm']; [lia | apply IH2; [lia | exact Hm']].
      * intros H1 H2.
        destruct (Z_lt_dec res (Z.min beta r)) as [Hb | Hb];
          [destruct (Z_lt_dec res (Z.min newScore r)) as [Hn | Hn] |].
        -- destruct (IH3 Hb Hn) as (m' & Hm' & Hv).
           exists m'. split; [right; exact Hm' | exact Hv].
        -- exists m. split; [left; reflexivity | lia].
        -- exists m. split; [left; reflexivity | lia].
Qed.

End Pruning.

(** Extrema of a non-empty list of values. *)
Lemma fold_max_ge vs : forall v, v <= fold_left Z.max vs v.
Proof.
  induction vs as [| x vs IH]; intros v; cbn [fold_left]; [lia|].
  specialize (IH (Z.max v x)). lia.
Qed.

Lemma fold_max_spec vs : forall v,
  (forall x, In x (v :: vs) -> x <= fold_left Z.max vs v)
  /\ In (fold_left Z.max vs v) (v :: vs).
Proof.
  induction vs as [| y vs IH]; intros v; cbn [fold_left].
  - split; [intros x [<- | []]; lia | left; reflexivity].
  - destruct (IH (Z.max v y)) as [Hub Hin]. split.
    + intros x [<- | [<- | Hx]].
      * pose proof (fold_max_ge vs (Z.max v y)). lia.
      * pose proof (fold_max_ge vs (Z.max v y)). lia.
      * apply Hub. right. exact Hx.
    + destruct Hin as [Hin | Hin]; [|right; right; exact Hin].
      rewrite <- Hin. destruct (Z.max_spec v y) as [[_ ->] | [_ ->]];
        [right; left | left]; reflexivity.
Qed.

Lemma fold_min_le vs : forall v, fold_left Z.min vs v <= v.
Proof.
  induction vs as [| x vs IH]; intros v; cbn [fold_left]; [lia|].
  specialize (IH (Z.min v x)). lia.
Qed.

Lemma fold_min_spec vs : forall v,
  (forall x, In x (v :: vs) -> fold_left Z.min vs v <= x)
  /\ In (fold_left Z.min vs v) (v :: vs).
Proof.
  induction vs as [| y vs IH]; intros v; cbn [fold_left].
  - split; [intros x [<- | []]; lia | left; reflexivity].
  - destruct (IH (Z.min v y)) as [Hlb Hin]. split.
    + intros x [<- | [<- | Hx]].
      * pose proof (fold_min_le vs (Z.min v y)). lia.
      * pose proof (fold_min_le vs (Z.min v y)). lia.
      * apply Hlb. right. exact Hx.
    + destruct Hin as [Hin | Hin]; [|right; right; exact Hin].
      rewrite <- Hin. destruct (Z.min_spec v y) as [[_ ->] | [_ ->]];
        [left | right; left]; reflexivity.
Qed.

(** ** Values of the exhaustive search *)

Lemma counted_range s :
  counted s ->
  0 <= whiteScore_ s /\ 0 <= blackScore_ s
  /\ whiteScore_ s + blackScore_ s <= boardSize * boardSize.
Proof.
  intros [Hw Hb]. pose proof (countEntries_total s).
  pose proof (countEntries_nonneg s Empty). pose proof (countEntries_nonneg s White).
  pose proof (countEntries_nonneg s Black). pose proof (countEntries_nonneg s Unused3).
  lia.
Qed.

Lemma score_range s :
  counted s -> - (boardSize * boardSize) <= score s <= boardSize * boardSize.
Proof.
  intros Hs. pose proof (counted_range s Hs) as (Hw & Hb & Ht).
  unfold score.
  destruct (blackScore_ s =? 0), (whiteScore_ s =? 0),
    (whiteScore_ s + blackScore_ s =? boardSize * boardSize),
    (whiteScore_ s >? blackScore_ s), (blackScore_ s >? whiteScore_ s);
    unfold boardSize in *; lia.
Qed.

Lemma successor_counted s m : legal s m -> counted s -> counted (successor s m).
Proof.
  destruct m as [i j | i2 j2 i j]; cbn [legal successor].
  - intros (Hc & He & _) Hs. apply counted_spawn; assumption.
  - intros (Hc & He & Hc2 & _) Hs.
    pose proof (idx_inRange _ _ Hc) as Hr. pose proof (idx_inRange _ _ Hc2) as Hr2.
    apply counted_spawn; [exact Hc | | apply counted_set; assumption].
    rewrite get_set by assumption.
    destruct (Z.eqb_spec (idx i2 j2) (idx i j)); [reflexivity | exact He].
Qed.

Lemma written_counted s t :
  counted s -> In t (written (generateStatuses s)) -> counted t.
Proof.
  intros Hs Hin. destruct (proj1 (In_written s t) Hin) as (m & Hm & ->).
  apply successor_counted; assumption.
Qed.

Lemma num_written s :
  num (generateStatuses s) = Z.of_nat (length (written (generateStatuses s))).
Proof.
  rewrite generateStatuses_legalMoves. cbn [written num]. rewrite length_map.
  reflexivity.
Qed.

(** The value of a node with moves is the value of one of its successors,
    the largest when White moves and the smallest when Black moves. *)
Lemma exhaustive_node level s :
  written (generateStatuses s) <> [] ->
  let v := exhaustive (S level) s in
  (exists t, In t (written (generateStatuses s)) /\ exhaustive level t = v)
  /\ (forall t, In t (written (generateStatuses s)) ->
        if whiteMoves s then exhaustive level t <= v else v <= exhaustive level t).
Proof.
  intros Hne. cbn [exhaustive]. cbv zeta.
  generalize dependent (written (generateStatuses s)). intros l Hne.
  destruct l as [| t0 l]; [contradiction|]. cbn [map].
  assert (Hin : forall x, In x (exhaustive level t0 :: map (exhaustive level) l) ->
                  exists t, In t (t0 :: l) /\ exhaustive level t = x).
  { intros x Hx. apply (in_map_iff (exhaustive level) (t0 :: l) x) in Hx.
    destruct Hx as (t & Ht & Hx). exists t. tauto. }
  destruct (whiteMoves s).
  - destruct (fold_max_spec (map (exhaustive level) l) (exhaustive level t0)) as [Hub Hmem].
    split; [apply Hin; exact Hmem|].
    intros t Ht. apply Hub. apply (in_map (exhaustive level) (t0 :: l)). exact Ht.
  - destruct (fold_min_spec (map (exhaustive level) l) (exhaustive level t0)) as [Hlb Hmem].
    split; [apply Hin; exact Hmem|].
    intros t Ht. apply Hlb. apply (in_map (exhaustive level) (t0 :: l)). exact Ht.
Qed.

Lemma exhaustive_leaf level s :
  written (generateStatuses s) = [] -> exhaustive level s = score s.
Proof.
  intros E. destruct level; [reflexivity|]. cbn [exhaustive]. rewrite E. reflexivity.
Qed.

Lemma exhaustive_range level : forall s,
  counted s -> - (boardSize * boardSize) <= exhaustive level s <= boardSize * boardSize.
Proof.
  induction level as [| level IH]; intros s Hs; [apply score_range; exact Hs|].
  destruct (written (generateStatuses s)) as [| t0 l] eqn:E.
  - rewrite exhaustive_leaf by exact E. apply score_range; exact Hs.
  - destruct (exhaustive_node level s) as [(t & Ht & <-) _]; [rewrite E; discriminate|].
    apply IH. apply (written_counted s); assumption.
Qed.

(** ** The reported successor *)

Section Reported.

Variable rec : Status -> Z -> Z -> Z.
Variable value : Status -> Z.

Lemma descend_max_index moves : forall i alpha beta newScore newIndex,
  alpha < beta ->
  (forall m, In m moves -> forall a b, a < b -> bounds (rec m a b) (value m) a b) ->
  let res := fst (descend rec true moves i alpha beta newScore newIndex) in
  let k := snd (descend rec true moves i alpha beta newScore newIndex) in
  (alpha < res -> newScore < res ->
     exists m, nth_error moves (k - i) = Some m /\ (i <= k)%nat /\ res <= value m)
  /\ (res <= newScore -> k = newIndex).
Proof.
  induction moves as [| m rest IH]; intros i alpha beta newScore newIndex Hw Hrec.
  - cbn. split; [lia | reflexivity].
  - pose proof (descend_max rec value (m :: rest) i alpha beta newScore newIndex Hw Hrec)
      as Hmax. cbv zeta in Hmax. revert Hmax.
    rewrite descend_max_cons. cbv zeta.
    destruct (Hrec m (or_introl eq_refl) alpha beta Hw) as [Hup Hlow].
    set (r := rec m alpha beta) in *.
    assert (Hi : (if r >? newScore then i else newIndex) =
                 if Z_lt_dec newScore r then i else newIndex)
      by (destruct (Z.gtb_spec r newScore), (Z_lt_dec newScore r); try reflexivity; lia).
    rewrite Hi. clear Hi.
    destruct (Z.leb_spec beta (Z.max alpha r)) as [Hcut | Hcut]; cbn [fst snd].
    + intros _. destruct (Z_lt_dec newScore r) as [Hr | Hr].
      * split; [|lia]. intros H1 H2. exists m. rewrite Nat.sub_diag.
        split; [reflexivity|]. split; [lia|lia].
      * split; [lia | reflexivity].
    + match goal with
      | |- context [descend rec true rest ?i' ?a' beta ?n' ?x'] =>
          pose proof (descend_max rec value rest i' a' beta n' x' Hcut
                        (fun m' Hm' => Hrec m' (or_intror Hm'))) as Hrest;
          specialize (IH i' a' beta n' x' Hcut
                         (fun m' Hm' => Hrec m' (or_intror Hm')));
          cbv zeta in IH, Hrest;
          set (res := fst (descend rec true rest i' a' beta n' x')) in *;
          set (k := snd (descend rec true rest i' a' beta n' x')) in *
      end.
      destruct IH as (IHa & IHb). destruct Hrest as (Hge & _). intros _. split.
      * intros H1 H2.
        destruct (Z_lt_dec (Z.max alpha r) res) as [Ha | Ha];
          [destruct (Z_lt_dec (Z.max newScore r) res) as [Hn | Hn] |].
        -- destruct (IHa Ha Hn) as (m' & Hnth & Hle & Hv). exists m'.
           replace (k - i)%nat with (S (k - S i)) by lia.
           split; [exact Hnth|]. split; [lia | exact Hv].
        -- assert (k = i) as ->
             by (rewrite IHb by lia; destruct (Z_lt_dec newScore r); [reflexivity | lia]).
           exists m. rewrite Nat.sub_diag. split; [reflexivity|]. split; lia.
        -- assert (k = i) as ->
             by (rewrite IHb by lia; destruct (Z_lt_dec newScore r); [reflexivity | lia]).
           exists m. rewrite Nat.sub_diag. split; [reflexivity|]. split; lia.
      * intros Hle. rewrite IHb by lia.
        destruct (Z_lt_dec newScore r); [lia | reflexivity].
Qed.

Lemma descend_min_index moves : forall i alpha beta newScore newIndex,
  alpha < beta ->
  (forall m, In m moves -> forall a b, a < b -> bounds (rec m a b) (value m) a b) ->
  let res := fst (descend rec false moves i alpha beta newScore newIndex) in
  let k := snd (descend rec false moves i alpha beta newScore newIndex) in
  (res < beta -> res < newScore ->
     exists m, nth_error moves (k - i) = Some m /\ (i <= k)%nat /\ value m <= res)
  /\ (newScore <= res -> k = newIndex).
Proof.
  induction moves as [| m rest IH]; intros i alpha beta newScore newIndex Hw Hrec.
  - cbn. split; [lia | reflexivity].
  - pose proof (descend_min rec value (m :: rest) i alpha beta newScore newIndex Hw Hrec)
      as Hmin. cbv zeta in Hmin. revert Hmin.
    rewrite descend_min_cons. cbv zeta.
    destruct (Hrec m (or_introl eq_refl) alpha beta Hw) as [Hup Hlow].
    set (r := rec m alpha beta) in *.
    assert (Hi : (if r <? newScore then i else newIndex) =
                 if Z_lt_dec r newScore then i else newIndex)
      by (destruct (Z.ltb_spec r newScore), (Z_lt_dec r newScore); try reflexivity; lia).
    rewrite Hi. clear Hi.
    destruct (Z.leb_spec (Z.min beta r) alpha) as [Hcut | Hcut]; cbn [fst snd].
    + intros _. destruct (Z_lt_dec r newScore) as [Hr | Hr].
      * split; [|lia]. intros H1 H2. exists m. rewrite Nat.sub_diag.
        split; [reflexivity|]. split; [lia|lia].
      * split; [lia | reflexivity].
    + match goal with
      | |- context [descend rec false rest ?i' alpha ?b' ?n' ?x'] =>
          pose proof (descend_min rec value rest i' alpha b' n' x' Hcut
                        (fun m' Hm' => Hrec m' (or_intror Hm'))) as Hrest;
          specialize (IH i' alpha b' n' x' Hcut
                         (fun m' Hm' => Hrec m' (or_intror Hm')));
          cbv zeta in IH, Hrest;
          set (res := fst (descend rec false rest i' alpha b' n' x')) in *;
          set (k := snd (descend rec false rest i' alpha b' n' x')) in *
      end.
      destruct IH as (IHa & IHb). destruct Hrest as (Hge & _). intros _. split.
      * intros H1 H2.
        destruct (Z_lt_dec res (Z.min beta r)) as [Hb | Hb];
          [destruct (Z_lt_dec res (Z.min newScore r)) as [Hn | Hn] |].
        -- destruct (IHa Hb Hn) as (m' & Hnth & Hle & Hv). exists m'.
           replace (k - i)%nat with (S (k - S i)) by lia.
           split; [exact Hnth|]. split; [lia | exact Hv].
        -- assert (k = i) as ->
             by (rewrite IHb by lia; destruct (Z_lt_dec r newScore); [reflexivity | lia]).
           exists m. rewrite Nat.sub_diag. split; [reflexivity|]. split; lia.
        -- assert (k = i) as ->
             by (rewrite IHb by lia; destruct (Z_lt_dec r newScore); [reflexivity | lia]).
           exists m. rewrite Nat.sub_diag. split; [reflexivity|]. split; lia.
      * intros Hle. rewrite IHb by lia.
        destruct (Z_lt_dec r newScore); [lia | reflexivity].
Qed.

End Reported.

(** ** The search against the exhaustive minimax *)

Section Search.

Variable sort : (Status -> Status -> bool) -> list Status -> list Status.
Hypothesis sort_perm : forall lt l, Permutation (sort lt l) l.

Lemma In_ordered depth level s t :
  In t (ordered sort depth level s) <-> In t (written (generateStatuses s)).
Proof.
  unfold ordered. destruct (negb (Nat.eqb level depth)); [|reflexivity].
  split; apply Permutation_in; [|symmetry]; apply sort_perm.
Qed.

Lemma minimax_node depth level s alpha beta :
  num (generateStatuses s) <> 0 ->
  minimax sort depth (S level) s alpha beta =
  let found :=
    descend (fun m a b => fst (minimax sort depth level m a b)) (whiteMoves s)
            (ordered sort depth (S level) s) 0 alpha beta
            (if whiteMoves s then - (boardSize * boardSize) else boardSize * boardSize)
            0 in
  (fst found, Some (nth (snd found) (ordered sort depth (S level) s) s)).
Proof.
  intros Hne. cbn [minimax]. cbv zeta. fold (ordered sort depth (S level) s).
  destruct (Z.eqb_spec (num (generateStatuses s)) 0) as [E | _]; [contradiction|].
  destruct (descend _ _ _ _ _ _ _ _). reflexivity.
Qed.

Lemma minimax_leaf depth level s alpha beta :
  num (generateStatuses s) = 0 ->
  fst (minimax sort depth level s alpha beta) = score s.
Proof.
  intros E. destruct level; [reflexivity|]. cbn [minimax]. rewrite E. reflexivity.
Qed.

Lemma written_nil s :
  num (generateStatuses s) = 0 <-> written (generateStatuses s) = [].
Proof.
  rewrite num_written. destruct (written (generateStatuses s)); cbn [length].
  - tauto.
  - split; [lia | discriminate].
Qed.

(** The pruned value bounds the exact value as the window tells. *)
Lemma minimax_bounds depth level : forall s alpha beta,
  counted s -> alpha < beta ->
  bounds (fst (minimax sort depth level s alpha beta)) (exhaustive level s) alpha beta.
Proof.
  induction level as [| level IH]; intros s alpha beta Hs Hw.
  - cbn. unfold bounds. lia.
  - destruct (Z.eq_dec (num (generateStatuses s)) 0) as [E | Hne].
    + rewrite minimax_leaf by exact E.
      rewrite exhaustive_leaf by (apply written_nil; exact E).
      unfold bounds. lia.
    + rewrite minimax_node by exact Hne. cbv zeta. cbn [fst].
      assert (Hrec : forall m, In m (ordered sort depth (S level) s) -> forall a b, a < b ->
                       bounds (fst (minimax sort depth level m a b))
                              (exhaustive level m) a b).
      { intros m Hm a b Hab. apply IH; [|exact Hab].
        apply (written_counted s); [exact Hs | apply In_ordered in Hm; exact Hm]. }
      assert (Hne' : written (generateStatuses s) <> [])
        by (intros E; apply Hne; apply written_nil; exact E).
      destruct (exhaustive_node level s Hne') as [(t0 & Ht0 & Hv0) Hext].
      pose proof (exhaustive_range (S level) s Hs) as Hrange.
      set (v := exhaustive (S level) s) in *.
      destruct (whiteMoves s) eqn:Hmax.
      * destruct (descend_max _ (exhaustive level) _ 0%nat alpha beta
                    (- (boardSize * boardSize)) 0%nat Hw Hrec) as (H1 & H2 & H3).
        split.
        -- intros Hlt. rewrite <- Hv0. apply H2; [exact Hlt|].
           apply In_ordered. exact Ht0.
        -- intros Hgt.
           match goal with |- ?r <= _ =>
             destruct (Z_lt_dec (- (boardSize * boardSize)) r) as [Hn | Hn] end.
           ++ destruct (H3 Hgt Hn) as (m & Hm & Hv). apply In_ordered in Hm.
              specialize (Hext m Hm). cbv beta in Hext. lia.
           ++ lia.
      * destruct (descend_min _ (exhaustive level) _ 0%nat alpha beta
                    (boardSize * boardSize) 0%nat Hw Hrec) as (H1 & H2 & H3).
        split.
        -- intros Hlt.
           match goal with |- _ <= ?r =>
             destruct (Z_lt_dec r (boardSize * boardSize)) as [Hn | Hn] end.
           ++ destruct (H3 Hlt Hn) as (m & Hm & Hv). apply In_ordered in Hm.
              specialize (Hext m Hm). cbv beta in Hext. lia.
           ++ lia.
        -- intros Hgt. rewrite <- Hv0. apply H2; [exact Hgt|].
           apply In_ordered. exact Ht0.
Qed.

Lemma search_value depth s :
  counted s -> fst (search sort depth s) = exhaustive depth s.
Proof.
  intros Hs. unfold search.
  assert (Hw : - (boardSize * boardSize) < boardSize * boardSize)
    by (unfold boardSize; lia).
  destruct (minimax_bounds depth depth s _ _ Hs Hw) as [Hup Hlow].
  pose proof (exhaustive_range depth s Hs). lia.
Qed.

(** At the root the reported successor is a generated one whose exact value
    is the value of the root. *)
Lemma search_successor d s :
  counted s -> num (generateStatuses s) <> 0 ->
  exists t, snd (search sort (S d) s) = Some t
            /\ In t (written (generateStatuses s))
            /\ exhaustive d t = exhaustive (S d) s.
Proof.
  intros Hs Hne. pose proof (search_value (S d) s Hs) as Hval. revert Hval.
  unfold search. rewrite minimax_node by exact Hne. cbv zeta. cbn [fst snd].
  unfold ordered. rewrite Nat.eqb_refl. cbn [negb].
  assert (Hw : - (boardSize * boardSize) < boardSize * boardSize)
    by (unfold boardSize; lia).
  assert (Hrec : forall m, In m (written (generateStatuses s)) -> forall a b, a < b ->
                   bounds (fst (minimax sort (S d) d m a b)) (exhaustive d m) a b).
  { intros m Hm a b Hab. apply minimax_bounds; [|exact Hab].
    apply (written_counted s); assumption. }
  assert (Hne' : written (generateStatuses s) <> [])
    by (intros E; apply Hne; apply written_nil; exact E).
  destruct (exhaustive_node d s Hne') as [_ Hext].
  assert (Hchild : forall m, In m (written (generateStatuses s)) ->
            - (boardSize * boardSize) <= exhaustive d m <= boardSize * boardSize)
    by (intros m Hm; apply exhaustive_range; apply (written_counted s); assumption).
  set (v := exhaustive (S d) s) in *.
  assert (Hfirst : forall k, k = 0%nat ->
            exists m, nth_error (written (generateStatuses s)) k = Some m).
  { intros k ->. destruct (written (generateStatuses s)) as [| m l];
      [contradiction | exists m; reflexivity]. }
  destruct (whiteMoves s) eqn:Hmax.
  - destruct (descend_max_index _ (exhaustive d) _ 0%nat _ _
                (- (boardSize * boardSize)) 0%nat Hw Hrec) as (Ha & Hb).
    intros Hval. rewrite Hval in Ha, Hb. rewrite Nat.sub_0_r in Ha.
    destruct (Z_lt_dec (- (boardSize * boardSize)) v) as [Hn | Hn].
    + destruct (Ha Hn Hn) as (m & Hnth & _ & Hv).
      exists m. pose proof (nth_error_In _ _ Hnth) as Hin.
      split; [f_equal; apply nth_error_nth; exact Hnth|]. split; [exact Hin|].
      specialize (Hext m Hin). cbv beta in Hext. lia.
    + destruct (Hfirst _ (Hb ltac:(lia))) as (m & Hnth).
      exists m. pose proof (nth_error_In _ _ Hnth) as Hin.
      split; [f_equal; apply nth_error_nth; exact Hnth|]. split; [exact Hin|].
      specialize (Hext m Hin). specialize (Hchild m Hin). cbv beta in Hext. lia.
  - destruct (descend_min_index _ (exhaustive d) _ 0%nat _ _
                (boardSize * boardSize) 0%nat Hw Hrec) as (Ha & Hb).
    intros Hval. rewrite Hval in Ha, Hb. rewrite Nat.sub_0_r in Ha.
    destruct (Z_lt_dec v (boardSize * boardSize)) as [Hn | Hn].
    + destruct (Ha Hn Hn) as (m & Hnth & _ & Hv).
      exists m. pose proof (nth_error_In _ _ Hnth) as Hin.
      split; [f_equal; apply nth_error_nth; exact Hnth|]. split; [exact Hin|].
      specialize (Hext m Hin). cbv beta in Hext. lia.
    + destruct (Hfirst _ (Hb ltac:(lia))) as (m & Hnth).
      exists m. pose proof (nth_error_In _ _ Hnth) as Hin.
      split; [f_equal; apply nth_error_nth; exact Hnth|]. split; [exact Hin|].
      specialize (Hext m Hin). specialize (Hchild m Hin). cbv beta in Hext. lia.
Qed.

End Search.


(** C1. On every game state (a status whose cached counts are the literal
    counts) and at every depth, the value of the alpha-beta search, with its
    cutoffs and its sort below the root, is the value of the unpruned,
    unsorted exhaustive minimax; and the successor reported at the root is a
    generated successor of best exact value. This holds with any sorting
    function that returns a permutation of its input. *)
Theorem alpha_beta_exhaustive
    (sort : (Status -> Status -> bool) -> list Status -> list Status)
    (sort_perm : forall lt l, Permutation (sort lt l) l)
    (s : Status) (depth : nat) (Hs : counted s) :
  fst (search sort depth s) = exhaustive depth s
  /\ (forall d, depth = S d -> num (generateStatuses s) <> 0 ->
        exists t, snd (search sort depth s) = Some t
                  /\ In t (written (generateStatuses s))
                  /\ exhaustive d t = exhaustive depth s).
Proof.
  split; [apply search_value; assumption|].
  intros d -> Hne. apply search_successor; assumption.
Qed.

Lemma insert_perm lt x l : Permutation (insert lt x l) (x :: l).
Proof.
  induction l as [| y l IH]; cbn [insert]; [apply Permutation_refl|].
  destruct (lt y x); [|apply Permutation_refl].
  apply perm_trans with (y :: x :: l); [apply perm_skip; exact IH | apply perm_swap].
Qed.

Lemma insertionSort_perm lt l : Permutation (insertionSort lt l) l.
Proof.
  induction l as [| x l IH]; [apply perm_nil|].
  cbn [insertionSort fold_right]. fold (insertionSort lt l).
  apply perm_trans with (x :: insertionSort lt l);
    [apply insert_perm | apply perm_skip; exact IH].
Qed.

Lemma alpha_beta_exhaustive_witness :
  fst (search insertionSort 3 initial) = exhaustive 3 initial.
Proof.
  exact (proj1 (alpha_beta_exhaustive insertionSort insertionSort_perm initial 3
                  (proj1 initial_GameState))).
Defined.

(** ** The first move *)

(** A jump leaves its source empty, a spawn leaves no cell of the mover
    empty: no jump yields the successor of a spawn. *)
Lemma jump_not_spawn s i2 j2 i j i' j' :
  legal s (Jump i2 j2 i j) -> onBoard i' j' ->
  successor s (Jump i2 j2 i j) <> spawn i' j' s.
Proof.
  cbn [legal successor]. intros (Hc & He & Hc2 & Hd & Ho) Hc' E.
  pose proof (idx_inRange _ _ Hc2) as Hr2.
  assert (get (spawn i j (set (idx i2 j2) Empty s)) (idx i2 j2) = Empty) as Hl.
  { rewrite get_spawn by assumption. rewrite Hd. cbn [Z.eqb andb].
    rewrite get_set, Z.eqb_refl by assumption. reflexivity. }
  rewrite E, get_spawn, Ho in Hl by assumption.
  pose proof (movingPlayer_cases s) as Hmp.
  destruct (chebyshev i' j' i2 j2 =? 0);
    [|destruct ((chebyshev i' j' i2 j2 =? 1)
                && Entry_eqb (movingPlayer s) (opponent (movingPlayer s)))];
    rewrite Hl in Hmp; destruct Hmp as [[Hmp _] | [Hmp _]]; discriminate Hmp.
Qed.

Lemma corner_jump_legal : legal initial (Jump 0 0 0 2).
Proof.
  cbn [legal]. unfold onBoard, boardSize. repeat split; try lia;
    vm_compute; reflexivity.
Qed.

(** C8, as stated, fails on its remark that no jump is legal at the first
    move: White may jump from the corner (0, 0) to (0, 2), and the generator
    writes that successor. *)
Lemma jump_legal_at_first_move :
  legal initial (Jump 0 0 0 2)
  /\ In (successor initial (Jump 0 0 0 2)) (written (generateStatuses initial)).
Proof.
  split; [exact corner_jump_legal|]. apply (proj2 (In_written initial _)).
  exists (Jump 0 0 0 2). split; [exact corner_jump_legal | reflexivity].
Qed.

(** The scores after the first move: 0 after every legal jump, 1 after
    every legal spawn. *)
Lemma first_scores m :
  legal initial m -> score (successor initial m) = if isJump m then 0 else 1.
Proof.
  intros Hm. apply (proj2 (In_legalMoves initial m)) in Hm.
  assert (forallb (fun m => score (successor initial m) =? (if isJump m then 0 else 1))
                  (legalMoves initial) = true) as Hall by (vm_compute; reflexivity).
  apply Z.eqb_eq. exact (proj1 (forallb_forall _ _) Hall m Hm).
Qed.

(** C8 (amended). From the initial position the search at depth 1 reports
    the spawn at (0, 1), next to White's corner (0, 0), and not a jump,
    although jumps are legal: every legal jump scores 0 and every legal spawn
    1; the value is the material count of the board after that move. *)
Theorem first_move
    (sort : (Status -> Status -> bool) -> list Status -> list Status) :
  search sort 1 initial = (1, Some (spawn 0 1 initial))
  /\ legal initial (Spawn 0 1)
  /\ get initial (idx 0 0) = White /\ chebyshev 0 1 0 0 = 1
  /\ (forall i2 j2 i j, legal initial (Jump i2 j2 i j) ->
        successor initial (Jump i2 j2 i j) <> spawn 0 1 initial)
  /\ whiteScore_ (spawn 0 1 initial) - blackScore_ (spawn 0 1 initial) = 1
  /\ (exists i2 j2 i j, legal initial (Jump i2 j2 i j))
  /\ (forall i2 j2 i j, legal initial (Jump i2 j2 i j) ->
        score (successor initial (Jump i2 j2 i j)) = 0)
  /\ (forall i j, legal initial (Spawn i j) ->
        score (successor initial (Spawn i j)) = 1)
  /\ score (spawn 0 1 initial) = 1.
Proof.
  split; [vm_compute; reflexivity|].
  split.
  { cbn [legal]. unfold onBoard, boardSize. split; [lia|].
    split; [vm_compute; reflexivity|]. exists 0, 0.
    split; [lia|]. split; vm_compute; reflexivity. }
  split; [vm_compute; reflexivity|]. split; [reflexivity|].
  split; [|split; [vm_compute; reflexivity|]].
  - intros i2 j2 i j Hm. apply jump_not_spawn; [exact Hm|].
    unfold onBoard, boardSize. lia.
  - split; [exists 0, 0, 0, 2; exact corner_jump_legal|].
    split; [|split; [|vm_compute; reflexivity]].
    + intros i2 j2 i j Hm. exact (first_scores _ Hm).
    + intros i j Hm. exact (first_scores _ Hm).
Qed.

Lemma first_move_witness :
  search insertionSort 1 initial = (1, Some (spawn 0 1 initial))
  /\ successor initial (Jump 0 0 0 2) <> spawn 0 1 initial
  /\ score (successor initial (Jump 0 0 0 2)) = 0.
Proof.
  destruct (first_move insertionSort) as (H1 & _ & _ & _ & H5 & _ & _ & H8 & _).
  split; [exact H1|]. split; [exact (H5 0 0 0 2 corner_jump_legal)|].
  exact (H8 0 0 0 2 corner_jump_legal).
Defined.

(** * Further properties

    ** Storage words, bit by bit *)

Lemma not64_bits_high x n :
  0 <= x -> bitsPerStorage <= n ->
  Z.testbit (not64 x) n = Z.testbit x n.
Proof.
  intros Hx Hn. unfold not64. rewrite Z.lxor_spec.
  rewrite Z.ones_spec_high by (unfold bitsPerStorage in *; lia).
  apply xorb_false_r.
Qed.

(** All bits of a word after the update of the field at offset [r]: the
    field holds [v], the other bits below 64 are kept, and nothing is left
    above. *)
Lemma update_bits x r v n :
  0 <= r -> r + 2 <= bitsPerStorage -> 0 <= v < 4 -> 0 <= n ->
  Z.testbit (Z.lor (Z.land x (not64 (Z.shiftl 3 r))) (Z.shiftl v r)) n =
  if (r <=? n) && (n <? r + 2) then Z.testbit v (n - r)
  else (n <? bitsPerStorage) && Z.testbit x n.
Proof.
  intros Hr Hr2 Hv Hn.
  destruct (Z.leb_spec r n) as [Hrn | Hrn]; destruct (Z.ltb_spec n (r + 2)) as [Hn2 | Hn2];
    cbn [andb].
  - rewrite update_bits_inside, shiftl_bits by lia.
    replace (r <=? n) with true by (symmetry; apply Z.leb_le; lia). reflexivity.
  - destruct (Z.ltb_spec n bitsPerStorage) as [Hlt | Hge]; cbn [andb].
    + apply update_bits_outside; lia.
    + rewrite Z.lor_spec, Z.land_spec, not64_bits_high, !shiftl_bits
        by (try lia; apply Z.shiftl_nonneg; lia).
      rewrite testbit_3, (small_bits v) by lia.
      replace (n - r <? 2) with false by (symmetry; apply Z.ltb_ge; lia).
      rewrite !andb_false_r. reflexivity.
  - destruct (Z.ltb_spec n bitsPerStorage) as [Hlt | Hge]; cbn [andb];
      [apply update_bits_outside; lia | unfold bitsPerStorage in *; lia].
  - lia.
Qed.

(** The value of a field from its two bits. *)
Lemma field_value x r :
  0 <= r ->
  Z.shiftr (Z.land x (Z.shiftl 3 r)) r =
  Z.b2z (Z.testbit x r) + 2 * Z.b2z (Z.testbit x (r + 1)).
Proof.
  intros Hr. apply Z.bits_inj'. intros n Hn. rewrite field_bits by lia.
  destruct (Z.eq_dec n 0) as [-> | Hn0]; [|destruct (Z.eq_dec n 1) as [-> | Hn1]].
  - cbn [Z.ltb Z.compare andb]. rewrite Z.add_0_l.
    destruct (Z.testbit x r), (Z.testbit x (r + 1)); reflexivity.
  - cbn [Z.ltb Z.compare andb]. rewrite (Z.add_comm 1 r).
    destruct (Z.testbit x r), (Z.testbit x (r + 1)); reflexivity.
  - replace (n <? 2) with false by (symmetry; apply Z.ltb_ge; lia). cbn [andb].
    symmetry. apply small_bits; [|lia].
    destruct (Z.testbit x r), (Z.testbit x (r + 1)); cbn [Z.b2z]; lia.
Qed.

(** The two bits of a field from the entry read there. *)
Lemma get_bits s pos :
  inRange pos ->
  let index := pos * 2 / bitsPerStorage in
  let relPos := pos * 2 - index * bitsPerStorage in
  Z.testbit (rd (storages_ s) index) relPos = Z.testbit (Z_of_Entry (get s pos)) 0
  /\ Z.testbit (rd (storages_ s) index) (relPos + 1)
     = Z.testbit (Z_of_Entry (get s pos)) 1.
Proof.
  intros Hp. destruct (locate pos Hp) as (_ & Hr & _). cbv zeta.
  unfold get. cbv zeta. rewrite field_value by exact Hr.
  set (index := pos * 2 / bitsPerStorage).
  set (relPos := pos * 2 - index * bitsPerStorage).
  generalize (Z.testbit (rd (storages_ s) index) relPos),
             (Z.testbit (rd (storages_ s) index) (relPos + 1)).
  intros b0 b1. destruct b0, b1; split; reflexivity.
Qed.

Lemma range_bits x :
  0 <= x < 2 ^ bitsPerStorage <->
  (forall n, bitsPerStorage <= n -> Z.testbit x n = false).
Proof.
  assert (Hb : 0 <= bitsPerStorage) by (unfold bitsPerStorage; lia).
  split.
  - intros Hx n Hn. destruct (Z.eq_dec x 0) as [-> | Hx0]; [apply Z.bits_0|].
    apply Z.bits_above_log2; [lia|].
    assert (Z.log2 x < bitsPerStorage) by (apply Z.log2_lt_pow2; lia). lia.
  - intros Hhigh.
    assert (x = x mod 2 ^ bitsPerStorage) as ->.
    { apply Z.bits_inj'. intros n Hn.
      destruct (Z.lt_ge_cases n bitsPerStorage) as [Hlt | Hge].
      - rewrite Z.mod_pow2_bits_low by lia. reflexivity.
      - rewrite Z.mod_pow2_bits_high by lia. apply Hhigh. exact Hge. }
    apply Z.mod_pos_bound. apply Z.pow_pos_nonneg; lia.
Qed.

(** ** Tidy storages *)

Lemma get_bits_at s pos index r :
  inRange pos -> pos * 2 = index * bitsPerStorage + r -> 0 <= r < bitsPerStorage ->
  Z.testbit (rd (storages_ s) index) r = Z.testbit (Z_of_Entry (get s pos)) 0
  /\ Z.testbit (rd (storages_ s) index) (r + 1) = Z.testbit (Z_of_Entry (get s pos)) 1.
Proof.
  intros Hp He Hr. pose proof (get_bits s pos Hp) as H. cbv zeta in H.
  assert (pos * 2 / bitsPerStorage = index) as Hi
    by (unfold bitsPerStorage in *; Z.div_mod_to_equations; lia).
  rewrite Hi in H. replace (pos * 2 - index * bitsPerStorage) with r in H by lia.
  exact H.
Qed.

Lemma testbit_turnBit n : 0 <= n -> Z.testbit turnBit n = (n =? bitsPerStorage - 1).
Proof.
  intros Hn. unfold turnBit. rewrite shiftl_bits by (unfold bitsPerStorage; lia).
  destruct (Z.eqb_spec n (bitsPerStorage - 1)) as [-> | Hne].
  - rewrite Z.leb_refl, Z.sub_diag. reflexivity.
  - destruct (Z.leb_spec (bitsPerStorage - 1) n); [|reflexivity]. cbn [andb].
    apply (Z.bits_above_log2 1); [lia | unfold bitsPerStorage in *; cbn; lia].
Qed.

(** Tidy storages are determined by the cells and the turn. *)
Lemma tidy_ext a b :
  tidy a -> tidy b ->
  (forall pos, inRange pos -> get a pos = get b pos) ->
  whiteMoves a = whiteMoves b ->
  storages_ a = storages_ b.
Proof.
  intros (Ha0 & Ha1 & Ham) (Hb0 & Hb1 & Hbm) Hget Hturn.
  assert (Hbits : forall pos index r,
            inRange pos -> pos * 2 = index * bitsPerStorage + r -> 0 <= r < bitsPerStorage ->
            Z.testbit (rd (storages_ a) index) r = Z.testbit (rd (storages_ b) index) r
            /\ Z.testbit (rd (storages_ a) index) (r + 1)
               = Z.testbit (rd (storages_ b) index) (r + 1)).
  { intros pos index r Hp He Hr.
    destruct (get_bits_at a pos index r Hp He Hr) as [-> ->].
    destruct (get_bits_at b pos index r Hp He Hr) as [-> ->].
    rewrite (Hget pos Hp). split; reflexivity. }
  unfold whiteMoves in Hturn. rewrite last_index, !turn_test in Hturn.
  apply (f_equal negb) in Hturn. rewrite !negb_involutive in Hturn.
  cbn [rd] in Hturn.
  destruct (storages_ a) as [a0 a1], (storages_ b) as [b0 b1]. cbn [word0 word1 rd] in *.
  rewrite range_bits in Ha0, Ha1, Hb0, Hb1.
  unfold inRange, bitsNeeded, bitsPerStorage, boardSize in *. f_equal.
  - apply Z.bits_inj'. intros n Hn.
    destruct (Z.lt_ge_cases n 64) as [Hlt | Hge];
      [|rewrite Ha0, Hb0 by lia; reflexivity].
    assert (exists pos, 0 <= pos < 32 /\ (n = pos * 2 \/ n = pos * 2 + 1)) as (pos & Hp & Hn2)
      by (exists (n / 2); Z.div_mod_to_equations; lia).
    destruct (Hbits pos 0 (pos * 2)) as [H0 H1]; [lia | lia | lia |].
    cbn [rd] in H0, H1. destruct Hn2 as [-> | ->]; assumption.
  - apply Z.bits_inj'. intros n Hn.
    destruct (Z.lt_ge_cases n 64) as [Hlt | Hge];
      [|rewrite Ha1, Hb1 by lia; reflexivity].
    destruct (Z.eq_dec n 63) as [-> | Hne]; [exact Hturn|].
    destruct (Z.lt_ge_cases n 34) as [Hlow | Hmid];
      [|rewrite Ham, Hbm by lia; reflexivity].
    assert (exists pos, 32 <= pos < 49
                        /\ (n = pos * 2 - 64 \/ n = pos * 2 - 64 + 1)) as (pos & Hp & Hn2)
      by (exists (32 + n / 2); Z.div_mod_to_equations; lia).
    destruct (Hbits pos 1 (pos * 2 - 64)) as [H0 H1]; [lia | lia | lia |].
    cbn [rd] in H0, H1. destruct Hn2 as [-> | ->]; assumption.
Qed.

Lemma tidy_storages a b : storages_ a = storages_ b -> tidy a -> tidy b.
Proof. unfold tidy. intros ->. tauto. Qed.

Lemma tidy_setNoScoreAdjust pos v s :
  inRange pos -> tidy s -> tidy (setNoScoreAdjust pos v s).
Proof.
  intros Hp (H0 & H1 & Hm).
  destruct (locate pos Hp) as (Hi & Hr & Hr2 & _ & He). cbv zeta in *.
  pose proof (Z_of_Entry_range v) as Hv.
  unfold tidy, setNoScoreAdjust. cbv zeta. cbn [storages_].
  set (r := pos * 2 - pos * 2 / bitsPerStorage * bitsPerStorage) in *.
  assert (Hhigh : forall x n, bitsPerStorage <= n ->
            Z.testbit (Z.lor (Z.land x (not64 (Z.shiftl 3 r)))
                             (Z.shiftl (Z_of_Entry v) r)) n = false).
  { intros x n Hn. rewrite update_bits by (unfold bitsPerStorage in *; lia).
    destruct (Z.ltb_spec n (r + 2)); [lia|]. rewrite andb_false_r.
    destruct (Z.ltb_spec n bitsPerStorage); [lia | reflexivity]. }
  destruct (storages_ s) as [w0 w1]. cbn [word0 word1] in *.
  destruct Hi as [Hi | Hi]; rewrite Hi in *; cbn [wr rd word0 word1].
  - split; [apply range_bits; intros n Hn; apply Hhigh; exact Hn|]. tauto.
  - split; [exact H0|]. split; [apply range_bits; intros n Hn; apply Hhigh; exact Hn|].
    intros n Hn. unfold inRange, bitsNeeded, bitsPerStorage, boardSize in *.
    rewrite update_bits by (unfold bitsPerStorage; lia).
    destruct (Z.leb_spec r n); destruct (Z.ltb_spec n (r + 2)); cbn [andb]; try lia;
      rewrite Hm by lia; apply andb_false_r.
Qed.

Lemma tidy_set pos v s : inRange pos -> tidy s -> tidy (set pos v s).
Proof.
  intros Hp Hs. destruct (set_unfold pos v s) as [[-> _] | [-> _]]; [exact Hs|].
  apply (tidy_storages (setNoScoreAdjust pos v s)); [reflexivity|].
  apply tidy_setNoScoreAdjust; assumption.
Qed.

Lemma tidy_switchPlayerTurn s : tidy s -> tidy (switchPlayerTurn s).
Proof.
  intros (H0 & H1 & Hm). unfold tidy, switchPlayerTurn. cbv zeta. cbn [storages_].
  rewrite last_index. destruct (storages_ s) as [w0 w1]. cbn [wr rd word0 word1] in *.
  split; [exact H0|]. rewrite range_bits in H1. split.
  - apply range_bits. intros n Hn.
    rewrite Z.lxor_spec, H1, testbit_turnBit by (unfold bitsPerStorage in *; lia).
    destruct (Z.eqb_spec n (bitsPerStorage - 1)); [lia | reflexivity].
  - intros n Hn. unfold bitsNeeded, boardSize in *.
    rewrite Z.lxor_spec, Hm, testbit_turnBit by (unfold bitsPerStorage in *; lia).
    destruct (Z.eqb_spec n (bitsPerStorage - 1)); [lia | reflexivity].
Qed.

Lemma tidy_put i j s : onBoard i j -> tidy s -> tidy (put i j s).
Proof.
  intros Hc Hs. unfold put. cbv zeta. apply tidy_switchPlayerTurn.
  destruct (whiteMoves s);
    apply (tidy_storages (setNoScoreAdjust (i * boardSize + j) (movingPlayer s) s));
    try reflexivity; apply tidy_setNoScoreAdjust; try assumption;
    apply (idx_inRange i j Hc).
Qed.

Lemma tidy_captures np cp ps : forall s,
  Forall inRange ps -> tidy s -> tidy (captures np cp ps s).
Proof.
  induction ps as [| p ps IH]; intros s Hps Hs; [exact Hs|].
  inversion Hps; subst. rewrite captures_cons. apply IH; [assumption|].
  rewrite capture_unfold. destruct (Entry_eqb (get s p) np); [|exact Hs].
  apply tidy_set; assumption.
Qed.

Lemma tidy_spawn i j s : onBoard i j -> tidy s -> tidy (spawn i j s).
Proof.
  intros Hc Hs. rewrite spawn_captures.
  apply tidy_captures; [apply inspected_inRange; exact Hc | apply tidy_put; assumption].
Qed.

Lemma tidy_successor s m : legal s m -> tidy s -> tidy (successor s m).
Proof.
  destruct m as [i j | i2 j2 i j]; cbn [legal successor].
  - intros (Hc & _) Hs. apply tidy_spawn; assumption.
  - intros (Hc & _ & Hc2 & _) Hs. apply tidy_spawn; [exact Hc|].
    apply tidy_set; [apply idx_inRange; exact Hc2 | exact Hs].
Qed.

Lemma tidy_Status0 : tidy Status0.
Proof.
  unfold tidy, Status0. cbn [storages_ word0 word1].
  split; [cbn; lia|]. split; [cbn; lia|]. intros n _. apply Z.bits_0.
Qed.

Lemma tidy_initial : tidy initial.
Proof.
  unfold initial. cbv zeta.
  repeat (apply tidy_set; [unfold inRange, boardSize; lia|]). apply tidy_Status0.
Qed.

Lemma reachable_tidy s : reachable s -> tidy s.
Proof.
  induction 1 as [| s t _ IH Hin | s _ IH _].
  - apply tidy_initial.
  - destruct (proj1 (In_written s t) Hin) as (m & Hm & ->).
    apply tidy_successor; assumption.
  - apply tidy_switchPlayerTurn. exact IH.
Qed.

(** ** Equality of statuses *)

Lemma Storages_eqb_eq a b : Storages_eqb a b = true <-> a = b.
Proof.
  unfold Storages_eqb. destruct a as [a0 a1], b as [b0 b1]. cbn [word0 word1].
  rewrite andb_true_iff, !Z.eqb_eq. split; [intros [-> ->]; reflexivity|].
  intros [= -> ->]. split; reflexivity.
Qed.

Lemma get_storages a b pos : storages_ a = storages_ b -> get a pos = get b pos.
Proof. unfold get. intros ->. reflexivity. Qed.

Lemma whiteMoves_storages a b : storages_ a = storages_ b -> whiteMoves a = whiteMoves b.
Proof. unfold whiteMoves. intros ->. reflexivity. Qed.

Lemma countEntries_storages a b e :
  storages_ a = storages_ b -> countEntries a e = countEntries b e.
Proof.
  intros E. apply countEntries_same. intros q _. apply get_storages. exact E.
Qed.

(** Counted statuses with the same storages are the same status. *)
Lemma counted_storages a b :
  counted a -> counted b -> storages_ a = storages_ b -> a = b.
Proof.
  intros [Haw Hab] [Hbw Hbb] E.
  rewrite (countEntries_storages a b White E) in Haw.
  rewrite (countEntries_storages a b Black E) in Hab.
  destruct a as [sa wa ba], b as [sb wb bb]. cbn [storages_ whiteScore_ blackScore_] in *.
  congruence.
Qed.

(** Tidy statuses with the same cells, turn and scores are the same
    status. *)
Lemma Status_ext a b :
  tidy a -> tidy b ->
  (forall pos, inRange pos -> get a pos = get b pos) ->
  whiteMoves a = whiteMoves b ->
  whiteScore_ a = whiteScore_ b -> blackScore_ a = blackScore_ b ->
  a = b.
Proof.
  intros Ha Hb Hget Hturn Hw Hbl. pose proof (tidy_ext a b Ha Hb Hget Hturn) as E.
  destruct a as [sa wa ba], b as [sb wb bb]. cbn [storages_ whiteScore_ blackScore_] in *.
  congruence.
Qed.

(** X1. On statuses whose scores are the literal counts and whose storages
    are tidy (as those of every reachable status are), [operator==] never
    fails its assertion, holds exactly when all cells and the mover agree,
    and then the two statuses are the same, scores included. *)
Theorem operator_eq_spec (a b : Status)
    (Ha : tidy a) (Hb : tidy b) (Hca : counted a) (Hcb : counted b) :
  Status_eqb a b <> None
  /\ (Status_eqb a b = Some true <->
      (forall pos, inRange pos -> get a pos = get b pos)
      /\ whiteMoves a = whiteMoves b)
  /\ (Status_eqb a b = Some true -> a = b).
Proof.
  unfold Status_eqb.
  destruct (Storages_eqb (storages_ a) (storages_ b)) eqn:E; cbn [negb orb].
  - apply Storages_eqb_eq in E. pose proof (counted_storages a b Hca Hcb E) as Heq.
    subst b. rewrite !Z.eqb_refl. cbn [andb].
    split; [discriminate|]. split; [|reflexivity].
    split; [intros _; split; reflexivity | reflexivity].
  - split; [discriminate|]. split; [|discriminate].
    split; [discriminate|]. intros [Hget Hturn].
    pose proof (tidy_ext a b Ha Hb Hget Hturn) as Hs.
    apply Storages_eqb_eq in Hs. congruence.
Qed.

Lemma operator_eq_spec_witness :
  Status_eqb (spawn 0 1 initial) (spawn 1 0 initial) <> None
  /\ (Status_eqb initial initial = Some true -> initial = initial).
Proof.
  assert (Hc : forall i j, onBoard i j -> get initial (idx i j) = Empty ->
                 counted (spawn i j initial))
    by (intros i j H1 H2; apply counted_spawn;
        [exact H1 | exact H2 | exact (proj1 initial_GameState)]).
  assert (H01 : onBoard 0 1) by (unfold onBoard, boardSize; lia).
  assert (H10 : onBoard 1 0) by (unfold onBoard, boardSize; lia).
  split.
  - apply (operator_eq_spec (spawn 0 1 initial) (spawn 1 0 initial));
      try (apply tidy_spawn; [assumption | apply tidy_initial]);
      apply Hc; try assumption; vm_compute; reflexivity.
  - apply (operator_eq_spec initial initial);
      try apply tidy_initial; exact (proj1 initial_GameState).
Defined.

(** ** Laws of [set] and [switchPlayerTurn] *)

(** X2. Reading after [set]: the written position holds the new entry, every
    other position and the mover are unchanged, and each score moves by the
    difference between the new and the old occupant. *)
Theorem set_lookup (s : Status) (pos q : Z) (v : Entry)
    (Hp : inRange pos) (Hq : inRange q) :
  get (set pos v s) q = (if pos =? q then v else get s q)
  /\ whiteMoves (set pos v s) = whiteMoves s
  /\ whiteScore_ (set pos v s) = whiteScore_ s - ind (get s pos) White + ind v White
  /\ blackScore_ (set pos v s) = blackScore_ s - ind (get s pos) Black + ind v Black.
Proof.
  split; [apply get_set; assumption|].
  split; [apply whiteMoves_set; assumption|].
  split; [apply whiteScore_set | apply blackScore_set].
Qed.

Lemma set_lookup_witness :
  get (set 24 Black initial) 24 = Black /\ get (set 24 Black initial) 0 = White.
Proof.
  assert (H24 : inRange 24) by (unfold inRange, boardSize; lia).
  assert (H0 : inRange 0) by (unfold inRange, boardSize; lia).
  split.
  - exact (proj1 (set_lookup initial 24 24 Black H24 H24)).
  - exact (proj1 (set_lookup initial 24 0 Black H24 H0)).
Defined.

(** X3. On tidy storages the last [set] of a position wins, [set]s of two
    different positions commute, and writing back the entry read is the
    identity. *)
Theorem set_laws (s : Status) (p q : Z) (u v : Entry)
    (Hs : tidy s) (Hp : inRange p) (Hq : inRange q) :
  set p v (set p u s) = set p v s
  /\ (p <> q -> set p v (set q u s) = set q u (set p v s))
  /\ set p (get s p) s = s.
Proof.
  split; [|split].
  - apply Status_ext; try (repeat apply tidy_set; assumption).
    + intros pos Hpos. rewrite !get_set by assumption.
      destruct (p =? pos); reflexivity.
    + rewrite !whiteMoves_set by assumption. reflexivity.
    + rewrite !whiteScore_set, get_set, Z.eqb_refl by assumption. lia.
    + rewrite !blackScore_set, get_set, Z.eqb_refl by assumption. lia.
  - intros Hne. apply Status_ext; try (repeat apply tidy_set; assumption).
    + intros pos Hpos. rewrite !get_set by assumption.
      destruct (Z.eqb_spec p pos), (Z.eqb_spec q pos); try reflexivity; lia.
    + rewrite !whiteMoves_set by assumption. reflexivity.
    + rewrite !whiteScore_set, !get_set by assumption.
      destruct (Z.eqb_spec p q), (Z.eqb_spec q p); try lia.
    + rewrite !blackScore_set, !get_set by assumption.
      destruct (Z.eqb_spec p q), (Z.eqb_spec q p); try lia.
  - unfold set. rewrite Entry_eqb_refl. reflexivity.
Qed.

Lemma set_laws_witness :
  set 24 White (set 24 Black initial) = set 24 White initial
  /\ set 24 White (set 25 Black initial) = set 25 Black (set 24 White initial).
Proof.
  assert (H24 : inRange 24) by (unfold inRange, boardSize; lia).
  assert (H25 : inRange 25) by (unfold inRange, boardSize; lia).
  split.
  - exact (proj1 (set_laws initial 24 24 Black White tidy_initial H24 H24)).
  - apply (proj1 (proj2 (set_laws initial 24 25 Black White tidy_initial H24 H25))). lia.
Defined.

Lemma lxor_twice x t : Z.lxor (Z.lxor x t) t = x.
Proof. rewrite Z.lxor_assoc, Z.lxor_nilpotent, Z.lxor_0_r. reflexivity. Qed.

(** X4. [switchPlayerTurn] changes the mover and nothing else, and applying
    it twice gives the status back; [blackMoves] is the negation of
    [whiteMoves]. *)
Theorem switchPlayerTurn_spec (s : Status) :
  switchPlayerTurn (switchPlayerTurn s) = s
  /\ whiteMoves (switchPlayerTurn s) = negb (whiteMoves s)
  /\ blackMoves s = negb (whiteMoves s)
  /\ (forall pos, inRange pos -> get (switchPlayerTurn s) pos = get s pos)
  /\ whiteScore_ (switchPlayerTurn s) = whiteScore_ s
  /\ blackScore_ (switchPlayerTurn s) = blackScore_ s.
Proof.
  split; [|split; [apply whiteMoves_switchPlayerTurn|]].
  - unfold switchPlayerTurn. cbv zeta. cbn [storages_ whiteScore_ blackScore_].
    rewrite last_index. destruct s as [[w0 w1] w b].
    cbn [storages_ wr rd word0 word1]. rewrite lxor_twice. reflexivity.
  - split; [reflexivity|].
    split; [intros pos Hp; apply get_switchPlayerTurn; exact Hp|].
    split; reflexivity.
Qed.

Lemma switchPlayerTurn_spec_witness :
  get (switchPlayerTurn initial) 0 = get initial 0.
Proof.
  apply (switchPlayerTurn_spec initial). unfold inRange, boardSize. lia.
Defined.

(** ** The end of the game *)

(** X5. On a status whose scores are the literal counts, the score lies
    between -N * N and N * N, and the test of [main] for the end of the game,
    [abs(score()) >= N * N], holds exactly when a colour has no blob left or
    the board is full; a full board is never a tie, N * N being odd. *)
Theorem score_terminal (s : Status) (Hs : counted s) :
  - (boardSize * boardSize) <= score s <= boardSize * boardSize
  /\ (Z.abs (score s) >= boardSize * boardSize <->
      blackScore_ s = 0 \/ whiteScore_ s = 0
      \/ whiteScore_ s + blackScore_ s = boardSize * boardSize)
  /\ (whiteScore_ s + blackScore_ s = boardSize * boardSize -> score s <> 0).
Proof.
  pose proof (counted_range s Hs) as (Hw & Hb & Ht).
  unfold score.
  destruct (Z.eqb_spec (blackScore_ s) 0), (Z.eqb_spec (whiteScore_ s) 0),
    (Z.eqb_spec (whiteScore_ s + blackScore_ s) (boardSize * boardSize)),
    (Z.gtb_spec (whiteScore_ s) (blackScore_ s)),
    (Z.gtb_spec (blackScore_ s) (whiteScore_ s));
    unfold boardSize in *; lia.
Qed.

Lemma score_terminal_witness : Z.abs (score stuck) >= boardSize * boardSize.
Proof.
  assert (Hs : counted stuck) by (split; vm_compute; reflexivity).
  apply (score_terminal stuck Hs). right. left. vm_compute. reflexivity.
Defined.

(** ** Material *)

Lemma holding_nonneg s e cs : 0 <= holding s e cs.
Proof. unfold holding. lia. Qed.

Lemma movingPlayer_set pos v s :
  inRange pos -> movingPlayer (set pos v s) = movingPlayer s.
Proof. intros Hp. unfold movingPlayer. rewrite whiteMoves_set by exact Hp. reflexivity. Qed.

(** X6. A legal spawn adds exactly one blob to the board and a legal jump
    none; either way the mover's count does not shrink and the opponent's
    count does not grow. *)
Theorem successor_material (s : Status) (m : Move) (Hm : legal s m) :
  whiteScore_ (successor s m) + blackScore_ (successor s m)
  = whiteScore_ s + blackScore_ s + (if isJump m then 0 else 1)
  /\ (if whiteMoves s
      then whiteScore_ s <= whiteScore_ (successor s m)
           /\ blackScore_ (successor s m) <= blackScore_ s
      else blackScore_ s <= blackScore_ (successor s m)
           /\ whiteScore_ (successor s m) <= whiteScore_ s).
Proof.
  destruct m as [i j | i2 j2 i j]; cbn [legal successor isJump] in *.
  - destruct Hm as (Hc & _).
    rewrite whiteScore_spawn, blackScore_spawn by exact Hc.
    pose proof (holding_nonneg s (opponent (movingPlayer s)) (around 1 i j)) as Hk.
    destruct (movingPlayer_cases s) as [[E ->] | [E ->]]; rewrite E in *;
      cbn [opponent ind Entry_eqb] in *; lia.
  - destruct Hm as (Hc & _ & Hc2 & _ & Ho).
    pose proof (idx_inRange _ _ Hc2) as Hr2.
    rewrite whiteScore_spawn, blackScore_spawn by exact Hc.
    rewrite movingPlayer_set, whiteScore_set, blackScore_set, Ho by exact Hr2.
    pose proof (holding_nonneg (set (idx i2 j2) Empty s) (opponent (movingPlayer s))
                  (around 1 i j)) as Hk.
    destruct (movingPlayer_cases s) as [[E ->] | [E ->]]; rewrite E in *;
      cbn [opponent ind Entry_eqb] in *; lia.
Qed.

Lemma successor_material_witness :
  whiteScore_ (successor initial (Jump 0 0 0 2))
  + blackScore_ (successor initial (Jump 0 0 0 2))
  = whiteScore_ initial + blackScore_ initial + 0.
Proof.
  exact (proj1 (successor_material initial (Jump 0 0 0 2) corner_jump_legal)).
Defined.

(** ** What the search reports *)

Lemma descend_index rec maximizing moves : forall i alpha beta newScore newIndex,
  let k := snd (descend rec maximizing moves i alpha beta newScore newIndex) in
  k = newIndex \/ (i <= k < i + length moves)%nat.
Proof.
  induction moves as [| m rest IH]; intros i alpha beta newScore newIndex;
    [left; reflexivity|].
  cbv zeta. destruct maximizing.
  - rewrite descend_max_cons. cbv zeta.
    destruct (Z.leb_spec beta (Z.max alpha (rec m alpha beta))); cbn [snd length].
    + destruct (rec m alpha beta >? newScore); [right; lia | left; reflexivity].
    + match goal with
      | |- context [descend rec true rest ?i' ?a' ?b' ?n' ?x'] =>
          specialize (IH i' a' b' n' x'); cbv zeta in IH; destruct IH as [-> | IH]
      end.
      * destruct (rec m alpha beta >? newScore); [right; lia | left; reflexivity].
      * right. lia.
  - rewrite descend_min_cons. cbv zeta.
    destruct (Z.leb_spec (Z.min beta (rec m alpha beta)) alpha); cbn [snd length].
    + destruct (rec m alpha beta <? newScore); [right; lia | left; reflexivity].
    + match goal with
      | |- context [descend rec false rest ?i' ?a' ?b' ?n' ?x'] =>
          specialize (IH i' a' b' n' x'); cbv zeta in IH; destruct IH as [-> | IH]
      end.
      * destruct (rec m alpha beta <? newScore); [right; lia | left; reflexivity].
      * right. lia.
Qed.

(** What the root call stores through [nextStatus]. *)
Lemma search_root
    (sort : (Status -> Status -> bool) -> list Status -> list Status)
    (s : Status) (d : nat) :
  (num (generateStatuses s) = 0 ->
     snd (search sort (S d) s) = Some (switchPlayerTurn s))
  /\ (num (generateStatuses s) <> 0 ->
      exists t, snd (search sort (S d) s) = Some t
                /\ In t (written (generateStatuses s))).
Proof.
  unfold search. split.
  - intros E. cbn [minimax]. rewrite E. reflexivity.
  - intros Hne. rewrite (minimax_node sort (S d) d s _ _ Hne). cbv zeta. cbn [snd].
    unfold ordered. rewrite Nat.eqb_refl. cbn [negb].
    match goal with
    | |- context [snd (descend ?r ?mx ?l ?i ?a ?b ?n ?x)] =>
        pose proof (descend_index r mx l i a b n x) as Hk; cbv zeta in Hk;
        set (k := snd (descend r mx l i a b n x)) in *
    end.
    assert (Hlen : (k < length (written (generateStatuses s)))%nat).
    { assert (written (generateStatuses s) <> []) as Hw
        by (intros Hnil; apply Hne; apply written_nil; exact Hnil).
      destruct (written (generateStatuses s)); [contradiction|].
      cbn [length] in *. lia. }
    exists (nth k (written (generateStatuses s)) s).
    split; [reflexivity | apply nth_In; exact Hlen].
Qed.

(** X7. At any depth from 1 on and on every status, the search reports a
    status: one of the generated successors (the index kept by the loop stays
    inside the moves) or, without any, the forced pass. The mover of the
    reported status is always the other player, as [moveString] asserts. *)
Theorem search_reports
    (sort : (Status -> Status -> bool) -> list Status -> list Status)
    (s : Status) (depth : nat) (Hdepth : (1 <= depth)%nat) :
  exists t, snd (search sort depth s) = Some t
            /\ edge s t
            /\ whiteMoves t = negb (whiteMoves s).
Proof.
  destruct depth as [| d]; [lia|].
  destruct (search_root sort s d) as [Hpass Hmove].
  destruct (Z.eq_dec (num (generateStatuses s)) 0) as [E | Hne].
  - exists (switchPlayerTurn s). split; [apply Hpass; exact E|].
    split; [apply edge_pass; exact E | apply whiteMoves_switchPlayerTurn].
  - destruct (Hmove Hne) as (t & Ht & Hin). exists t. split; [exact Ht|].
    split; [apply edge_move; exact Hin | apply whiteMoves_written; exact Hin].
Qed.

Lemma search_reports_witness :
  exists t, snd (search insertionSort 2 initial) = Some t
            /\ edge initial t
            /\ whiteMoves t = negb (whiteMoves initial).
Proof. apply (search_reports insertionSort initial 2). lia. Defined.

(** ** The cells of a successor *)

Lemma Entry_eqb_opponent s e :
  e = Empty \/ e = movingPlayer s -> Entry_eqb e (opponent (movingPlayer s)) = false.
Proof.
  intros He. apply Entry_eqb_neq.
  destruct (movingPlayer_cases s) as [[E _] | [E _]]; rewrite E in *;
    destruct He as [-> | ->]; discriminate.
Qed.

Lemma movingPlayer_not_Empty s : movingPlayer s <> Empty.
Proof. destruct (movingPlayer_cases s) as [[-> _] | [-> _]]; discriminate. Qed.

(** A field that [spawn] finds empty, and that is not its destination, stays
    empty. *)
Lemma spawn_keeps_empty i j s a b :
  onBoard i j -> onBoard a b -> (a, b) <> (i, j) -> get s (idx a b) = Empty ->
  get (spawn i j s) (idx a b) = Empty.
Proof.
  intros Hc Hc2 Hne He. rewrite get_spawn by assumption.
  destruct (Z.eqb_spec (chebyshev i j a b) 0) as [E | _].
  - apply chebyshev_0 in E. destruct E; subst. contradiction.
  - rewrite He, Entry_eqb_opponent, andb_false_r by (left; reflexivity). reflexivity.
Qed.

(** A field that [spawn] finds non-empty is non-empty afterwards. *)
Lemma spawn_keeps_blob i j s a b :
  onBoard i j -> onBoard a b -> get s (idx a b) <> Empty ->
  get (spawn i j s) (idx a b) <> Empty.
Proof.
  intros Hc Hc2 Hne. rewrite get_spawn by assumption.
  destruct (chebyshev i j a b =? 0); [apply movingPlayer_not_Empty|].
  destruct (_ && _); [apply movingPlayer_not_Empty | exact Hne].
Qed.

Lemma get_vacated s i2 j2 a b :
  onBoard i2 j2 -> onBoard a b ->
  get (set (idx i2 j2) Empty s) (idx a b) =
  if idx i2 j2 =? idx a b then Empty else get s (idx a b).
Proof. intros H2 H. apply get_set; apply idx_inRange; assumption. Qed.

Lemma idx_neq i j a b :
  onBoard i j -> onBoard a b -> (i, j) <> (a, b) -> idx i j <> idx a b.
Proof.
  intros H1 H2 Hne E. apply Hne. apply idx_inj in E; [|assumption|assumption].
  destruct E; subst. reflexivity.
Qed.

Lemma successor_dest s m :
  legal s m -> get (successor s m) (cidx (dest m)) = movingPlayer s.
Proof.
  destruct m as [i j | i2 j2 i j]; cbn [legal successor dest]; unfold cidx; cbn [fst snd].
  - intros (Hc & _). rewrite get_spawn by assumption.
    replace (chebyshev i j i j) with 0 by (unfold chebyshev; lia). reflexivity.
  - intros (Hc & _ & Hc2 & _). rewrite get_spawn by assumption.
    replace (chebyshev i j i j) with 0 by (unfold chebyshev; lia).
    cbn [Z.eqb]. apply movingPlayer_set. apply idx_inRange. exact Hc2.
Qed.

Lemma successor_keeps_empty s m a b :
  legal s m -> onBoard a b -> (a, b) <> dest m -> get s (idx a b) = Empty ->
  get (successor s m) (idx a b) = Empty.
Proof.
  destruct m as [i j | i2 j2 i j]; cbn [legal successor dest].
  - intros (Hc & _) Hab Hne He. apply spawn_keeps_empty; assumption.
  - intros (Hc & _ & Hc2 & _) Hab Hne He. apply spawn_keeps_empty; try assumption.
    rewrite get_vacated by assumption. destruct (_ =? _); [reflexivity | exact He].
Qed.

Lemma successor_source s i2 j2 i j :
  legal s (Jump i2 j2 i j) -> get (successor s (Jump i2 j2 i j)) (idx i2 j2) = Empty.
Proof.
  cbn [legal successor]. intros (Hc & He & Hc2 & Hd & Ho).
  apply spawn_keeps_empty; try assumption.
  - intros [= -> ->]. unfold chebyshev in Hd. lia.
  - rewrite get_vacated, Z.eqb_refl by assumption. reflexivity.
Qed.

Lemma successor_keeps_blob s m a b :
  legal s m -> onBoard a b -> get s (idx a b) <> Empty ->
  (forall i j, m <> Jump a b i j) ->
  get (successor s m) (idx a b) <> Empty.
Proof.
  destruct m as [i j | i2 j2 i j]; cbn [legal successor].
  - intros (Hc & _) Hab Hne _. apply spawn_keeps_blob; assumption.
  - intros (Hc & _ & Hc2 & _) Hab Hne Hsrc. apply spawn_keeps_blob; try assumption.
    rewrite get_vacated by assumption.
    destruct (Z.eqb_spec (idx i2 j2) (idx a b)) as [E | _]; [|exact Hne].
    apply idx_inj in E; [|assumption|assumption]. destruct E; subst.
    exfalso. apply (Hsrc i j). reflexivity.
Qed.

(** ** A status against the generated successors *)

Lemma cell_eq_dec (c d : Z * Z) : {c = d} + {c <> d}.
Proof. decide equality; apply Z.eq_dec. Qed.

Lemma storages_cells a b :
  storages_ a = storages_ b -> forall i j, get a (idx i j) = get b (idx i j).
Proof. intros E i j. apply get_storages. exact E. Qed.

(** Only the spawn at (i, j) has the storages of [spawn(i, j)]. *)
Lemma spawn_matches s i j m :
  onBoard i j -> legal s m ->
  storages_ (successor s m) = storages_ (spawn i j s) ->
  m = Spawn i j.
Proof.
  intros Hc Hm E. pose proof (storages_cells _ _ E) as Hget.
  destruct m as [i' j' | i2 j2 i' j'].
  - pose proof (successor_dest s _ Hm) as Hd. unfold cidx in Hd. cbn [dest fst snd] in Hd.
    destruct Hm as (Hc' & He & _).
    destruct (Z.eq_dec i' i) as [-> | Hi]; [destruct (Z.eq_dec j' j) as [-> | Hj]|];
      [reflexivity | |];
      exfalso; apply (movingPlayer_not_Empty s); rewrite <- Hd, Hget;
      apply spawn_keeps_empty; try assumption; congruence.
  - exfalso. pose proof (successor_source s _ _ _ _ Hm) as Hsrc.
    destruct Hm as (_ & _ & Hc2 & _ & Ho).
    rewrite Hget in Hsrc. revert Hsrc. apply spawn_keeps_blob; try assumption.
    rewrite Ho. apply movingPlayer_not_Empty.
Qed.

(** Only the jump from (i2, j2) to (i, j) has the storages of the vacated
    and spawned status, unless (i2, j2) was empty. *)
Lemma jump_matches s i2 j2 i j m :
  onBoard i2 j2 -> onBoard i j -> legal s m ->
  storages_ (successor s m) = storages_ (spawn i j (set (idx i2 j2) Empty s)) ->
  m = Jump i2 j2 i j \/ (get s (idx i2 j2) = Empty /\ m = Spawn i j).
Proof.
  intros Hc2 Hc Hm E.
  destruct (set_unfold (idx i2 j2) Empty s) as [[Hset Hold] | [_ Hold]].
  - right. split; [exact Hold|]. rewrite Hset in E. apply (spawn_matches s i j m Hc Hm E).
  - left. pose proof (storages_cells _ _ E) as Hget.
    set (t := spawn i j (set (idx i2 j2) Empty s)) in *.
    assert (Hempty : forall a b, onBoard a b -> (a, b) <> (i, j) ->
              get s (idx a b) = Empty -> get t (idx a b) = Empty).
    { intros a b Hab Hne He. apply spawn_keeps_empty; try assumption.
      rewrite get_vacated by assumption. destruct (_ =? _); [reflexivity | exact He]. }
    assert (Hdest : dest m = (i, j)).
    { destruct (cell_eq_dec (dest m) (i, j)) as [Heq | Hne]; [exact Heq|]. exfalso.
      pose proof (successor_dest s m Hm) as Hd. unfold cidx in Hd.
      apply (movingPlayer_not_Empty s). rewrite <- Hd, Hget.
      destruct m as [i' j' | a2 b2 i' j']; cbn [dest fst snd legal] in *;
        apply Hempty; tauto. }
    assert (Hij : get s (idx i j) = Empty)
      by (destruct m; cbn [dest legal] in *; injection Hdest as -> ->; tauto).
    assert (Hne : (i2, j2) <> (i, j)) by (intros [= -> ->]; contradiction).
    assert (Hold' : get t (idx i2 j2) = Empty).
    { apply spawn_keeps_empty; try assumption.
      rewrite get_vacated, Z.eqb_refl by assumption. reflexivity. }
    destruct m as [i' j' | a2 b2 i' j']; cbn [dest] in Hdest; injection Hdest as -> ->.
    + exfalso. rewrite <- Hget in Hold'. revert Hold'.
      apply successor_keeps_blob; try assumption. discriminate.
    + destruct (cell_eq_dec (a2, b2) (i2, j2)) as [[= -> ->] | Hsrc]; [reflexivity|].
      exfalso. rewrite <- Hget in Hold'. revert Hold'.
      apply successor_keeps_blob; try assumption.
      intros i' j' [= -> -> _ _]. apply Hsrc. reflexivity.
Qed.

Lemma successor_inj s m m' :
  legal s m -> legal s m' ->
  storages_ (successor s m) = storages_ (successor s m') -> m = m'.
Proof.
  intros Hm Hm' E. destruct m' as [i j | i2 j2 i j]; cbn [successor] in E.
  - apply (spawn_matches s i j m); [apply Hm' | exact Hm | exact E].
  - pose proof Hm' as (Hc & _ & Hc2 & _ & Ho).
    destruct (jump_matches s i2 j2 i j m Hc2 Hc Hm E) as [-> | [He _]]; [reflexivity|].
    exfalso. apply (movingPlayer_not_Empty s). congruence.
Qed.

(** X8. The successors written by [generateStatuses] have pairwise different
    storages: no successor is written twice, and [operator==] tells any two of
    them apart. *)
Theorem successors_distinct (s : Status) :
  NoDup (map storages_ (written (generateStatuses s)))
  /\ NoDup (written (generateStatuses s)).
Proof.
  assert (H : NoDup (map storages_ (written (generateStatuses s)))).
  { rewrite generateStatuses_legalMoves. cbn [written]. rewrite map_map.
    apply Finite.Injective_map_NoDup_in; [|apply NoDup_legalMoves].
    intros m m' Hm Hm'. apply successor_inj; apply In_legalMoves; assumption. }
  split; [exact H | apply (NoDup_map_inv storages_); exact H].
Qed.

(** ** Typed moves *)

Lemma idx_div_mod i j :
  onBoard i j -> idx i j / boardSize = i /\ idx i j mod boardSize = j.
Proof. unfold onBoard, idx, boardSize. intros H. Z.div_mod_to_equations. lia. Qed.

Lemma found_written s x :
  found (written (generateStatuses s)) x = true <->
  exists m, legal s m /\ storages_ (successor s m) = storages_ x.
Proof.
  unfold found. rewrite existsb_exists. split.
  - intros (t & Hin & E). apply Storages_eqb_eq in E.
    destruct (proj1 (In_written s t) Hin) as (m & Hm & ->). exists m. tauto.
  - intros (m & Hm & E). exists (successor s m).
    split; [|apply Storages_eqb_eq; exact E].
    apply (proj2 (In_written s _)). exists m. tauto.
Qed.

Lemma Status_eqb_same a : Status_eqb a a = Some true.
Proof.
  unfold Status_eqb.
  assert (Storages_eqb (storages_ a) (storages_ a) = true) as ->
    by (apply Storages_eqb_eq; reflexivity).
  rewrite !Z.eqb_refl. reflexivity.
Qed.

Lemma Status_eqb_differ a b : storages_ a <> storages_ b -> Status_eqb a b = Some false.
Proof.
  intros Hne. unfold Status_eqb.
  destruct (Storages_eqb (storages_ a) (storages_ b)) eqn:E; [|reflexivity].
  apply Storages_eqb_eq in E. contradiction.
Qed.

Lemma Storages_eq_dec (a b : Storages) : {a = b} + {a <> b}.
Proof. decide equality; apply Z.eq_dec. Qed.

(** X9. A typed spawn at a cell of the board is accepted exactly when that
    spawn is legal, and then the new status is the generated successor; while
    the generated moves are searched for it, the assertion of [operator==]
    never fails, even for a spawn typed onto an occupied cell. *)
Theorem humanSpawn_spec (s : Status) (i j : Z) (Hc : onBoard i j) :
  (legal s (Spawn i j) -> humanSpawn s (idx i j) = Some (spawn i j s))
  /\ (~ legal s (Spawn i j) -> humanSpawn s (idx i j) = None)
  /\ (forall t, In t (written (generateStatuses s)) ->
        Status_eqb t (spawn i j s) <> None).
Proof.
  destruct (idx_div_mod i j Hc) as [Hi Hj].
  unfold humanSpawn. cbv zeta. rewrite Hi, Hj.
  split; [|split].
  - intros Hm.
    assert (found (written (generateStatuses s)) (spawn i j s) = true) as ->;
      [|reflexivity].
    apply found_written. exists (Spawn i j). split; [exact Hm | reflexivity].
  - intros Hm. destruct (found _ _) eqn:E; [|reflexivity].
    apply found_written in E. destruct E as (m & Hlegal & E).
    rewrite (spawn_matches s i j m Hc Hlegal E) in Hlegal. contradiction.
  - intros t Hin. destruct (proj1 (In_written s t) Hin) as (m & Hm & ->).
    destruct (Storages_eq_dec (storages_ (successor s m)) (storages_ (spawn i j s)))
      as [E | Hne].
    + rewrite (spawn_matches s i j m Hc Hm E). cbn [successor].
      rewrite Status_eqb_same. discriminate.
    + rewrite Status_eqb_differ by exact Hne. discriminate.
Qed.

Lemma center_not_legal : ~ legal initial (Spawn 3 3).
Proof.
  intros H. apply (proj2 (In_legalMoves initial _)) in H. revert H.
  vm_compute. intros H.
  repeat (destruct H as [H | H]; [discriminate H|]). exact H.
Qed.

Lemma humanSpawn_spec_witness :
  humanSpawn initial (idx 3 3) = None.
Proof.
  assert (Hc : onBoard 3 3) by (unfold onBoard, boardSize; lia).
  exact (proj1 (proj2 (humanSpawn_spec initial 3 3 Hc)) center_not_legal).
Defined.

(** X10. A typed jump between two cells of the board is accepted exactly
    when that jump is legal or, the source being empty, when the spawn at the
    destination is legal; the new status is then one of the generated
    successors, and the assertion of [operator==] never fails during the
    search. *)
Theorem humanJump_spec (s : Status) (i2 j2 i j : Z)
    (Hc2 : onBoard i2 j2) (Hc : onBoard i j) :
  let typed := spawn i j (set (idx i2 j2) Empty s) in
  let accepted :=
    legal s (Jump i2 j2 i j) \/ (get s (idx i2 j2) = Empty /\ legal s (Spawn i j)) in
  (accepted -> humanJump s (idx i2 j2) (idx i j) = Some typed
               /\ In typed (written (generateStatuses s)))
  /\ (~ accepted -> humanJump s (idx i2 j2) (idx i j) = None)
  /\ (forall t, In t (written (generateStatuses s)) -> Status_eqb t typed <> None).
Proof.
  destruct (idx_div_mod i j Hc) as [Hi Hj].
  unfold humanJump. cbv zeta. rewrite Hi, Hj.
  assert (Hmatch : forall m, legal s m ->
            storages_ (successor s m) = storages_ (spawn i j (set (idx i2 j2) Empty s)) ->
            successor s m = spawn i j (set (idx i2 j2) Empty s)
            /\ (legal s (Jump i2 j2 i j)
                \/ (get s (idx i2 j2) = Empty /\ legal s (Spawn i j)))).
  { intros m Hm E.
    destruct (jump_matches s i2 j2 i j m Hc2 Hc Hm E) as [-> | [He ->]].
    - split; [reflexivity | left; exact Hm].
    - split; [|right; split; assumption]. cbn [successor].
      unfold set. rewrite He. reflexivity. }
  split; [|split].
  - intros Hacc.
    assert (exists m, legal s m
              /\ successor s m = spawn i j (set (idx i2 j2) Empty s)) as (m & Hm & E).
    { destruct Hacc as [Hm | [He Hm]].
      - exists (Jump i2 j2 i j). split; [exact Hm | reflexivity].
      - exists (Spawn i j). split; [exact Hm|]. cbn [successor].
        unfold set. rewrite He. reflexivity. }
    split.
    + assert (found (written (generateStatuses s))
                (spawn i j (set (idx i2 j2) Empty s)) = true) as ->; [|reflexivity].
      apply found_written. exists m. split; [exact Hm | rewrite E; reflexivity].
    + apply (proj2 (In_written s _)). exists m. split; [exact Hm | symmetry; exact E].
  - intros Hacc. destruct (found _ _) eqn:E; [|reflexivity].
    apply found_written in E. destruct E as (m & Hm & E).
    exfalso. apply Hacc. apply (Hmatch m Hm E).
  - intros t Hin. destruct (proj1 (In_written s t) Hin) as (m & Hm & ->).
    destruct (Storages_eq_dec (storages_ (successor s m))
                (storages_ (spawn i j (set (idx i2 j2) Empty s)))) as [E | Hne].
    + rewrite (proj1 (Hmatch m Hm E)), Status_eqb_same. discriminate.
    + rewrite Status_eqb_differ by exact Hne. discriminate.
Qed.

Lemma humanJump_spec_witness :
  humanJump initial (idx 0 0) (idx 0 2) = Some (spawn 0 2 (set (idx 0 0) Empty initial)).
Proof.
  assert (Hc2 : onBoard 0 0) by (unfold onBoard, boardSize; lia).
  assert (Hc : onBoard 0 2) by (unfold onBoard, boardSize; lia).
  exact (proj1 (proj1 (humanJump_spec initial 0 0 0 2 Hc2 Hc) (or_introl corner_jump_legal))).
Defined.

(** ** Move notation *)

Lemma inRange_cell pos :
  inRange pos ->
  onBoard (pos / boardSize) (pos mod boardSize)
  /\ idx (pos / boardSize) (pos mod boardSize) = pos.
Proof.
  unfold inRange, onBoard, idx, boardSize. intros H. Z.div_mod_to_equations. lia.
Qed.

Lemma indexString_idx i j :
  onBoard i j -> indexString (idx i j) = Some (cellName i j).
Proof.
  intros Hc. destruct (idx_div_mod i j Hc) as [Hi Hj].
  pose proof (idx_inRange i j Hc) as Hr. unfold indexString. cbv zeta.
  destruct (Z.ltb_spec (idx i j) (boardSize * boardSize)) as [_ | Hge];
    [|unfold inRange in Hr; lia].
  rewrite Hi, Hj. reflexivity.
Qed.

(** The last element of a list on which a test holds. *)
Lemma last_hit_none (p : Z -> bool) l : forall init,
  (forall i, In i l -> p i = false) ->
  fold_left (fun acc i => if p i then i else acc) l init = init.
Proof.
  induction l as [| a l IH]; intros init H; [reflexivity|].
  cbn [fold_left]. rewrite (H a (or_introl eq_refl)). apply IH.
  intros i Hi. apply H. right. exact Hi.
Qed.

Lemma last_hit_stays (p : Z -> bool) x l :
  (forall i, In i l -> p i = true -> i = x) ->
  fold_left (fun acc i => if p i then i else acc) l x = x.
Proof.
  induction l as [| a l IH]; intros H; [reflexivity|].
  cbn [fold_left]. destruct (p a) eqn:E.
  - rewrite (H a (or_introl eq_refl) E). apply IH.
    intros i Hi. apply H. right. exact Hi.
  - apply IH. intros i Hi. apply H. right. exact Hi.
Qed.

Lemma last_hit_unique (p : Z -> bool) x l : forall init,
  In x l -> p x = true ->
  (forall i, In i l -> p i = true -> i = x) ->
  fold_left (fun acc i => if p i then i else acc) l init = x.
Proof.
  induction l as [| a l IH]; intros init Hin Hx H; [contradiction|].
  cbn [fold_left]. destruct (p a) eqn:E.
  - rewrite (H a (or_introl eq_refl) E). apply last_hit_stays.
    intros i Hi. apply H. right. exact Hi.
  - destruct Hin as [-> | Hin]; [congruence|].
    apply IH; [exact Hin | exact Hx |]. intros i Hi. apply H. right. exact Hi.
Qed.

Lemma changed_folds first second :
  changed first second =
  (fold_left (fun acc i =>
                if Entry_eqb (get second i) Empty && negb (Entry_eqb (get first i) Empty)
                then i else acc) (upto (boardSize * boardSize)) none32,
   fold_left (fun acc i =>
                if Entry_eqb (get first i) Empty && negb (Entry_eqb (get second i) Empty)
                then i else acc) (upto (boardSize * boardSize)) none32).
Proof.
  unfold changed. generalize none32 at 1 3. generalize none32.
  induction (upto (boardSize * boardSize)) as [| a l IH]; intros x y; [reflexivity|].
  cbn [fold_left fst snd]. apply IH.
Qed.

Lemma emptied_iff a b :
  Entry_eqb a Empty && negb (Entry_eqb b Empty) = true <-> a = Empty /\ b <> Empty.
Proof.
  rewrite andb_true_iff, negb_true_iff, Entry_eqb_eq, Entry_eqb_neq. reflexivity.
Qed.

Lemma none32_outside pos : inRange pos -> pos <> none32.
Proof. unfold inRange, boardSize, none32. lia. Qed.

(** The fields found by the loop of [moveString] after a legal move. *)
Lemma changed_successor s m :
  legal s m ->
  changed s (successor s m) =
  (match m with
   | Spawn _ _ => none32
   | Jump i2 j2 _ _ => idx i2 j2
   end, cidx (dest m)).
Proof.
  intros Hm. rewrite changed_folds. f_equal.
  - destruct m as [i j | i2 j2 i j].
    + apply last_hit_none. intros pos Hpos. apply (In_upto _ pos) in Hpos.
      destruct (inRange_cell pos Hpos) as [Hc Hidx].
      destruct (_ && _) eqn:E; [|reflexivity]. apply emptied_iff in E.
      rewrite <- Hidx in E. destruct E as [E1 E2]. exfalso. revert E1.
      apply successor_keeps_blob; try assumption. discriminate.
    + pose proof Hm as (_ & _ & Hc2 & _ & Ho).
      apply last_hit_unique.
      * apply (In_upto _ (idx i2 j2)). apply (idx_inRange _ _ Hc2).
      * apply emptied_iff. split; [apply successor_source; exact Hm|].
        rewrite Ho. apply movingPlayer_not_Empty.
      * intros pos Hpos E. apply (In_upto _ pos) in Hpos.
        destruct (inRange_cell pos Hpos) as [Hc Hidx].
        apply emptied_iff in E. rewrite <- Hidx in E. destruct E as [E1 E2].
        destruct (cell_eq_dec (pos / boardSize, pos mod boardSize) (i2, j2))
          as [Heq | Hne]; [injection Heq as Hi Hj; rewrite <- Hi, <- Hj; symmetry; exact Hidx|].
        exfalso. revert E1. apply successor_keeps_blob; try assumption.
        intros i' j' [= Hi Hj _ _]. apply Hne. rewrite Hi, Hj. reflexivity.
  - assert (Hd : onBoard (fst (dest m)) (snd (dest m)) /\ get s (cidx (dest m)) = Empty)
      by (destruct m; cbn [legal dest fst snd] in *; unfold cidx; cbn [fst snd]; tauto).
    destruct Hd as [Hc He].
    apply last_hit_unique.
    + apply (In_upto _ (cidx (dest m))). apply (idx_inRange _ _ Hc).
    + apply emptied_iff. split; [exact He|].
      rewrite successor_dest by exact Hm. apply movingPlayer_not_Empty.
    + intros pos Hpos E. apply (In_upto _ pos) in Hpos.
      destruct (inRange_cell pos Hpos) as [Hc' Hidx].
      apply emptied_iff in E. rewrite <- Hidx in E. destruct E as [E1 E2].
      destruct (cell_eq_dec (pos / boardSize, pos mod boardSize) (dest m)) as [Heq | Hne].
      * rewrite <- Heq. symmetry. exact Hidx.
      * exfalso. apply E2. apply successor_keeps_empty; assumption.
Qed.

(** [moveString] after a legal move, and after a forced pass. *)
Lemma moveString_legal s m : legal s m -> moveString s (successor s m) = Some (notation m).
Proof.
  intros Hm. unfold moveString. cbv zeta.
  rewrite whiteMoves_successor by exact Hm.
  assert (Bool.eqb (whiteMoves s) (negb (whiteMoves s)) = false) as ->
    by (destruct (whiteMoves s); reflexivity).
  rewrite changed_successor by exact Hm. cbn [fst snd].
  destruct m as [i j | i2 j2 i j]; cbn [legal dest notation] in *;
    unfold cidx; cbn [fst snd].
  - destruct Hm as (Hc & _).
    destruct (Z.eqb_spec (idx i j) none32) as [E | _];
      [exfalso; revert E; apply none32_outside; apply idx_inRange; exact Hc|].
    rewrite Z.eqb_refl. cbn [negb]. rewrite indexString_idx by exact Hc. reflexivity.
  - destruct Hm as (Hc & _ & Hc2 & _).
    destruct (Z.eqb_spec (idx i j) none32) as [E | _];
      [exfalso; revert E; apply none32_outside; apply idx_inRange; exact Hc|].
    destruct (Z.eqb_spec (idx i2 j2) none32) as [E | _];
      [exfalso; revert E; apply none32_outside; apply idx_inRange; exact Hc2|].
    cbn [negb]. rewrite !indexString_idx by assumption. reflexivity.
Qed.

Lemma moveString_switched s : moveString s (switchPlayerTurn s) = None.
Proof.
  unfold moveString. cbv zeta. rewrite whiteMoves_switchPlayerTurn.
  assert (Bool.eqb (whiteMoves s) (negb (whiteMoves s)) = false) as ->
    by (destruct (whiteMoves s); reflexivity).
  rewrite changed_folds. cbn [fst snd].
  rewrite (last_hit_none _ _ none32) at 1.
  - rewrite Z.eqb_refl. reflexivity.
  - intros pos Hpos. apply (In_upto _ pos) in Hpos.
    rewrite get_switchPlayerTurn by exact Hpos.
    destruct (Entry_eqb (get s pos) Empty); reflexivity.
Qed.

Lemma N_of_charOf z : 0 <= z < 256 -> Z.of_N (Ascii.N_of_ascii (charOf z)) = z.
Proof.
  intros Hz. unfold charOf. rewrite Z.mod_small by exact Hz.
  rewrite Ascii.N_ascii_embedding by lia. lia.
Qed.

Lemma charOf_inj a b : 0 <= a < 256 -> 0 <= b < 256 -> charOf a = charOf b -> a = b.
Proof.
  intros Ha Hb E. rewrite <- (N_of_charOf a Ha), <- (N_of_charOf b Hb), E. reflexivity.
Qed.

Lemma cellName_inj i j i' j' :
  onBoard i j -> onBoard i' j' -> charOf (j + 65) = charOf (j' + 65) ->
  charOf (i + 48) = charOf (i' + 48) -> i = i' /\ j = j'.
Proof.
  unfold onBoard, boardSize. intros H H' Ej Ei.
  apply charOf_inj in Ej; [|lia|lia]. apply charOf_inj in Ei; [|lia|lia]. lia.
Qed.

Lemma notation_inj s m m' : legal s m -> legal s m' -> notation m = notation m' -> m = m'.
Proof.
  intros Hm Hm' E.
  destruct m as [i j | i2 j2 i j], m' as [i' j' | i2' j2' i' j'];
    cbn [notation cellName String.append] in E; cbn [legal] in Hm, Hm'.
  - injection E as Ej Ei.
    destruct (cellName_inj i j i' j') as [-> ->]; try assumption; try tauto.
  - discriminate E.
  - discriminate E.
  - injection E as Ej2 Ei2 Ej Ei.
    destruct (cellName_inj i j i' j') as [-> ->]; try assumption; try tauto.
    destruct (cellName_inj i2 j2 i2' j2') as [-> ->]; try assumption; try tauto.
Qed.

(** X11. For every legal move, [moveString] of the status and its successor
    is the notation of the move: the letter of the column and the digit of the
    row of the destination, preceded for a jump by those of the source. The
    string tells the move: two legal moves printed alike are the same move. *)
Theorem moveString_successor (s : Status) (m : Move) (Hm : legal s m) :
  moveString s (successor s m) = Some (notation m)
  /\ (forall m', legal s m' ->
        moveString s (successor s m') = moveString s (successor s m) -> m' = m).
Proof.
  split; [apply moveString_legal; exact Hm|].
  intros m' Hm' E.
  rewrite (moveString_legal s m Hm), (moveString_legal s m' Hm') in E.
  injection E as E. apply (notation_inj s); assumption.
Qed.

Lemma moveString_successor_witness :
  moveString initial (successor initial (Jump 0 0 0 2))
  = Some (notation (Jump 0 0 0 2)).
Proof. exact (proj1 (moveString_successor initial (Jump 0 0 0 2) corner_jump_legal)). Defined.

(** X12. [moveString] fails an assertion on a forced pass, where no field
    became non-empty, and on any two statuses with the same mover. *)
Theorem moveString_pass (s : Status) :
  moveString s (switchPlayerTurn s) = None
  /\ (forall t, whiteMoves s = whiteMoves t -> moveString s t = None).
Proof.
  split.
  - apply moveString_switched.
  - intros t E. unfold moveString. rewrite E, Bool.eqb_reflx. reflexivity.
Qed.

Lemma moveString_pass_witness :
  moveString initial (set 24 Black initial) = None.
Proof.
  apply (proj2 (moveString_pass initial) (set 24 Black initial)).
  vm_compute. reflexivity.
Defined.

(** ** Typed coordinates *)

(** X13. [parseCoordinate] returns the sentinel or a position of the board,
    whatever the letter and whatever [std::stoi] reads. *)
Theorem parseCoordinate_range (stoi : String.string -> option Z)
    (s0 : Ascii.ascii) (s1 : String.string) :
  parseCoordinate stoi s0 s1 = none32 \/ inRange (parseCoordinate stoi s0 s1).
Proof.
  unfold parseCoordinate. cbv zeta.
  set (c := Z.of_N (Ascii.N_of_ascii s0)).
  set (col := if (97 <=? c) && (c <=? 122) then c - 97 else c - 65).
  destruct (Z.leb_spec 0 col); [|left; reflexivity].
  destruct (Z.ltb_spec col boardSize); [|left; reflexivity]. cbn [andb negb].
  destruct (stoi s1) as [row |]; [|left; reflexivity].
  destruct (Z.leb_spec 0 row); [|left; reflexivity].
  destruct (Z.ltb_spec row boardSize); [|left; reflexivity]. cbn [andb negb].
  right. unfold inRange, boardSize in *. lia.
Qed.

(** X14. [parseCoordinate] reads back what [indexString] writes: from the
    letter and the digit of a cell of the board it returns the position of the
    cell, for the upper-case and for the lower-case letter, provided
    [std::stoi] reads a single digit as its value. *)
Theorem parseCoordinate_cellName (stoi : String.string -> option Z)
    (Hstoi : forall d, 0 <= d <= 9 ->
               stoi (String.String (charOf (d + 48)) String.EmptyString) = Some d)
    (i j : Z) (Hc : onBoard i j) :
  indexString (idx i j)
  = Some (String.String (charOf (j + 65))
            (String.String (charOf (i + 48)) String.EmptyString))
  /\ parseCoordinate stoi (charOf (j + 65))
       (String.String (charOf (i + 48)) String.EmptyString) = idx i j
  /\ parseCoordinate stoi (charOf (j + 97))
       (String.String (charOf (i + 48)) String.EmptyString) = idx i j.
Proof.
  split; [apply indexString_idx; exact Hc|].
  destruct Hc as [Hi Hj]. unfold boardSize in Hi, Hj.
  unfold parseCoordinate. cbv zeta.
  rewrite !N_of_charOf, Hstoi by lia.
  replace ((97 <=? j + 65) && (j + 65 <=? 122)) with false
    by (symmetry; apply andb_false_iff; left; apply Z.leb_gt; lia).
  replace ((97 <=? j + 97) && (j + 97 <=? 122)) with true
    by (symmetry; apply andb_true_iff; split; apply Z.leb_le; lia).
  replace (j + 65 - 65) with j by lia. replace (j + 97 - 97) with j by lia.
  replace ((0 <=? j) && (j <? boardSize)) with true
    by (symmetry; apply andb_true_iff; unfold boardSize; split;
        [apply Z.leb_le | apply Z.ltb_lt]; lia).
  replace ((0 <=? i) && (i <? boardSize)) with true
    by (symmetry; apply andb_true_iff; unfold boardSize; split;
        [apply Z.leb_le | apply Z.ltb_lt]; lia).
  cbn [negb]. split; reflexivity.
Qed.

Lemma std_stoi_digit d :
  0 <= d <= 9 -> std_stoi (String.String (charOf (d + 48)) String.EmptyString) = Some d.
Proof.
  intros Hd.
  assert (d = 0 \/ d = 1 \/ d = 2 \/ d = 3 \/ d = 4 \/ d = 5 \/ d = 6
          \/ d = 7 \/ d = 8 \/ d = 9) as Hcases by lia.
  repeat (destruct Hcases as [-> | Hcases]; [vm_compute; reflexivity|]).
  subst d. vm_compute. reflexivity.
Qed.

Lemma parseCoordinate_cellName_witness :
  parseCoordinate std_stoi (charOf (2 + 65))
    (String.String (charOf (5 + 48)) String.EmptyString) = idx 5 2.
Proof.
  assert (Hc : onBoard 5 2) by (unfold onBoard, boardSize; lia).
  exact (proj1 (proj2 (parseCoordinate_cellName std_stoi std_stoi_digit 5 2 Hc))).
Defined.

(** ** No deadlock *)

(** A test that differs at the two ends of an interval flips between two
    neighbours. *)
Lemma flip_between (g : Z -> bool) lo : forall n hi,
  hi = lo + Z.of_nat n -> g lo <> g hi ->
  exists k, lo <= k < hi /\ g k <> g (k + 1).
Proof.
  induction n as [| n IH]; intros hi Hhi Hne.
  - exfalso. apply Hne. f_equal. lia.
  - destruct (bool_dec (g lo) (g (hi - 1))) as [E | E].
    + exists (hi - 1). split; [lia|]. replace (hi - 1 + 1) with hi by lia. congruence.
    + destruct (IH (hi - 1) ltac:(lia) E) as (k & Hk & Hf). exists k. split; [lia | exact Hf].
Qed.

Lemma flip_near (g : Z -> bool) a b :
  g a = true -> g b = false ->
  exists k k', Z.min a b <= k <= Z.max a b /\ Z.min a b <= k' <= Z.max a b
               /\ Z.abs (k - k') = 1 /\ g k = true /\ g k' = false.
Proof.
  intros Ha Hb. destruct (Z.le_ge_cases a b) as [Hab | Hab].
  - destruct (flip_between g a (Z.to_nat (b - a)) b ltac:(lia) ltac:(congruence))
      as (k & Hk & Hf).
    destruct (g k) eqn:E1, (g (k + 1)) eqn:E2; try congruence.
    + exists k, (k + 1). repeat split; try lia; assumption.
    + exists (k + 1), k. repeat split; try lia; assumption.
  - destruct (flip_between g b (Z.to_nat (a - b)) a ltac:(lia) ltac:(congruence))
      as (k & Hk & Hf).
    destruct (g k) eqn:E1, (g (k + 1)) eqn:E2; try congruence.
    + exists k, (k + 1). repeat split; try lia; assumption.
    + exists (k + 1), k. repeat split; try lia; assumption.
Qed.

(** On a board with a blob and an empty field, some blob has an empty
    neighbour. *)
Lemma blob_next_to_empty s a b c d :
  onBoard a b -> onBoard c d ->
  get s (idx a b) <> Empty -> get s (idx c d) = Empty ->
  exists i j i2 j2, onBoard i j /\ onBoard i2 j2 /\ chebyshev i j i2 j2 = 1
                    /\ get s (idx i j) = Empty /\ get s (idx i2 j2) <> Empty.
Proof.
  intros Hab Hcd Hblob Hempty.
  set (f := fun i j => negb (Entry_eqb (get s (idx i j)) Empty)).
  assert (Hf : forall i j, f i j = true <-> get s (idx i j) <> Empty)
    by (intros i j; unfold f; rewrite negb_true_iff; apply Entry_eqb_neq).
  assert (Hf' : forall i j, f i j = false <-> get s (idx i j) = Empty)
    by (intros i j; unfold f; rewrite negb_false_iff; apply Entry_eqb_eq).
  unfold onBoard in *.
  destruct (f a d) eqn:Had.
  - destruct (flip_near (fun i => f i d) a c Had (proj2 (Hf' c d) Hempty))
      as (k & k' & Hk & Hk' & Hd & Hkt & Hkf).
    exists k', d, k, d. rewrite <- Hf', <- Hf. unfold chebyshev.
    repeat split; try assumption; lia.
  - destruct (flip_near (fun j => f a j) b d (proj2 (Hf a b) Hblob) Had)
      as (k & k' & Hk & Hk' & Hd & Hkt & Hkf).
    exists a, k', a, k. rewrite <- Hf', <- Hf. unfold chebyshev.
    repeat split; try assumption; lia.
Qed.

Lemma countEntries_pos s e :
  0 < countEntries s e -> exists pos, inRange pos /\ get s pos = e.
Proof.
  unfold countEntries. intros H.
  destruct (filter (fun pos => Entry_eqb (get s pos) e) positions) as [| pos l] eqn:E;
    [cbn in H; lia|].
  assert (In pos (filter (fun pos => Entry_eqb (get s pos) e) positions)) as Hin
    by (rewrite E; left; reflexivity).
  apply filter_In in Hin. destruct Hin as [Hin Hp].
  exists pos. split; [apply In_positions; exact Hin | apply Entry_eqb_eq; exact Hp].
Qed.

Lemma countEntries_zero s e pos :
  countEntries s e = 0 -> inRange pos -> get s pos <> e.
Proof.
  unfold countEntries. intros H Hp E.
  assert (In pos (filter (fun pos => Entry_eqb (get s pos) e) positions)) as Hin
    by (apply filter_In; split; [apply In_positions; exact Hp | apply Entry_eqb_eq; exact E]).
  destruct (filter _ positions); [contradiction | cbn in H; lia].
Qed.

Lemma legal_num s m : legal s m -> num (generateStatuses s) <> 0.
Proof.
  intros Hm. rewrite generateStatuses_legalMoves. cbn [num].
  apply (proj2 (In_legalMoves s m)) in Hm.
  destruct (legalMoves s); [contradiction | cbn [length]; lia].
Qed.

Lemma movingPlayer_switchPlayerTurn s :
  movingPlayer (switchPlayerTurn s) = opponent (movingPlayer s).
Proof.
  unfold movingPlayer. rewrite whiteMoves_switchPlayerTurn.
  destruct (whiteMoves s); reflexivity.
Qed.

(** X15. The game never deadlocks: on a game state that is not over (both
    colours present, board not full), when the mover has no legal move, the
    opponent has one after the forced pass. *)
Theorem no_double_pass (s : Status) (Hs : GameState s)
    (Hnone : num (generateStatuses s) = 0)
    (Hlive : Z.abs (score s) < boardSize * boardSize) :
  num (generateStatuses (switchPlayerTurn s)) <> 0.
Proof.
  destruct Hs as [Hc Hu]. pose proof Hc as [Hw Hb].
  pose proof (counted_range s Hc) as (Hw0 & Hb0 & Ht).
  pose proof (countEntries_total s) as Htot.
  assert (Hparts : blackScore_ s <> 0 /\ whiteScore_ s <> 0
                   /\ whiteScore_ s + blackScore_ s <> boardSize * boardSize).
  { revert Hlive. unfold score.
    destruct (Z.eqb_spec (blackScore_ s) 0), (Z.eqb_spec (whiteScore_ s) 0),
      (Z.eqb_spec (whiteScore_ s + blackScore_ s) (boardSize * boardSize)),
      (Z.gtb_spec (whiteScore_ s) (blackScore_ s)),
      (Z.gtb_spec (blackScore_ s) (whiteScore_ s));
      unfold boardSize in *; lia. }
  destruct Hparts as (Hb1 & Hw1 & Hfull).
  destruct (countEntries_pos s Empty ltac:(lia)) as (pe & Hpe & Hempty).
  destruct (countEntries_pos s White ltac:(lia)) as (pw & Hpw & Hwhite).
  destruct (inRange_cell pe Hpe) as [Hce Hie]. destruct (inRange_cell pw Hpw) as [Hcw Hiw].
  rewrite <- Hie in Hempty. rewrite <- Hiw in Hwhite.
  destruct (blob_next_to_empty s _ _ _ _ Hcw Hce ltac:(congruence) Hempty)
    as (i & j & i2 & j2 & Hij & Hij2 & Hd & He & Hblob).
  assert (Hown : get s (idx i2 j2) = movingPlayer s
                 \/ get s (idx i2 j2) = opponent (movingPlayer s)).
  { pose proof (countEntries_zero s Unused3 _ Hu (idx_inRange _ _ Hij2)) as Hn.
    destruct (movingPlayer_cases s) as [[-> _] | [-> _]];
      destruct (get s (idx i2 j2)); cbn [opponent];
      first [left; reflexivity | right; reflexivity | congruence]. }
  destruct Hown as [Hown | Hown].
  - exfalso. apply (legal_num s (Spawn i j)); [|exact Hnone].
    cbn [legal]. split; [exact Hij|]. split; [exact He|]. exists i2, j2. tauto.
  - apply (legal_num _ (Spawn i j)). cbn [legal].
    rewrite movingPlayer_switchPlayerTurn.
    rewrite get_switchPlayerTurn by (apply idx_inRange; assumption).
    split; [exact Hij|]. split; [exact He|]. exists i2, j2.
    rewrite get_switchPlayerTurn by (apply idx_inRange; assumption). tauto.
Qed.

Lemma blocked_GameState : GameState blocked.
Proof. repeat split; vm_compute; reflexivity. Qed.

Lemma no_double_pass_witness :
  num (generateStatuses (switchPlayerTurn blocked)) <> 0.
Proof.
  apply (no_double_pass blocked blocked_GameState).
  - vm_compute. reflexivity.
  - vm_compute. reflexivity.
Defined.

(** X16. Every status reachable from the initial position has tidy
    storages: both words fit 64 bits and the bits between the last field and
    the turn bit are clear; the default status is tidy and [set], [spawn] and
    [switchPlayerTurn] keep storages tidy. *)
Theorem storages_tidy (s : Status) :
  tidy Status0
  /\ (reachable s -> tidy s)
  /\ (tidy s -> forall pos v, inRange pos -> tidy (set pos v s))
  /\ (tidy s -> forall i j, onBoard i j -> tidy (spawn i j s))
  /\ (tidy s -> tidy (switchPlayerTurn s)).
Proof.
  split; [apply tidy_Status0|]. split; [apply reachable_tidy|].
  split; [intros Hs pos v Hp; apply tidy_set; assumption|].
  split; [intros Hs i j Hc; apply tidy_spawn; assumption|].
  apply tidy_switchPlayerTurn.
Qed.

Lemma storages_tidy_witness : tidy (spawn 0 1 initial).
Proof.
  destruct (storages_tidy initial) as (_ & Hr & _ & Hs & _).
  apply (Hs (Hr reach_initial)). unfold onBoard, boardSize. lia.
Defined.

(** ** Rendering *)

(** X17. In the string of [to_string], the character at offset
    42 + 19 * i + 2 * j is the one of the entry of the cell (i, j): the empty
    character for Empty, the white one for White, the black one for anything
    else; each row starts with its digit. *)
Theorem to_string_cells (empty white black : Ascii.ascii) (s : Status)
    (i j : Z) (Hc : onBoard i j) :
  String.get (Z.to_nat (42 + 19 * i + 2 * j)) (to_string empty white black s)
  = Some (symbol empty white black (get s (idx i j)))
  /\ String.get (Z.to_nat (38 + 19 * i)) (to_string empty white black s)
     = Some (charOf (i + 48)).
Proof.
  destruct Hc as [Hi Hj]. unfold boardSize in Hi, Hj.
  assert (Hi' : i = 0 \/ i = 1 \/ i = 2 \/ i = 3 \/ i = 4 \/ i = 5 \/ i = 6) by lia.
  assert (Hj' : j = 0 \/ j = 1 \/ j = 2 \/ j = 3 \/ j = 4 \/ j = 5 \/ j = 6) by lia.
  clear Hi Hj.
  destruct Hi' as [-> | [-> | [-> | [-> | [-> | [-> | ->]]]]]];
    destruct Hj' as [-> | [-> | [-> | [-> | [-> | [-> | ->]]]]]];
    split; cbv - [get Entry_eqb score decimal]; reflexivity.
Qed.

Lemma to_string_cells_witness :
  String.get 42 (to_string "E"%char "W"%char "B"%char initial) = Some "W"%char.
Proof.
  assert (Hc : onBoard 0 0) by (unfold onBoard, boardSize; lia).
  exact (proj1 (to_string_cells "E"%char "W"%char "B"%char initial 0 0 Hc)).
Defined.

(** ** The move printed by [main] *)

(** X18. After a search at depth 1 or more, [moveString] of the status and
    the reported status is the notation of a legal move whose successor was
    reported; but when the mover has no legal move, the status reported is the
    forced pass, the status with the turn switched, and [moveString] fails
    its assertion on it. *)
Theorem printed_move
    (sort : (Status -> Status -> bool) -> list Status -> list Status)
    (s : Status) (depth : nat) (Hdepth : (1 <= depth)%nat) :
  (num (generateStatuses s) = 0 ->
     snd (search sort depth s) = Some (switchPlayerTurn s)
     /\ moveString s (switchPlayerTurn s) = None
     /\ computerMove sort depth s = None)
  /\ (num (generateStatuses s) <> 0 ->
      exists t m, snd (search sort depth s) = Some t
                  /\ legal s m /\ t = successor s m
                  /\ moveString s t = Some (notation m)
                  /\ computerMove sort depth s = Some (notation m, t)).
Proof.
  destruct depth as [| d]; [lia|].
  destruct (search_root sort s d) as [Hpass Hmove]. split.
  - intros E. split; [apply Hpass; exact E|].
    split; [apply moveString_switched|].
    unfold computerMove. rewrite (Hpass E). cbv zeta.
    rewrite moveString_switched. reflexivity.
  - intros Hne. destruct (Hmove Hne) as (t & Ht & Hin).
    destruct (proj1 (In_written s t) Hin) as (m & Hm & ->).
    exists (successor s m), m. split; [exact Ht|]. split; [exact Hm|].
    split; [reflexivity|]. split; [apply moveString_legal; exact Hm|].
    unfold computerMove. rewrite Ht. cbv zeta.
    rewrite (moveString_legal s m Hm). reflexivity.
Qed.

Lemma printed_move_witness :
  snd (search insertionSort 2 blocked) = Some (switchPlayerTurn blocked)
  /\ moveString blocked (switchPlayerTurn blocked) = None
  /\ computerMove insertionSort 2 blocked = None.
Proof.
  apply (proj1 (printed_move insertionSort blocked 2 (le_S 1 1 (le_n 1)))).
  vm_compute. reflexivity.
Defined.

(** ** No move *)

Lemma countEntries_none s e pos :
  countEntries s e = 0 -> inRange pos -> get s pos = e -> False.
Proof. intros H Hp E. exact (countEntries_zero s e pos H Hp E). Qed.

(** X19. On a full board, and for a mover without blobs, [generateStatuses]
    writes nothing and returns 0. *)
Theorem no_moves (s : Status)
    (H : countEntries s Empty = 0 \/ countEntries s (movingPlayer s) = 0) :
  generateStatuses s = mkOut [] 0.
Proof.
  rewrite generateStatuses_legalMoves.
  assert (legalMoves s = []) as ->; [|reflexivity].
  destruct (legalMoves s) as [| m l] eqn:E; [reflexivity|]. exfalso.
  assert (Hm : legal s m) by (apply In_legalMoves; rewrite E; left; reflexivity).
  destruct H as [H | H].
  - destruct m as [i j | i2 j2 i j]; cbn [legal] in Hm;
      apply (countEntries_none s Empty (idx i j) H);
      try (apply idx_inRange); tauto.
  - destruct m as [i j | i2 j2 i j]; cbn [legal] in Hm.
    + destruct Hm as (_ & _ & a & b & Hab & _ & Ho).
      apply (countEntries_none s _ (idx a b) H); [apply idx_inRange; exact Hab | exact Ho].
    + destruct Hm as (_ & _ & Hab & _ & Ho).
      apply (countEntries_none s _ (idx i2 j2) H); [apply idx_inRange; exact Hab | exact Ho].
Qed.

Lemma no_moves_witness : generateStatuses stuck = mkOut [] 0.
Proof. apply (no_moves stuck). right. vm_compute. reflexivity. Defined.

(** ** The game played by [main] *)

Lemma computerMove_spec sort d s :
  (num (generateStatuses s) = 0 -> computerMove sort (S d) s = None)
  /\ (num (generateStatuses s) <> 0 ->
      exists m, legal s m
                /\ computerMove sort (S d) s = Some (notation m, successor s m)).
Proof.
  destruct (search_root sort s d) as [Hpass Hmove]. unfold computerMove. split.
  - intros E. rewrite (Hpass E). cbv zeta. rewrite moveString_switched. reflexivity.
  - intros Hne. destruct (Hmove Hne) as (t & Ht & Hin).
    destruct (proj1 (In_written s t) Hin) as (m & Hm & ->).
    exists m. split; [exact Hm|]. rewrite Ht. cbv zeta.
    rewrite (moveString_legal s m Hm). reflexivity.
Qed.

Lemma rounds_played sort : forall fuel s n,
  GameState s -> whiteMoves s = true ->
  exists t, played s (fst (rounds sort fuel s n)) t
            /\ GameState t
            /\ (snd (rounds sort fuel s n) = Returned -> finished t = true)
            /\ (snd (rounds sort fuel s n) = Aborted ->
                finished t = false /\ num (generateStatuses t) = 0).
Proof.
  induction fuel as [| fuel IH]; intros s n Hs Hw.
  - exists s. cbn [rounds fst snd]. split; [constructor|]. split; [exact Hs|].
    split; discriminate.
  - cbn [rounds]. destruct (finished s) eqn:Ef.
    { exists s. cbn [fst snd]. split; [constructor|]. split; [exact Hs|].
      split; [intros _; exact Ef | discriminate]. }
    unfold WHITEDEPTH, BLACKDEPTH.
    destruct (computerMove_spec sort 4 s) as [Hp Hm].
    destruct (Z.eq_dec (num (generateStatuses s)) 0) as [E | Hne].
    { rewrite (Hp E). exists s. cbn [fst snd].
      split; [apply played_header; [exact Hw | constructor]|].
      split; [exact Hs|]. split; [discriminate | intros _; split; assumption]. }
    destruct (Hm Hne) as (m & Hlm & ->).
    assert (Hs1 : GameState (successor s m)) by (apply successor_GameState; assumption).
    destruct (finished (successor s m)) eqn:Ef1.
    { exists (successor s m). cbn [fst snd].
      split; [apply played_header; [exact Hw|]; apply played_move; [exact Hlm | constructor]|].
      split; [exact Hs1|]. split; [intros _; exact Ef1 | discriminate]. }
    destruct (computerMove_spec sort 2 (successor s m)) as [Hp1 Hm1].
    destruct (Z.eq_dec (num (generateStatuses (successor s m))) 0) as [E1 | Hne1].
    { rewrite (Hp1 E1). exists (successor s m). cbn [fst snd].
      split; [apply played_header; [exact Hw|]; apply played_move; [exact Hlm | constructor]|].
      split; [exact Hs1|]. split; [discriminate | intros _; split; assumption]. }
    destruct (Hm1 Hne1) as (m' & Hlm' & ->).
    assert (Hs2 : GameState (successor (successor s m) m'))
      by (apply successor_GameState; assumption).
    assert (Hw2 : whiteMoves (successor (successor s m) m') = true).
    { rewrite whiteMoves_successor by exact Hlm'.
      rewrite whiteMoves_successor by exact Hlm. rewrite Hw. reflexivity. }
    destruct (IH (successor (successor s m) m') (n + 1) Hs2 Hw2)
      as (t & Hpl & Ht & Hret & Hab).
    destruct (rounds sort fuel (successor (successor s m) m') (n + 1)) as [out e].
    cbn [fst snd] in *. exists t.
    split; [apply played_header; [exact Hw|]; apply played_move; [exact Hlm|];
            apply played_move; [exact Hlm' | exact Hpl]|].
    split; [exact Ht|]. split; assumption.
Qed.

(** X20. Whatever the number of rounds, the output of [main] is the board of
    the seeded position followed by a game played from it: every printed move
    is the notation of a legal move of the board before it and the board
    after it is its successor, and every round starts with White to move.
    The status reached holds exact counts; when [main] returns, the game is
    over there; when an assertion fails, the game is not over there and the
    mover has no legal move. *)
Theorem main_plays
    (sort : (Status -> Status -> bool) -> list Status -> list Status) (fuel : nat) :
  exists out t,
    fst (main sort fuel) = Board initial :: out
    /\ played initial out t
    /\ GameState t
    /\ (snd (main sort fuel) = Returned -> finished t = true)
    /\ (snd (main sort fuel) = Aborted ->
        finished t = false /\ num (generateStatuses t) = 0).
Proof.
  destruct (rounds_played sort fuel initial 0 initial_GameState eq_refl)
    as (t & Hpl & Ht & Hret & Hab).
  unfold main. cbv zeta.
  destruct (rounds sort fuel initial 0) as [out e]. cbn [fst snd] in *.
  exists out, t. split; [reflexivity|]. split; [exact Hpl|]. split; [exact Ht|].
  split; assumption.
Qed.

(** ** The mover along the search *)

Lemma descendLog_descend (recL : Status -> Z -> Z -> Z * list (nat * Status))
    (rec : Status -> Z -> Z -> Z) (mx : bool) :
  (forall m a b, fst (recL m a b) = rec m a b) ->
  forall moves i alpha beta newScore newIndex,
    fst (descendLog recL mx moves i alpha beta newScore newIndex)
    = descend rec mx moves i alpha beta newScore newIndex.
Proof.
  intros H. induction moves as [| m rest IH]; intros i alpha beta newScore newIndex.
  - reflexivity.
  - cbn [descendLog descend]. rewrite <- (H m alpha beta).
    destruct (recL m alpha beta) as [r log]. cbn [fst]. cbv zeta.
    destruct mx.
    + destruct (r >? newScore); cbv iota;
        destruct (beta <=? (if r >? alpha then r else alpha)); try reflexivity;
        rewrite <- IH;
        match goal with |- context [descendLog ?a ?b ?c ?d ?e ?f ?g ?h] =>
          destruct (descendLog a b c d e f g h) as [found log'] end; reflexivity.
    + destruct (r <? newScore); cbv iota;
        destruct ((if r <? beta then r else beta) <=? alpha); try reflexivity;
        rewrite <- IH;
        match goal with |- context [descendLog ?a ?b ?c ?d ?e ?f ?g ?h] =>
          destruct (descendLog a b c d e f g h) as [found log'] end; reflexivity.
Qed.

Lemma descendLog_In (recL : Status -> Z -> Z -> Z * list (nat * Status))
    (mx : bool) (x : nat * Status) :
  forall moves i alpha beta newScore newIndex,
    In x (snd (descendLog recL mx moves i alpha beta newScore newIndex)) ->
    exists m a b, In m moves /\ In x (snd (recL m a b)).
Proof.
  induction moves as [| m rest IH]; intros i alpha beta newScore newIndex;
    cbn [descendLog]; [intros []|].
  destruct (recL m alpha beta) as [r log] eqn:E. cbv zeta.
  assert (Hhere : In x log -> exists m0 a b, In m0 (m :: rest) /\ In x (snd (recL m0 a b))).
  { intros Hx. exists m, alpha, beta. split; [left; reflexivity|].
    rewrite E. exact Hx. }
  assert (Hrest : forall i a b n k,
            In x (snd (descendLog recL mx rest i a b n k)) ->
            exists m0 a b, In m0 (m :: rest) /\ In x (snd (recL m0 a b))).
  { intros i' a' b' n' k' Hx. destruct (IH _ _ _ _ _ Hx) as (m0 & a0 & b0 & Hin & Hx0).
    exists m0, a0, b0. split; [right; exact Hin | exact Hx0]. }
  destruct mx.
  - destruct (r >? newScore); cbv iota;
      destruct (beta <=? (if r >? alpha then r else alpha)); try exact Hhere;
      match goal with |- context [descendLog ?a ?b ?c ?d ?e ?f ?g ?h] =>
        pose proof (Hrest d e f g h) as Hr;
        destruct (descendLog a b c d e f g h) as [found log'] end;
      cbn [snd] in *; intros Hx; apply in_app_or in Hx;
      (destruct Hx as [Hx | Hx]; [exact (Hhere Hx) | exact (Hr Hx)]).
  - destruct (r <? newScore); cbv iota;
      destruct ((if r <? beta then r else beta) <=? alpha); try exact Hhere;
      match goal with |- context [descendLog ?a ?b ?c ?d ?e ?f ?g ?h] =>
        pose proof (Hrest d e f g h) as Hr;
        destruct (descendLog a b c d e f g h) as [found log'] end;
      cbn [snd] in *; intros Hx; apply in_app_or in Hx;
      (destruct Hx as [Hx | Hx]; [exact (Hhere Hx) | exact (Hr Hx)]).
Qed.

(** The log changes no result. *)
Lemma minimaxLog_minimax sort depth : forall level s alpha beta,
  fst (minimaxLog sort depth level s alpha beta) = minimax sort depth level s alpha beta.
Proof.
  induction level as [| level IH]; intros s alpha beta; [reflexivity|].
  cbn [minimaxLog minimax]. cbv zeta.
  destruct (num (generateStatuses s) =? 0); [reflexivity|].
  rewrite <- (descendLog_descend
                (fun m a b => let '(r, log) := minimaxLog sort depth level m a b in (fst r, log))
                (fun m a b => fst (minimax sort depth level m a b))).
  - match goal with |- context [descendLog ?a ?b ?c ?d ?e ?f ?g ?h] =>
      destruct (descendLog a b c d e f g h) as [[newScore newIndex] log] end.
    reflexivity.
  - intros m a b. rewrite <- IH. destruct (minimaxLog sort depth level m a b). reflexivity.
Qed.

Lemma path_cons s t : edge s t -> forall n u, path t n u -> path s (S n) u.
Proof.
  intros He n u Hp. induction Hp as [t | t v u n Hp IH Hvu].
  - apply path_step with s; [apply path_nil | exact He].
  - apply path_step with v; [apply IH; exact He | exact Hvu].
Qed.

(** Every call of the search is on a status at the end of a path of moves
    from the root, as long as the level says. *)
Lemma minimaxLog_path sort (sort_perm : forall lt l, Permutation (sort lt l) l) depth :
  forall level s alpha beta l t,
    In (l, t) (snd (minimaxLog sort depth level s alpha beta)) ->
    (l <= level)%nat /\ path s (level - l) t.
Proof.
  induction level as [| level IH]; intros s alpha beta l t.
  - cbn [minimaxLog snd]. intros [E | []]. injection E as <- <-.
    split; [lia | apply path_nil].
  - cbn [minimaxLog]. cbv zeta.
    assert (Hroot : (S level, s) = (l, t) -> (l <= S level)%nat /\ path s (S level - l) t).
    { intros E. injection E as <- <-. rewrite Nat.sub_diag. split; [lia | apply path_nil]. }
    destruct (num (generateStatuses s) =? 0).
    { cbn [snd]. intros [E | []]. exact (Hroot E). }
    fold (ordered sort depth (S level) s).
    match goal with |- context [descendLog ?a ?b ?c ?d ?e ?f ?g ?h] =>
      pose proof (descendLog_In a b (l, t) c d e f g h) as Hin;
      destruct (descendLog a b c d e f g h) as [[newScore newIndex] log] end.
    cbn [snd] in *. intros [E | Hx]; [exact (Hroot E)|].
    destruct (Hin Hx) as (m & a & b & Hm & Hlog).
    destruct (minimaxLog sort depth level m a b) as [r lg] eqn:E. cbn [snd] in Hlog.
    pose proof (IH m a b l t) as Hrec. rewrite E in Hrec. cbn [snd] in Hrec.
    destruct (Hrec Hlog) as [Hle Hp]. split; [lia|].
    replace (S level - l)%nat with (S (level - l)) by lia.
    apply path_cons with m; [|exact Hp]. apply edge_move.
    apply (proj1 (In_ordered sort sort_perm depth (S level) s m)). exact Hm.
Qed.

(** C10. Every successor written by [generateStatuses] has the opposite
    mover; the forced pass flips the mover too, and it is what [minimax]
    stores, at any level but 0, for a status without moves; whatever the
    search stores at the root has the opposite mover. So the side to move
    alternates along every path of the search tree: every call of [minimax]
    made by the search, [level - l] levels below the root, is on a status
    whose mover is the root's exactly when [level - l] is even. *)
Theorem mover_alternates
    (sort : (Status -> Status -> bool) -> list Status -> list Status) (s : Status) :
  (forall t, In t (written (generateStatuses s)) -> whiteMoves t = negb (whiteMoves s))
  /\ whiteMoves (switchPlayerTurn s) = negb (whiteMoves s)
  /\ (forall n t, path s n t -> whiteMoves t = xorb (whiteMoves s) (Nat.odd n))
  /\ (forall depth level alpha beta,
        level <> O -> num (generateStatuses s) = 0 ->
        minimax sort depth level s alpha beta = (score s, Some (switchPlayerTurn s)))
  /\ (forall depth t,
        snd (search sort depth s) = Some t ->
        edge s t /\ whiteMoves t = negb (whiteMoves s))
  /\ ((forall lt l, Permutation (sort lt l) l) ->
      forall depth level alpha beta,
        fst (minimaxLog sort depth level s alpha beta)
        = minimax sort depth level s alpha beta
        /\ forall l t,
             In (l, t) (snd (minimaxLog sort depth level s alpha beta)) ->
             (l <= level)%nat
             /\ path s (level - l) t
             /\ whiteMoves t = xorb (whiteMoves s) (Nat.odd (level - l))).
Proof.
  split; [intros t; apply whiteMoves_written|].
  split; [apply whiteMoves_switchPlayerTurn|].
  split; [intros n t; apply whiteMoves_path|].
  split.
  { intros depth level alpha beta Hl E. destruct level as [| level]; [contradiction|].
    cbn [minimax]. rewrite E. reflexivity. }
  split.
  { intros depth t Ht. destruct depth as [| d]; [discriminate Ht|].
    destruct (search_root sort s d) as [Hpass Hmove].
    destruct (Z.eq_dec (num (generateStatuses s)) 0) as [E | Hne].
    - rewrite (Hpass E) in Ht. injection Ht as <-.
      split; [apply edge_pass; exact E | apply whiteMoves_switchPlayerTurn].
    - destruct (Hmove Hne) as (t' & Ht' & Hin). rewrite Ht' in Ht. injection Ht as <-.
      split; [apply edge_move; exact Hin | apply whiteMoves_written; exact Hin]. }
  intros sort_perm depth level alpha beta.
  split; [apply minimaxLog_minimax|].
  intros l t Hin.
  destruct (minimaxLog_path sort sort_perm depth level s alpha beta l t Hin) as [Hle Hp].
  split; [exact Hle|]. split; [exact Hp | apply whiteMoves_path; exact Hp].
Qed.

Lemma mover_alternates_witness :
  whiteMoves (spawn 0 1 initial) = negb (whiteMoves initial)
  /\ whiteMoves (spawn 6 1 (spawn 0 1 initial)) = xorb (whiteMoves initial) (Nat.odd 2)
  /\ (forall l t, In (l, t) (snd (minimaxLog insertionSort 2 2 initial (-49) 49)) ->
        whiteMoves t = xorb (whiteMoves initial) (Nat.odd (2 - l))).
Proof.
  destruct (mover_alternates insertionSort initial) as (H1 & _ & H3 & _ & _ & H6).
  assert (In (spawn 0 1 initial) (written (generateStatuses initial))) as Hin
    by (vm_compute; left; reflexivity).
  assert (In (spawn 6 1 (spawn 0 1 initial))
             (written (generateStatuses (spawn 0 1 initial)))) as Hin2
    by (vm_compute; repeat (first [left; reflexivity | right])).
  split; [exact (H1 _ Hin)|].
  split.
  - exact (H3 2%nat _ (path_step _ _ _ _ (path_step _ _ _ _ (path_nil _) (edge_move _ _ Hin))
                                 (edge_move _ _ Hin2))).
  - intros l t Hl.
    exact (proj2 (proj2 (proj2 (H6 insertionSort_perm 2%nat 2%nat (-49) 49) l t Hl))).
Defined.
